(** * Fast box blur (fast_blur.c): summed-area tables and window averages

    A shallow embedding of [main] of [src/fast_blur.c] and of the helpers it
    uses, followed by the properties of the summed-area table construction
    and of the per-pixel window average.

    - C [int] is a 32-bit two's-complement integer: every [int] operation of
      the source is written with its wrap-around ([wrap]).
    - The three tables are flat arrays ([list Z]) obtained from [malloc];
      their initial contents are whatever the allocator hands out and are a
      parameter of the model ([junk_r], [junk_g], [junk_b]).
    - Images live in a heap indexed by addresses, so that the input and the
      output image are two objects reached through pointers.
    - [float] is IEEE-754 binary32, taken from the Standard Library's
      executable specification [SpecFloat] at precision 24.
    - The OpenMP pragmas do not change the values computed when the loop
      bodies are independent; the loops are modelled sequentially, in
      source order. The last part of the file takes the iterations of the
      loops under a pragma in any order and shows that nothing changes.
    - The routine [transpose], which the source keeps in a comment for
      reference, is modelled as it is written there. *)

From Stdlib Require Import ZArith List Lia Bool.
From Stdlib Require Import Floats.SpecFloat.
From stdpp Require Import base list gmap.

Local Open Scope Z_scope.

(* ===================================================================== *)
(** ** Machine integers *)
(* ===================================================================== *)

Definition INT_MIN : Z := -2147483648.
Definition INT_MAX : Z := 2147483647.

(** Reduction of a mathematical integer to the [int] that a 32-bit
    two's-complement machine keeps. *)
Definition wrap (z : Z) : Z := (z + 2147483648) mod 4294967296 - 2147483648.

Definition in_int (z : Z) : Prop := INT_MIN <= z <= INT_MAX.
Definition in_intb (z : Z) : bool := (INT_MIN <=? z) && (z <=? INT_MAX).

Definition int_add (a b : Z) : Z := wrap (a + b).
Definition int_sub (a b : Z) : Z := wrap (a - b).
Definition int_mul (a b : Z) : Z := wrap (a * b).

(** [#define min(X, Y) (((X) < (Y)) ? (X) : (Y))] *)
Definition min (X Y : Z) : Z := if X <? Y then X else Y.
(** [#define max(X, Y) (((X) < (Y)) ? (Y) : (X))] *)
Definition max (X Y : Z) : Z := if X <? Y then Y else X.

(** [int idx(int row, int col, int width, int g)] *)
Definition idx (row col width g : Z) : Z :=
  int_mul (int_add (int_mul row width) col) g.

(* ===================================================================== *)
(** ** Loops and arrays *)
(* ===================================================================== *)

(** [for (int i = lo; i < hi; i++) body(i)], threading the state. *)
Definition for_loop {S : Type} (lo hi : Z) (body : Z -> S -> S) (s : S) : S :=
  fold_left (fun acc k => body (lo + Z.of_nat k) acc)
            (seq 0 (Z.to_nat (hi - lo))) s.

(** [a[i]] and [a[i] = v] on a heap block of [int]. An access outside the
    block is undefined in C; the model reads 0 and drops the write. *)
Definition load (a : list Z) (i : Z) : Z :=
  if i <? 0 then 0 else nth (Z.to_nat i) a 0.

Definition store (a : list Z) (i v : Z) : list Z :=
  if i <? 0 then a else <[Z.to_nat i := v]> a.

(** [malloc(sizeof(int) * n)]: a block of [n] ints whose contents are not
    initialised; [junk] is what the allocator left there. *)
Definition malloc (n : Z) (junk : nat -> Z) : list Z :=
  map (fun k => wrap (junk k)) (seq 0 (Z.to_nat n)).

(* ===================================================================== *)
(** ** The image store (ppmFile.h) *)
(* ===================================================================== *)

(** [typedef struct Image { int width; int height; unsigned char *data; }] *)
Record Image : Type := mkImage {
  width : Z;
  height : Z;
  data : list Z
}.

(** [Image] objects live in a heap; an [Image *] is an address ([nat]).
    The samples of an image are stored row by row, three per pixel. *)
Definition pixel_offset (img : Image) (x y chan : Z) : Z :=
  (y * width img + x) * 3 + chan.

(** Modelled from the spec: [ImageCreate], of which only the declaration is
    in ppmFile.h. It returns a new image of the given width and height
    (three 8-bit samples per pixel, row-major), at an address not in use. *)
Definition ImageCreate (w h : Z) (m : gmap nat Image) : nat * gmap nat Image :=
  let p := fresh (dom m) in
  (p, <[p := mkImage w h (repeat 0 (Z.to_nat (w * h * 3)))]> m).

(** Modelled from the spec: [ImageGetPixel], of which only the declaration
    is in ppmFile.h: the value of channel [chan] of the pixel at [(x, y)],
    an [unsigned char]. *)
Definition ImageGetPixel (m : gmap nat Image) (image : nat) (x y chan : Z) : Z :=
  match m !! image with
  | Some img => load (data img) (pixel_offset img x y chan) mod 256
  | None => 0
  end.

(** Modelled from the spec: [ImageSetPixel], of which only the declaration
    is in ppmFile.h: sets channel [chan] of the pixel at [(x, y)] of the
    image at [image] to the [unsigned char] [val]. *)
Definition ImageSetPixel (m : gmap nat Image) (image : nat) (x y chan val : Z) : gmap nat Image :=
  match m !! image with
  | Some img =>
      <[image := mkImage (width img) (height img)
                   (store (data img) (pixel_offset img x y chan) (val mod 256))]> m
  | None => m
  end.

(* ===================================================================== *)
(** ** Single-precision arithmetic of the averaging step *)
(* ===================================================================== *)

Definition float : Type := spec_float.

(** [(float) z] for an [int] [z]: round to nearest, ties to even. *)
Definition float_of_int (z : Z) : float := binary_normalize 24 128 z 0 false.

Definition float_div (x y : float) : float := SFdiv 24 128 x y.

(** Integral part of a float, rounding toward zero. *)
Definition float_trunc (x : float) : Z :=
  match x with
  | S754_finite s m e =>
      let a := match e with
               | Zneg k => Z.shiftr (Zpos m) (Zpos k)
               | _ => Z.shiftl (Zpos m) e
               end in
      if s then - a else a
  | _ => 0
  end.

(** Conversion of a float to [unsigned char]: the fraction is discarded.
    C leaves the conversion undefined when the integral part is not in
    0..255; the model keeps the low eight bits. *)
Definition uchar_of_float (x : float) : Z := float_trunc x mod 256.

(* ===================================================================== *)
(** ** The program state of [main] *)
(* ===================================================================== *)

(** [images] is the heap of images; [sums_r], [sums_g], [sums_b] are the
    three tables. [overflowed] is a ghost flag: it is raised when an
    addition computing a table cell leaves the range of [int] (the model
    then goes on with the wrapped value). *)
Record state : Type := mkState {
  images : gmap nat Image;
  sums_r : list Z;
  sums_g : list Z;
  sums_b : list Z;
  overflowed : bool
}.

Definition add_overflows (a b : Z) : bool := negb (in_intb (a + b)).

(** Lines 80-85: one iteration of the inner loop of the first part. *)
Definition row_sum_cell (img_in : nat) (W row col : Z) (s : state) : state :=
  let pr := ImageGetPixel (images s) img_in col row 0 in
  let pg := ImageGetPixel (images s) img_in col row 1 in
  let pb := ImageGetPixel (images s) img_in col row 2 in
  let lr := load (sums_r s) (idx row (int_sub col 1) W 1) in
  let lg := load (sums_g s) (idx row (int_sub col 1) W 1) in
  let lb := load (sums_b s) (idx row (int_sub col 1) W 1) in
  mkState (images s)
    (store (sums_r s) (idx row col W 1) (int_add pr lr))
    (store (sums_g s) (idx row col W 1) (int_add pg lg))
    (store (sums_b s) (idx row col W 1) (int_add pb lb))
    (overflowed s || add_overflows pr lr || add_overflows pg lg
       || add_overflows pb lb).

(** Lines 78-87: the first part (row-relative horizontal sums). *)
Definition phase1 (img_in : nat) (H W : Z) (s : state) : state :=
  for_loop 0 H (fun row => for_loop 1 W (fun col => row_sum_cell img_in W row col)) s.

(** Lines 102-104: one iteration of the inner loop of the second part. *)
Definition col_sum_cell (W col row : Z) (s : state) : state :=
  let cr := load (sums_r s) (idx row col W 1) in
  let cg := load (sums_g s) (idx row col W 1) in
  let cb := load (sums_b s) (idx row col W 1) in
  let ur := load (sums_r s) (idx (int_sub row 1) col W 1) in
  let ug := load (sums_g s) (idx (int_sub row 1) col W 1) in
  let ub := load (sums_b s) (idx (int_sub row 1) col W 1) in
  mkState (images s)
    (store (sums_r s) (idx row col W 1) (int_add cr ur))
    (store (sums_g s) (idx row col W 1) (int_add cg ug))
    (store (sums_b s) (idx row col W 1) (int_add cb ub))
    (overflowed s || add_overflows cr ur || add_overflows cg ug
       || add_overflows cb ub).

(** Lines 100-106: the second part (vertical accumulation). *)
Definition phase2 (H W : Z) (s : state) : state :=
  for_loop 0 W (fun col => for_loop 1 H (fun row => col_sum_cell W col row)) s.

(** Lines 113-116: the corners of the square around the pixel. *)
Record BoundingBox : Type := mkBox {
  x_min : Z;
  x_max : Z;
  y_min : Z;
  y_max : Z
}.

Definition bounding_box (R H W row col : Z) : BoundingBox :=
  mkBox (max (int_sub col R) 0)
        (min (int_add col R) (int_sub W 1))
        (max (int_sub row R) 0)
        (min (int_add row R) (int_sub H 1)).

(** Line 119: [(x_max - (x_min - 1)) * (y_max - (y_min - 1))]. *)
Definition pixels (bb : BoundingBox) : Z :=
  int_mul (int_sub (x_max bb) (int_sub (x_min bb) 1))
          (int_sub (y_max bb) (int_sub (y_min bb) 1)).

(** Lines 123-126: the table of a colour channel. *)
Definition sums_color (s : state) (color : Z) : list Z :=
  if color =? 0 then sums_r s
  else if color =? 1 then sums_g s
  else sums_b s.

(** Lines 150-159: the four corner values. *)
Definition corner_a (t : list Z) (W : Z) (bb : BoundingBox) : Z :=
  if (y_min bb <? 1) || (x_min bb <? 1) then 0
  else load t (idx (int_sub (y_min bb) 1) (int_sub (x_min bb) 1) W 1).

Definition corner_b (t : list Z) (W : Z) (bb : BoundingBox) : Z :=
  if y_min bb <? 1 then 0
  else load t (idx (int_sub (y_min bb) 1) (x_max bb) W 1).

Definition corner_c (t : list Z) (W : Z) (bb : BoundingBox) : Z :=
  if x_min bb <? 1 then 0
  else load t (idx (y_max bb) (int_sub (x_min bb) 1) W 1).

Definition corner_d (t : list Z) (W : Z) (bb : BoundingBox) : Z :=
  load t (idx (y_max bb) (x_max bb) W 1).

(** Line 162, the integer operand: [d - (b + c - a)]. *)
Definition window_sum (t : list Z) (W : Z) (bb : BoundingBox) : Z :=
  int_sub (corner_d t W bb)
          (int_sub (int_add (corner_b t W bb) (corner_c t W bb)) (corner_a t W bb)).

(** Line 162: [unsigned char s = (float)(d - (b + c - a)) / pixels;] *)
Definition average (sum count : Z) : Z :=
  uchar_of_float (float_div (float_of_int sum) (float_of_int count)).

(** Lines 122-165: the body of the loop over the colour channels. *)
Definition blur_channel (img_out : nat) (W row col : Z) (bb : BoundingBox)
    (color : Z) (s : state) : state :=
  let v := average (window_sum (sums_color s color) W bb) (pixels bb) in
  mkState (ImageSetPixel (images s) img_out col row color v)
          (sums_r s) (sums_g s) (sums_b s) (overflowed s).

(** Lines 111-167: the body of the loop over the columns. *)
Definition blur_pixel (R : Z) (img_out : nat) (H W row col : Z) (s : state) : state :=
  let bb := bounding_box R H W row col in
  for_loop 0 3 (blur_channel img_out W row col bb) s.

(** Lines 110-168: the averaging pass. *)
Definition phase3 (R : Z) (img_out : nat) (H W : Z) (s : state) : state :=
  for_loop 0 H (fun row => for_loop 0 W (fun col => blur_pixel R img_out H W row col)) s.

(** Dimensions of the image at an address ([img_in->height],
    [img_in->width]). *)
Definition image_height (m : gmap nat Image) (p : nat) : Z :=
  match m !! p with Some img => height img | None => 0 end.
Definition image_width (m : gmap nat Image) (p : nat) : Z :=
  match m !! p with Some img => width img | None => 0 end.

(** Lines 59-68: dimensions, output image and the three tables. *)
Definition setup (img_in : nat) (junk_r junk_g junk_b : nat -> Z) (m : gmap nat Image)
    : nat * state :=
  let H := image_height m img_in in
  let W := image_width m img_in in
  let '(img_out, m1) := ImageCreate W H m in
  (img_out,
   mkState m1 (malloc (H * W) junk_r) (malloc (H * W) junk_g)
           (malloc (H * W) junk_b) false).

(** [main], from the image read at [img_in] to the state in which
    [ImageWrite] is called on the returned address. [R] is [atoi(argv[1])];
    [m] is the heap after [ImageRead]. *)
Definition main (R : Z) (img_in : nat) (junk_r junk_g junk_b : nat -> Z)
    (m : gmap nat Image) : nat * state :=
  let H := image_height m img_in in
  let W := image_width m img_in in
  let '(img_out, s0) := setup img_in junk_r junk_g junk_b m in
  let s1 := phase1 img_in H W s0 in
  let s2 := phase2 H W s1 in
  let s3 := phase3 R img_out H W s2 in
  (img_out, s3).

(** The state between the passes. *)
Definition after_phase1 (img_in : nat) (junk_r junk_g junk_b : nat -> Z)
    (m : gmap nat Image) : state :=
  phase1 img_in (image_height m img_in) (image_width m img_in)
         (snd (setup img_in junk_r junk_g junk_b m)).

Definition after_phase2 (img_in : nat) (junk_r junk_g junk_b : nat -> Z)
    (m : gmap nat Image) : state :=
  phase2 (image_height m img_in) (image_width m img_in)
         (after_phase1 img_in junk_r junk_g junk_b m).

(** [table[r][c]] of a channel, as the program reads it. *)
Definition table (s : state) (W color r c : Z) : Z :=
  load (sums_color s color) (idx r c W 1).


(* ===================================================================== *)
(** ** Reference definitions: what the specification speaks of *)
(* ===================================================================== *)

(** [sum_below f n] is [f 0 + ... + f (n - 1)]. *)
Fixpoint sum_below (f : nat -> Z) (n : nat) : Z :=
  match n with
  | O => 0
  | S k => sum_below f k + f k
  end.

(** Sum of [f y x] over the rows [y0..y1] and the columns [x0..x1]. *)
Definition rect_sum (f : Z -> Z -> Z) (x0 x1 y0 y1 : Z) : Z :=
  sum_below (fun dy => sum_below (fun dx => f (y0 + Z.of_nat dy) (x0 + Z.of_nat dx))
                                 (Z.to_nat (x1 - x0 + 1)))
            (Z.to_nat (y1 - y0 + 1)).

(** The pixel values of one channel of the image at [p]: [pixel[r][c]]. *)
Definition pixel (m : gmap nat Image) (p : nat) (color r c : Z) : Z :=
  ImageGetPixel m p c r color.

(** Inclusive prefix sum of a channel over the rectangle from the origin to
    [(r, c)]. *)
Definition prefix_sum (m : gmap nat Image) (p : nat) (color r c : Z) : Z :=
  rect_sum (pixel m p color) 0 c 0 r.

(** Sum of a channel over the window [x0..x1] x [y0..y1]. *)
Definition window_pixels_sum (m : gmap nat Image) (p : nat) (color x0 x1 y0 y1 : Z) : Z :=
  rect_sum (pixel m p color) x0 x1 y0 y1.

(** The bounding box of the specification: the square of side [2R + 1]
    centred on the pixel, clamped to the image. *)
Definition clamped_box (R H W row col : Z) : BoundingBox :=
  mkBox (Z.max (col - R) 0) (Z.min (col + R) (W - 1))
        (Z.max (row - R) 0) (Z.min (row + R) (H - 1)).

(** The number of pixels of a box. *)
Definition window_count (bb : BoundingBox) : Z :=
  (x_max bb - x_min bb + 1) * (y_max bb - y_min bb + 1).

(** The brute-force box blur of the specification: sum the pixels of the
    clamped window and divide by their number, discarding the fraction. *)
Definition brute_force (m : gmap nat Image) (p : nat) (R color row col : Z) : Z :=
  let bb := clamped_box R (image_height m p) (image_width m p) row col in
  Z.quot (window_pixels_sum m p color (x_min bb) (x_max bb) (y_min bb) (y_max bb))
         (window_count bb).

(** The global average of a channel. *)
Definition global_average (m : gmap nat Image) (p : nat) (color : Z) : Z :=
  let W := image_width m p in
  let H := image_height m p in
  Z.quot (prefix_sum m p color (H - 1) (W - 1)) (W * H).

(* ===================================================================== *)
(** ** What the program leaves in the tables *)
(* ===================================================================== *)

(** The uninitialised memory handed out for the table of a channel. *)
Definition junk_of (junk_r junk_g junk_b : nat -> Z) (color : Z) : nat -> Z :=
  if color =? 0 then junk_r
  else if color =? 1 then junk_g
  else junk_b.

(** What cell [(r, 0)] of a table holds when [malloc] returns: column 0 is
    written by neither pass. *)
Definition column0 (junk_r junk_g junk_b : nat -> Z) (W : Z) (k : Z * Z * Z) : Z :=
  let '(color, r, _) := k in
  wrap (junk_of junk_r junk_g junk_b color (Z.to_nat (r * W))).

(** What the first part accumulates in cell [(r, c)], as a mathematical
    integer: the content [t0] of cell [(r, 0)] before the pass, plus the
    pixels of row [r] in columns [1..c]. *)
Definition row_sums (px : Z -> Z -> Z -> Z) (t0 : Z * Z * Z -> Z)
    (k : Z * Z * Z) : Z :=
  let '(color, r, c) := k in
  t0 (color, r, 0) + sum_below (fun j => px color r (Z.of_nat j + 1)) (Z.to_nat c).

(** What the second part accumulates in cell [(r, c)], as a mathematical
    integer: the contents [t1] of the cells [(0, c)], ..., [(r, c)] before
    the pass. *)
Definition col_sums (t1 : Z * Z * Z -> Z) (k : Z * Z * Z) : Z :=
  let '(color, r, c) := k in
  sum_below (fun y => t1 (color, Z.of_nat y, c)) (Z.to_nat (r + 1)).

(** What the two parts together accumulate in cell [(r, c)], as a
    mathematical integer: for every row [y <= r], what column 0 held at
    allocation plus the pixels of columns [1..c]. *)
Definition accumulated (m : gmap nat Image) (img_in : nat)
    (junk_r junk_g junk_b : nat -> Z) (k : Z * Z * Z) : Z :=
  col_sums (row_sums (pixel m img_in)
                     (column0 junk_r junk_g junk_b (image_width m img_in))) k.

(** The value that cell [(y, x)] contributes to the tables of [main]: a
    pixel for the columns from 1 on, and for column 0 what [malloc] left in
    the cell. *)
Definition table_entry (m : gmap nat Image) (img_in : nat)
    (junk_r junk_g junk_b : nat -> Z) (color y x : Z) : Z :=
  if x =? 0 then column0 junk_r junk_g junk_b (image_width m img_in) (color, y, 0)
  else pixel m img_in color y x.

(* ===================================================================== *)
(** ** Invariants of the passes *)
(* ===================================================================== *)

(** [touched own lo hi k]: some iteration in [lo, hi) of a loop writes the
    cell [k], where [own i k] says that iteration [i] writes [k]. *)
Definition touched {K : Type} (own : Z -> K -> Prop) (lo hi : Z) (k : K) : Prop :=
  exists i, lo <= i < hi /\ own i k.

(** A cell [(color, r, c)] of the tables of an image of [H] rows and [W]
    columns. *)
Definition in_table (H W : Z) (k : Z * Z * Z) : bool :=
  let '(color, r, c) := k in
  (0 <=? color) && (color <? 3) && (0 <=? r) && (r <? H)
  && (0 <=? c) && (c <? W).

(** The content of a table cell in state [s] (0 outside the tables). *)
Definition cell (H W : Z) (s : state) (k : Z * Z * Z) : Z :=
  let '(color, r, c) := k in
  if in_table H W k then load (sums_color s color) (r * W + c) else 0.

(** All values of a cell-indexed family, over the cells of the tables, are
    representable as [int]. *)
Definition fits (H W : Z) (f : Z * Z * Z -> Z) : Prop :=
  forall k, in_table H W k = true -> in_int (f k).

(** What both table passes keep, relative to the state [s0] they started
    from: the image heap, the sizes of the three tables, the range of their
    cells and, when the sums [f] of the pass fit in [int], the ghost flag. *)
Definition tables_inv (H W : Z) (f : Z * Z * Z -> Z) (s0 s : state) : Prop :=
  images s = images s0
  /\ length (sums_r s) = Z.to_nat (H * W)
  /\ length (sums_g s) = Z.to_nat (H * W)
  /\ length (sums_b s) = Z.to_nat (H * W)
  /\ (forall k, in_int (cell H W s k))
  /\ (fits H W f -> overflowed s = overflowed s0).

(** The value that lines 113-162 compute for pixel [(row, col)] and channel
    [color] from the tables of state [s]. *)
Definition blurred (s : state) (R H W row col color : Z) : Z :=
  let bb := bounding_box R H W row col in
  average (window_sum (sums_color s color) W bb) (pixels bb).

(** A sample [(row, col, color)] of an image of [H] rows and [W] columns. *)
Definition in_image (H W : Z) (k : Z * Z * Z) : bool :=
  let '(row, col, color) := k in
  (0 <=? row) && (row <? H) && (0 <=? col) && (col <? W)
  && (0 <=? color) && (color <? 3).

(** The samples of the image at [p], as [ImageGetPixel] returns them. *)
Definition sample (p : nat) (H W : Z) (s : state) (k : Z * Z * Z) : Z :=
  let '(row, col, color) := k in
  if in_image H W k then ImageGetPixel (images s) p col row color else 0.

(** What the averaging pass keeps: the tables and the ghost flag of the
    state [s0] it started from, every image other than the output image,
    and the dimensions of the output image. *)
Definition averaging_inv (img_out : nat) (H W : Z) (s0 s : state) : Prop :=
  sums_r s = sums_r s0 /\ sums_g s = sums_g s0 /\ sums_b s = sums_b s0
  /\ overflowed s = overflowed s0
  /\ (exists img, images s !! img_out = Some img
        /\ width img = W /\ height img = H
        /\ Z.of_nat (length (data img)) = W * H * 3)
  /\ (forall q, q <> img_out -> images s !! q = images s0 !! q).

(** What every pass keeps of the image heap [m] it started from: all
    images other than the output image, and the dimensions of the output
    image. *)
Definition heap_frame (img_out : nat) (H W : Z) (m : gmap nat Image) (s : state) : Prop :=
  (exists img, images s !! img_out = Some img /\ width img = W /\ height img = H)
  /\ (forall q, q <> img_out -> images s !! q = m !! q).

(* ===================================================================== *)
(** ** Concrete inputs *)
(* ===================================================================== *)

(** A 2 x 2 image whose pixels are grey: 10 and 20 on the first row, 30
    and 40 on the second. *)
Definition image_2x2 : Image :=
  mkImage 2 2 [10; 10; 10;  20; 20; 20;  30; 30; 30;  40; 40; 40].

(** The heap after [ImageRead]: the image read, at address 0. *)
Definition heap_2x2 : gmap nat Image := {[ 0%nat := image_2x2 ]}.

(** The same image with other values in column 0: 50 and 20 on the first
    row, 70 and 40 on the second. *)
Definition image_2x2_b : Image :=
  mkImage 2 2 [50; 50; 50;  20; 20; 20;  70; 70; 70;  40; 40; 40].

(** The heap holding the second 2 x 2 image at address 0. *)
Definition heap_2x2_b : gmap nat Image := {[ 0%nat := image_2x2_b ]}.

(** A 1 x 1 image with the single pixel (7, 7, 7). *)
Definition image_1x1 : Image := mkImage 1 1 [7; 7; 7].

(** The heap holding the 1 x 1 image at address 0. *)
Definition heap_1x1 : gmap nat Image := {[ 0%nat := image_1x1 ]}.

(** A white image of one row and 8421506 columns. *)
Definition white_row : Image :=
  mkImage 8421506 1 (repeat 255 (Z.to_nat (8421506 * 1 * 3))).

(** The heap holding the white row at address 0. *)
Definition heap_white_row : gmap nat Image := {[ 0%nat := white_row ]}.

(** Memory that happens to be zero-filled, as pages fresh from the
    operating system are. *)
Definition zero_junk : nat -> Z := fun _ => 0.

(** Memory that happens to hold the value [v] everywhere. *)
Definition const_junk (v : Z) : nat -> Z := fun _ => v.

(** A 4 x 4 grey image: 10, 20, 30, 40 on the first row, 50 to 80 on the
    second, 90 to 120 on the third, and 130, 140, 150, 165 on the last. *)
Definition image_4x4 : Image :=
  mkImage 4 4 [ 10;  10;  10;   20;  20;  20;   30;  30;  30;   40;  40;  40;
                50;  50;  50;   60;  60;  60;   70;  70;  70;   80;  80;  80;
                90;  90;  90;  100; 100; 100;  110; 110; 110;  120; 120; 120;
               130; 130; 130;  140; 140; 140;  150; 150; 150;  165; 165; 165].
Definition heap_4x4 : gmap nat Image := {[ 0%nat := image_4x4 ]}.

(** A grey image of 260 rows and 261 columns: every sample is 252, but for
    the pixel of row 1 and column 2, which is 251. *)
Definition image_grey : Image :=
  mkImage 261 260
    (repeat 252 (Z.to_nat 789) ++ repeat 251 (Z.to_nat 3)
     ++ repeat 252 (Z.to_nat 202788)).
Definition heap_grey : gmap nat Image := {[ 0%nat := image_grey ]}.

(** The samples of the grey image. *)
Definition grey_pixel (y x : Z) : Z :=
  if (y =? 1) && (x =? 2) then 251 else 252.

(* ===================================================================== *)
(** ** The reference routine [transpose] *)
(* ===================================================================== *)

(** [malloc(n * sizeof(unsigned char))]: a block of [n] bytes whose
    contents are not initialised. *)
Definition malloc_uchar (n : Z) (junk : nat -> Z) : list Z :=
  map (fun k => junk k mod 256) (seq 0 (Z.to_nat n)).

(** Lines 32-51: [transpose], which the source keeps in a comment for
    reference. The state is the pair of [matrix] and [transposed_matrix].

    Lines 41-42: [transposed_matrix[gi + idx(col, row, h, g)]
                   = matrix[gi + idx(row, col, w, g)];] *)
Definition transpose_value (h w g row col gi : Z) (st : list Z * list Z)
    : list Z * list Z :=
  (fst st,
   store (snd st) (int_add gi (idx col row h g))
         (load (fst st) (int_add gi (idx row col w g)))).

(** Lines 38-45: the three nested loops. *)
Definition transpose_fill (h w g : Z) (st : list Z * list Z) : list Z * list Z :=
  for_loop 0 h (fun row =>
    for_loop 0 w (fun col =>
      for_loop 0 g (fun gi => transpose_value h w g row col gi))) st.

(** Lines 47-49: [matrix[i] = transposed_matrix[i]]. *)
Definition transpose_copy_back (i : Z) (st : list Z * list Z) : list Z * list Z :=
  (store (fst st) i (load (snd st) i), snd st).

(** [transpose(matrix, h, w, g)]: the content of [matrix] when the function
    returns; [junk] is what [malloc] left in [transposed_matrix]. *)
Definition transpose (matrix : list Z) (h w g : Z) (junk : nat -> Z) : list Z :=
  let n := int_mul (int_mul g h) w in
  let st := transpose_fill h w g (matrix, malloc_uchar n junk) in
  fst (for_loop 0 n transpose_copy_back st).

(** A value [(row, col, gi)] of a grid of [h] rows and [w] columns with [g]
    values per cell. *)
Definition in_grid (h w g : Z) (k : Z * Z * Z) : bool :=
  let '(row, col, gi) := k in
  (0 <=? row) && (row <? h) && (0 <=? col) && (col <? w)
  && (0 <=? gi) && (gi <? g).

(** The value [(row, col, gi)] of the transposed block, a grid of [w] rows
    and [h] columns. *)
Definition transposed_value (h w g : Z) (st : list Z * list Z) (k : Z * Z * Z) : Z :=
  let '(row, col, gi) := k in
  if in_grid h w g k then load (snd st) (gi + (col * h + row) * g) else 0.

(** What the three loops keep: [matrix], and the size of
    [transposed_matrix]. *)
Definition transpose_inv (matrix : list Z) (n : Z) (st : list Z * list Z) : Prop :=
  fst st = matrix /\ Z.of_nat (length (snd st)) = n.

(* ===================================================================== *)
(** ** The loops under [#pragma omp parallel for] *)
(* ===================================================================== *)

(** The iterations of [for (int i = lo; i < hi; i++)], in source order. *)
Definition range (lo hi : Z) : list Z :=
  (fun k => lo + Z.of_nat k) <$> seq 0 (Z.to_nat (hi - lo)).

(** [#pragma omp parallel for]: the loop that follows it hands its
    iterations to a team of threads. [for_each l body] runs the iterations
    [l] one after the other, in the order of [l]. *)
Definition for_each {S : Type} (l : list Z) (body : Z -> S -> S) (s : S) : S :=
  fold_left (fun acc i => body i acc) l s.

(** Some iteration of [l] writes the cell [k]. *)
Definition touched_in {K : Type} (own : Z -> K -> Prop) (l : list Z) (k : K) : Prop :=
  exists i, i ∈ l /\ own i k.

(** The three passes of [main], the iterations of each outer loop (the
    loop under the pragma) taken in a given order. *)
Definition phase1_in_order (img_in : nat) (W : Z) (rows : list Z) (s : state) : state :=
  for_each rows (fun row => for_loop 1 W (fun col => row_sum_cell img_in W row col)) s.

Definition phase2_in_order (H W : Z) (cols : list Z) (s : state) : state :=
  for_each cols (fun col => for_loop 1 H (fun row => col_sum_cell W col row)) s.

Definition phase3_in_order (R : Z) (img_out : nat) (H W : Z) (rows : list Z)
    (s : state) : state :=
  for_each rows (fun row => for_loop 0 W (fun col => blur_pixel R img_out H W row col)) s.

(* ===================================================================== *)
(** ** Further concrete inputs *)
(* ===================================================================== *)

(** An image of three rows and no column. *)
Definition image_no_column : Image := mkImage 0 3 [].
Definition heap_no_column : gmap nat Image := {[ 0%nat := image_no_column ]}.

(** The 4 x 4 image with every sample raised by 5. *)
Definition image_4x4_bright : Image :=
  mkImage 4 4 [ 15;  15;  15;   25;  25;  25;   35;  35;  35;   45;  45;  45;
                55;  55;  55;   65;  65;  65;   75;  75;  75;   85;  85;  85;
                95;  95;  95;  105; 105; 105;  115; 115; 115;  125; 125; 125;
               135; 135; 135;  145; 145; 145;  155; 155; 155;  170; 170; 170].
Definition heap_4x4_bright : gmap nat Image := {[ 0%nat := image_4x4_bright ]}.

(** The 4 x 4 image with some pixels of the columns 1 to 3 made lighter
    (by 5, 7, 29 and 1) and the first three pixels of column 0 made
    black. *)
Definition image_4x4_lighter : Image :=
  mkImage 4 4 [  0;   0;   0;   25;  25;  25;   30;  30;  30;   47;  47;  47;
                 0;   0;   0;   60;  60;  60;   99;  99;  99;   80;  80;  80;
                 0;   0;   0;  100; 100; 100;  110; 110; 110;  121; 121; 121;
               130; 130; 130;  140; 140; 140;  150; 150; 150;  165; 165; 165].
Definition heap_4x4_lighter : gmap nat Image := {[ 0%nat := image_4x4_lighter ]}.

(** Memory that happens to hold, in column 0 of a table of 2 x 2 cells,
    the pixels of column 0 of the first 2 x 2 image. *)
Definition junk_2x2 (k : nat) : Z :=
  match k with
  | 0%nat => 10
  | 2%nat => 30
  | _ => 0
  end.

(* ===================================================================== *)
(** * Properties *)
(* ===================================================================== *)

(* ===================================================================== *)
(** ** Machine integers: basic facts *)
(* ===================================================================== *)

Lemma wrap_id z : in_int z -> wrap z = z.
Proof.
  unfold in_int, INT_MIN, INT_MAX, wrap. intros Hz.
  rewrite Z.mod_small by lia. lia.
Qed.

Lemma wrap_in_int z : in_int (wrap z).
Proof.
  unfold in_int, INT_MIN, INT_MAX, wrap.
  pose proof (Z.mod_pos_bound (z + 2147483648) 4294967296 ltac:(lia)). lia.
Qed.

Lemma wrap_wrap z : wrap (wrap z) = wrap z.
Proof. apply wrap_id, wrap_in_int. Qed.

Lemma wrap_decomp z : exists k, wrap z = z + k * 4294967296.
Proof.
  exists (- ((z + 2147483648) / 4294967296)). unfold wrap.
  pose proof (Z.div_mod (z + 2147483648) 4294967296 ltac:(lia)). lia.
Qed.

Lemma wrap_shift z k : wrap (z + k * 4294967296) = wrap z.
Proof.
  unfold wrap. f_equal.
  replace (z + k * 4294967296 + 2147483648) with (z + 2147483648 + k * 4294967296) by lia.
  apply Z_mod_plus_full.
Qed.

Lemma wrap_add_l a b : wrap (wrap a + b) = wrap (a + b).
Proof.
  destruct (wrap_decomp a) as [k ->].
  replace (a + k * 4294967296 + b) with (a + b + k * 4294967296) by lia.
  apply wrap_shift.
Qed.

Lemma wrap_add_r a b : wrap (a + wrap b) = wrap (a + b).
Proof. rewrite Z.add_comm, wrap_add_l. f_equal. lia. Qed.

Lemma wrap_sub_r a b : wrap (a - wrap b) = wrap (a - b).
Proof.
  destruct (wrap_decomp b) as [k ->].
  replace (a - (b + k * 4294967296)) with (a - b + (- k) * 4294967296) by lia.
  apply wrap_shift.
Qed.

Lemma in_intb_spec z : in_intb z = true <-> in_int z.
Proof. unfold in_intb, in_int. rewrite andb_true_iff, !Z.leb_le. tauto. Qed.

Lemma add_overflows_false a b : add_overflows a b = false <-> in_int (a + b).
Proof.
  unfold add_overflows. rewrite negb_false_iff. apply in_intb_spec.
Qed.

Lemma add_overflows_true a b : add_overflows a b = true <-> ~ in_int (a + b).
Proof.
  rewrite <- add_overflows_false. destruct (add_overflows a b); split; congruence.
Qed.

Lemma min_spec X Y : min X Y = Z.min X Y.
Proof. unfold min. destruct (Z.ltb_spec X Y); lia. Qed.

Lemma max_spec X Y : max X Y = Z.max X Y.
Proof. unfold max. destruct (Z.ltb_spec X Y); lia. Qed.

(** Inside an image of at most [INT_MAX] pixels the index computation of
    [idx] is exact. *)
Lemma idx_exact H W row col :
  0 <= row < H -> 0 <= col < W -> W * H <= INT_MAX ->
  idx row col W 1 = row * W + col.
Proof.
  intros Hr Hc Hsz. unfold idx, int_mul, int_add.
  assert (0 <= row * W + col < W * H) by nia.
  assert (0 <= row * W <= row * W + col) by nia.
  unfold INT_MAX in Hsz.
  rewrite (wrap_id (row * W)) by (unfold in_int, INT_MIN, INT_MAX; lia).
  rewrite (wrap_id (row * W + col)) by (unfold in_int, INT_MIN, INT_MAX; lia).
  rewrite Z.mul_1_r.
  apply wrap_id. unfold in_int, INT_MIN, INT_MAX; lia.
Qed.

(* ===================================================================== *)
(** ** Loops: unfolding and the invariant rule *)
(* ===================================================================== *)

Lemma for_loop_empty {S : Type} lo hi (body : Z -> S -> S) s :
  hi <= lo -> for_loop lo hi body s = s.
Proof.
  intros Hle. unfold for_loop.
  replace (Z.to_nat (hi - lo)) with O by lia. reflexivity.
Qed.

Lemma for_loop_last {S : Type} lo hi (body : Z -> S -> S) s :
  lo <= hi ->
  for_loop lo (hi + 1) body s = body hi (for_loop lo hi body s).
Proof.
  intros Hle. unfold for_loop.
  replace (Z.to_nat (hi + 1 - lo)) with (Datatypes.S (Z.to_nat (hi - lo))) by lia.
  rewrite seq_S, fold_left_app. simpl.
  f_equal. lia.
Qed.

(** The invariant rule: [P i] holds before iteration [i]. *)
Lemma for_loop_inv {S : Type} (P : Z -> S -> Prop) lo hi (body : Z -> S -> S) s :
  lo <= hi ->
  P lo s ->
  (forall i t, lo <= i < hi -> P i t -> P (i + 1) (body i t)) ->
  P hi (for_loop lo hi body s).
Proof.
  intros Hle Hinit Hstep.
  assert (Hgen : forall n : nat, lo + Z.of_nat n <= hi ->
             P (lo + Z.of_nat n) (for_loop lo (lo + Z.of_nat n) body s)).
  { induction n as [|n IH]; intros Hn.
    - rewrite Z.add_0_r. rewrite for_loop_empty by lia. exact Hinit.
    - replace (lo + Z.of_nat (Datatypes.S n)) with (lo + Z.of_nat n + 1) by lia.
      rewrite for_loop_last by lia.
      apply Hstep; [lia | apply IH; lia]. }
  specialize (Hgen (Z.to_nat (hi - lo))).
  replace (lo + Z.of_nat (Z.to_nat (hi - lo))) with hi in Hgen by lia.
  apply Hgen. lia.
Qed.

(** A property kept by every iteration is kept by the loop. *)
Lemma for_loop_preserves {S : Type} (P : S -> Prop) lo hi (body : Z -> S -> S) s :
  P s ->
  (forall i t, lo <= i < hi -> P t -> P (body i t)) ->
  P (for_loop lo hi body s).
Proof.
  intros Hinit Hstep.
  destruct (Z_le_gt_dec lo hi) as [Hle|Hgt].
  - apply (for_loop_inv (fun _ => P)); auto.
  - rewrite for_loop_empty by lia. exact Hinit.
Qed.

Lemma for_loop_split {S : Type} lo i hi (body : Z -> S -> S) s :
  lo <= i <= hi ->
  for_loop lo hi body s = for_loop i hi body (for_loop lo i body s).
Proof.
  intros Hi.
  assert (Hgen : forall n : nat,
            for_loop lo (i + Z.of_nat n) body s
            = for_loop i (i + Z.of_nat n) body (for_loop lo i body s)).
  { induction n as [|n IH].
    - rewrite Z.add_0_r. now rewrite (for_loop_empty i i) by lia.
    - replace (i + Z.of_nat (Datatypes.S n)) with (i + Z.of_nat n + 1) by lia.
      rewrite !for_loop_last by lia. now rewrite IH. }
  specialize (Hgen (Z.to_nat (hi - i))).
  replace (i + Z.of_nat (Z.to_nat (hi - i))) with hi in Hgen by lia.
  exact Hgen.
Qed.

(** The first iteration of a loop, then the others. *)
Lemma for_loop_first {S : Type} lo hi (body : Z -> S -> S) s :
  lo < hi ->
  for_loop lo hi body s = for_loop (lo + 1) hi body (body lo s).
Proof.
  intros Hlt. rewrite (for_loop_split lo (lo + 1) hi) by lia.
  f_equal. rewrite (for_loop_last lo lo) by lia.
  now rewrite for_loop_empty by lia.
Qed.

(* ===================================================================== *)
(** ** Arrays: reads after writes *)
(* ===================================================================== *)

Lemma length_store a i v : length (store a i v) = length a.
Proof. unfold store. destruct (i <? 0); [reflexivity | apply length_insert]. Qed.

Lemma load_store_eq a i v :
  0 <= i < Z.of_nat (length a) -> load (store a i v) i = v.
Proof.
  intros Hi. unfold load, store.
  destruct (Z.ltb_spec i 0); [lia|].
  rewrite nth_lookup, list_lookup_insert_eq by lia. reflexivity.
Qed.

Lemma load_store_ne a i j v : i <> j -> load (store a i v) j = load a j.
Proof.
  intros Hne. unfold load, store.
  destruct (Z.ltb_spec j 0); [reflexivity|].
  destruct (Z.ltb_spec i 0); [reflexivity|].
  rewrite !nth_lookup, list_lookup_insert_ne by lia. reflexivity.
Qed.

Lemma length_malloc n junk : length (malloc n junk) = Z.to_nat n.
Proof. unfold malloc. rewrite length_map, length_seq. reflexivity. Qed.

Lemma load_malloc n junk i :
  0 <= i < n -> load (malloc n junk) i = wrap (junk (Z.to_nat i)).
Proof.
  intros Hi. unfold load, malloc.
  destruct (Z.ltb_spec i 0); [lia|].
  rewrite nth_lookup, list_lookup_fmap, lookup_seq_lt by lia. reflexivity.
Qed.

(** Cell-wise reasoning about a loop whose iterations each write the cells
    they own. [obs s k] is the content of cell [k] in state [s], [val k] the
    value the loop is meant to leave in [k], and [own i k] says that
    iteration [i] writes cell [k]. *)
Section Pointwise.
Context {S K V : Type}.
Variable obs : S -> K -> V.
Variable Inv : S -> Prop.
Variable val : K -> V.
Variable own : Z -> K -> Prop.

Lemma for_loop_pointwise lo hi (body : Z -> S -> S) s0 :
  Inv s0 ->
  (forall i s, lo <= i < hi -> Inv s ->
     (forall k, touched own lo i k -> obs s k = val k) ->
     (forall k, obs s k = obs s0 k \/ touched own lo i k) ->
     Inv (body i s)
     /\ (forall k, own i k -> obs (body i s) k = val k)
     /\ (forall k, obs (body i s) k = obs s k \/ own i k)) ->
  Inv (for_loop lo hi body s0)
  /\ (forall k, touched own lo hi k -> obs (for_loop lo hi body s0) k = val k)
  /\ (forall k, obs (for_loop lo hi body s0) k = obs s0 k \/ touched own lo hi k).
Proof.
  intros Hinit Hstep.
  destruct (Z_le_gt_dec lo hi) as [Hle|Hgt].
  - assert (Hmain :
      (fun j s => Inv s
         /\ (forall k, touched own lo j k -> obs s k = val k)
         /\ (forall k, obs s k = obs s0 k \/ touched own lo j k))
        hi (for_loop lo hi body s0)).
    { apply for_loop_inv; [exact Hle | |].
      - split; [exact Hinit|]. split.
        + intros k (i & Hi & _). lia.
        + intros k. now left.
      - intros i t Hi (HI & HA & HB).
        destruct (Hstep i t Hi HI HA HB) as (HI' & Hown & Hframe).
        split; [exact HI'|]. split.
        + intros k (j & Hj & Hjk).
          destruct (Z.eq_dec j i) as [->|Hne]; [now apply Hown|].
          destruct (Hframe k) as [Heq|Ho]; [|now apply Hown].
          rewrite Heq. apply HA. exists j. split; [lia | exact Hjk].
        + intros k. destruct (Hframe k) as [Heq|Ho].
          * rewrite Heq. destruct (HB k) as [Heq0|(j & Hj & Hjk)]; [now left|].
            right. exists j. split; [lia | exact Hjk].
          * right. exists i. split; [lia | exact Ho]. }
    exact Hmain.
  - rewrite for_loop_empty by lia. split; [exact Hinit|]. split.
    + intros k (i & Hi & _). lia.
    + intros k. now left.
Qed.
End Pointwise.

(* ===================================================================== *)
(** ** The image heap: reads after writes *)
(* ===================================================================== *)

Lemma lookup_ImageSetPixel_ne (m : gmap nat Image) p x y c v q :
  q <> p -> ImageSetPixel m p x y c v !! q = m !! q.
Proof.
  intros Hne. unfold ImageSetPixel.
  destruct (m !! p) as [img|] eqn:E; [|reflexivity].
  apply lookup_insert_ne. congruence.
Qed.

Lemma lookup_ImageSetPixel_eq (m : gmap nat Image) p img x y c v :
  m !! p = Some img ->
  ImageSetPixel m p x y c v !! p
  = Some (mkImage (width img) (height img)
            (store (data img) (pixel_offset img x y c) (v mod 256))).
Proof.
  intros E. unfold ImageSetPixel. rewrite E. apply lookup_insert_eq.
Qed.

Lemma ImageGetPixel_set_eq (m : gmap nat Image) p img x y c v :
  m !! p = Some img ->
  0 <= pixel_offset img x y c < Z.of_nat (length (data img)) ->
  ImageGetPixel (ImageSetPixel m p x y c v) p x y c = v mod 256.
Proof.
  intros E Hoff. unfold ImageGetPixel.
  rewrite (lookup_ImageSetPixel_eq _ _ _ _ _ _ _ E).
  unfold pixel_offset in *. simpl.
  rewrite load_store_eq by exact Hoff.
  apply Z.mod_mod. lia.
Qed.

Lemma ImageGetPixel_set_ne (m : gmap nat Image) p img x y c v x' y' c' :
  m !! p = Some img ->
  pixel_offset img x y c <> pixel_offset img x' y' c' ->
  ImageGetPixel (ImageSetPixel m p x y c v) p x' y' c' = ImageGetPixel m p x' y' c'.
Proof.
  intros E Hoff. unfold ImageGetPixel.
  rewrite (lookup_ImageSetPixel_eq _ _ _ _ _ _ _ E), E.
  unfold pixel_offset in *. simpl.
  rewrite load_store_ne by exact Hoff. reflexivity.
Qed.

Lemma ImageGetPixel_range m p x y c : 0 <= ImageGetPixel m p x y c <= 255.
Proof.
  unfold ImageGetPixel. destruct (m !! p) as [img|]; [|lia].
  pose proof (Z.mod_pos_bound (load (data img) (pixel_offset img x y c)) 256 ltac:(lia)).
  lia.
Qed.

Lemma pixel_offset_inj img x y c x' y' c' :
  0 <= x < width img -> 0 <= x' < width img ->
  0 <= c < 3 -> 0 <= c' < 3 ->
  pixel_offset img x y c = pixel_offset img x' y' c' ->
  x = x' /\ y = y' /\ c = c'.
Proof.
  unfold pixel_offset. intros Hx Hx' Hc Hc' Heq.
  assert (Hc_eq : c = c') by lia.
  assert (Hlin : y * width img + x = y' * width img + x') by lia.
  assert (Hy : y = y') by nia.
  subst. split; [lia|]. split; [reflexivity | reflexivity].
Qed.

(** Discarding the fraction is a truncation: 7 / 2 gives 3. The quotient
    is the binary32 one, rounded to 24 bits before the fraction is
    discarded: 33601094 / 131769 = 254.9999924... is rounded to 255.0. *)
Lemma average_examples :
  average 7 2 = 3
  /\ average 33601094 131769 = 255 /\ Z.quot 33601094 131769 = 254.
Proof. vm_compute. repeat split; reflexivity. Qed.

Lemma average_range sum count : 0 <= average sum count <= 255.
Proof.
  unfold average, uchar_of_float.
  pose proof (Z.mod_pos_bound
                (float_trunc (float_div (float_of_int sum) (float_of_int count)))
                256 ltac:(lia)).
  lia.
Qed.

(* ===================================================================== *)
(** ** The division through [float] *)
(* ===================================================================== *)

(** The number of binary digits of a positive number. *)
Lemma digits2_pos_bounds (q : positive) :
  2 ^ (Zpos (digits2_pos q) - 1) <= Zpos q < 2 ^ Zpos (digits2_pos q).
Proof.
  induction q as [q IH|q IH|]; cbn [digits2_pos].
  - rewrite Pos2Z.inj_succ.
    replace (Z.succ (Zpos (digits2_pos q)) - 1) with (Z.succ (Zpos (digits2_pos q) - 1)) by lia.
    rewrite !Z.pow_succ_r by lia.
    change (Zpos q~1) with (2 * Zpos q + 1).
    generalize dependent (2 ^ (Zpos (digits2_pos q) - 1)). generalize (2 ^ Zpos (digits2_pos q)). intros; lia.
  - rewrite Pos2Z.inj_succ.
    replace (Z.succ (Zpos (digits2_pos q)) - 1) with (Z.succ (Zpos (digits2_pos q) - 1)) by lia.
    rewrite !Z.pow_succ_r by lia.
    change (Zpos q~0) with (2 * Zpos q).
    generalize dependent (2 ^ (Zpos (digits2_pos q) - 1)). generalize (2 ^ Zpos (digits2_pos q)). intros; lia.
  - cbn. lia.
Qed.

Lemma digits2_pos_eq (q : positive) (d : Z) :
  1 <= d -> 2 ^ (d - 1) <= Zpos q < 2 ^ d -> Zpos (digits2_pos q) = d.
Proof.
  intros Hd Hq. pose proof (digits2_pos_bounds q) as Hb.
  assert (H1 : Zpos (digits2_pos q) - 1 < d).
  { apply (Z.pow_lt_mono_r_iff 2); lia. }
  assert (H2 : d - 1 < Zpos (digits2_pos q)).
  { apply (Z.pow_lt_mono_r_iff 2); lia. }
  lia.
Qed.

Lemma loc_of_record_of m l : loc_of_shr_record (shr_record_of_loc m l) = l.
Proof. destruct l as [|[| |]]; reflexivity. Qed.

Lemma shr_m_record_of m l : shr_m (shr_record_of_loc m l) = m.
Proof. destruct l as [|[| |]]; reflexivity. Qed.

(** A canonical 24-bit mantissa is left as it is by the rounding. *)
Lemma binary_round_aux_canonical (m : positive) (e : Z) :
  2 ^ 23 <= Zpos m < 2 ^ 24 -> -149 <= e <= 104 ->
  binary_round_aux 24 128 false (Zpos m) e loc_Exact = S754_finite false m e.
Proof.
  intros Hm He.
  unfold binary_round_aux, shr_fexp, fexp, emin.
  cbn [Zdigits2 shr_record_of_loc].
  rewrite (digits2_pos_eq m 24) by lia.
  replace (Z.max (24 + e - 24) (3 - 128 - 24) - e) with 0 by lia.
  cbn [shr loc_of_shr_record shr_m round_nearest_even Zdigits2 shr_record_of_loc].
  rewrite (digits2_pos_eq m 24) by lia.
  replace (Z.max (24 + e - 24) (3 - 128 - 24) - e) with 0 by lia.
  cbn [shr shr_m].
  destruct (Z.leb_spec e (128 - 24)); [reflexivity | lia].
Qed.

(** Shifting a mantissa to the left multiplies it by a power of two. *)
Lemma iter_xO_pow2 (z p : positive) :
  Zpos (Pos.iter xO z p) = Zpos z * 2 ^ Zpos p.
Proof.
  induction p as [|p IH] using Pos.peano_ind.
  - cbn [Pos.iter]. change (2 ^ 1) with 2. lia.
  - rewrite Pos.iter_succ, Pos2Z.inj_succ, Z.pow_succ_r by lia.
    change (Zpos (Pos.iter xO z p)~0) with (2 * Zpos (Pos.iter xO z p)).
    rewrite IH. ring.
Qed.

(** An [int] of at most 24 bits is a float: the conversion shifts it to a
    24-bit mantissa and changes nothing else. *)
Lemma float_of_int_small (s : Z) :
  0 < s < 2 ^ 24 ->
  exists (m : positive) (k : Z),
    0 <= k <= 23 /\ Zpos m = s * 2 ^ k /\ 2 ^ 23 <= Zpos m < 2 ^ 24
    /\ float_of_int s = S754_finite false m (- k).
Proof.
  intros Hs. destruct s as [|z|z]; try lia.
  pose proof (digits2_pos_bounds z) as Hd.
  set (d := Zpos (digits2_pos z)) in *.
  assert (Hd1 : 1 <= d) by (unfold d; lia).
  assert (Hd24 : d <= 24).
  { assert (d - 1 < 24); [|lia]. apply (Z.pow_lt_mono_r_iff 2); lia. }
  assert (Hpow : 2 ^ 24 = 2 ^ d * 2 ^ (24 - d)).
  { rewrite <- Z.pow_add_r by lia. f_equal. lia. }
  assert (Hpow' : 2 ^ 23 = 2 ^ (d - 1) * 2 ^ (24 - d)).
  { rewrite <- Z.pow_add_r by lia. f_equal. lia. }
  assert (Hk : 0 < 2 ^ (24 - d)) by (apply Z.pow_pos_nonneg; lia).
  unfold float_of_int, binary_normalize, binary_round, shl_align, fexp, emin.
  fold d.
  replace (Z.max (d + 0 - 24) (3 - 128 - 24) - 0) with (- (24 - d)) by lia.
  replace (Z.max (d + 0 - 24) (3 - 128 - 24)) with (- (24 - d)) by lia.
  destruct (24 - d) as [|k|k] eqn:Ek; try lia.
  - exists z, 0. change (- 0) with 0. cbv beta iota.
    change (2 ^ 0) with 1 in *.
    assert (Hr : 2 ^ 23 <= Zpos z < 2 ^ 24) by lia.
    rewrite binary_round_aux_canonical by lia.
    repeat split; lia.
  - exists (Pos.iter xO z k), (Zpos k). change (- Zpos k) with (Zneg k). cbv beta iota.
    assert (Hm : Zpos (Pos.iter xO z k) = Zpos z * 2 ^ Zpos k) by apply iter_xO_pow2.
    assert (Hr : 2 ^ 23 <= Zpos (Pos.iter xO z k) < 2 ^ 24).
    { rewrite Hm, Hpow', Hpow. split.
      - apply Z.mul_le_mono_nonneg_r; lia.
      - apply Z.mul_lt_mono_pos_r; lia. }
    rewrite binary_round_aux_canonical by lia.
    repeat split; try lia.
Qed.

(** The integral part of a positive float with a non-positive exponent. *)
Lemma float_trunc_finite (m : positive) (e : Z) :
  e <= 0 -> float_trunc (S754_finite false m e) = Zpos m / 2 ^ (- e).
Proof.
  intros He. unfold float_trunc.
  destruct e as [|k|k]; try lia.
  - change (- 0) with 0. change (2 ^ 0) with 1. rewrite Z.div_1_r. reflexivity.
  - change (- Zneg k) with (Zpos k). apply Z.shiftr_div_pow2. lia.
Qed.

(** Division of two floats with 24-bit mantissas: the quotient of the
    mantissas is computed with 24 more bits, then rounded. *)
Lemma float_div_finite (m1 m2 : positive) (e1 e2 : Z) :
  2 ^ 23 <= Zpos m1 < 2 ^ 24 -> 2 ^ 23 <= Zpos m2 < 2 ^ 24 ->
  -125 <= e1 - e2 ->
  float_div (S754_finite false m1 e1) (S754_finite false m2 e2)
  = binary_round_aux 24 128 false
      (Zpos m1 * 2 ^ 24 / Zpos m2) (e1 - e2 - 24)
      (new_location (Zpos m2) ((Zpos m1 * 2 ^ 24) mod Zpos m2)).
Proof.
  intros H1 H2 He.
  unfold float_div, SFdiv, SFdiv_core_binary, fexp, emin.
  cbn [Zdigits2 xorb].
  rewrite (digits2_pos_eq m1 24), (digits2_pos_eq m2 24) by lia.
  replace (Z.min (Z.max (24 + e1 - (24 + e2) - 24) (3 - 128 - 24)) (e1 - e2))
    with (e1 - e2 - 24) by lia.
  replace (e1 - e2 - (e1 - e2 - 24)) with 24 by lia.
  cbv beta iota zeta.
  rewrite Z.shiftl_mul_pow2 by lia.
  unfold Z.div, Z.modulo.
  destruct (Z.div_eucl (Zpos m1 * 2 ^ 24) (Zpos m2)) as [q r].
  reflexivity.
Qed.

Lemma rne_cases (m : Z) (l : location) :
  round_nearest_even m l = m
  \/ (round_nearest_even m l = m + 1
      /\ (l = loc_Inexact Eq \/ l = loc_Inexact Gt)).
Proof.
  destruct l as [|[| |]]; cbn [round_nearest_even]; auto.
  destruct (Z.even m); auto.
Qed.

(** Rounding a 24-bit mantissa: it is kept or incremented. *)
Lemma binary_round_aux_24 (q : positive) (e : Z) (l : location) :
  2 ^ 23 <= Zpos q < 2 ^ 24 -> -149 <= e <= 103 ->
  binary_round_aux 24 128 false (Zpos q) e l
  = if round_nearest_even (Zpos q) l <? 2 ^ 24
    then S754_finite false (Z.to_pos (round_nearest_even (Zpos q) l)) e
    else S754_finite false 8388608 (e + 1).
Proof.
  intros Hq He.
  unfold binary_round_aux, shr_fexp, fexp, emin.
  cbn [Zdigits2].
  rewrite (digits2_pos_eq q 24) by lia.
  replace (Z.max (24 + e - 24) (3 - 128 - 24) - e) with 0 by lia.
  cbn [shr]. rewrite loc_of_record_of, shr_m_record_of.
  pose proof (rne_cases (Zpos q) l) as Hm.
  destruct (round_nearest_even (Zpos q) l) as [|m|m] eqn:Em; try lia.
  destruct (Z.ltb_spec (Zpos m) (2 ^ 24)) as [Hlt|Hge].
  - cbn [Zdigits2 shr_record_of_loc].
    rewrite (digits2_pos_eq m 24) by lia.
    replace (Z.max (24 + e - 24) (3 - 128 - 24) - e) with 0 by lia.
    cbn [shr shr_m Z.to_pos].
    destruct (Z.leb_spec e (128 - 24)); [reflexivity | lia].
  - assert (Hm24 : m = 16777216%positive) by lia.
    subst m.
    change (Zdigits2 (Zpos 16777216)) with 25.
    replace (Z.max (25 + e - 24) (3 - 128 - 24) - e) with 1 by lia.
    cbn [shr SpecFloat.iter_pos shr_record_of_loc shr_1 shr_m].
    destruct (Z.leb_spec (e + 1) (128 - 24)); [reflexivity | lia].
Qed.

Lemma half_xO (p : positive) : Zpos p~0 / 2 = Zpos p.
Proof.
  change (Zpos p~0) with (2 * Zpos p).
  rewrite Z.mul_comm. apply Z.div_mul. lia.
Qed.

Lemma half_xI (p : positive) : Zpos p~1 / 2 = Zpos p.
Proof.
  change (Zpos p~1) with (2 * Zpos p + 1).
  symmetry. apply (Z.div_unique _ _ _ 1); lia.
Qed.

(** One step of right shift: the mantissa is halved, and the location is
    at or above the middle only when the bit shifted out is 1. *)
Lemma shr_1_mantissa (q : positive) (l : location) :
  2 <= Zpos q ->
  shr_m (shr_1 (shr_record_of_loc (Zpos q) l)) = Zpos q / 2.
Proof.
  intros Hq.
  destruct q as [p|p|]; try lia;
    rewrite ?half_xO, ?half_xI; destruct l as [|[| |]]; reflexivity.
Qed.

Lemma shr_1_location (q : positive) (l : location) :
  2 <= Zpos q ->
  loc_of_shr_record (shr_1 (shr_record_of_loc (Zpos q) l)) = loc_Inexact Eq
  \/ loc_of_shr_record (shr_1 (shr_record_of_loc (Zpos q) l)) = loc_Inexact Gt ->
  Zpos q = 2 * (Zpos q / 2) + 1.
Proof.
  intros Hq.
  destruct q as [p|p|]; try lia.
  - rewrite half_xI. intros _. reflexivity.
  - destruct l as [|[| |]]; cbn; intros [H|H]; discriminate.
Qed.

(** Rounding a 25-bit mantissa: one bit is shifted out first. *)
Lemma binary_round_aux_25 (q : positive) (e : Z) (l : location) :
  2 ^ 24 <= Zpos q < 2 ^ 25 -> -149 <= e <= 102 ->
  binary_round_aux 24 128 false (Zpos q) e l
  = if round_nearest_even (Zpos q / 2)
         (loc_of_shr_record (shr_1 (shr_record_of_loc (Zpos q) l))) <? 2 ^ 24
    then S754_finite false
           (Z.to_pos (round_nearest_even (Zpos q / 2)
              (loc_of_shr_record (shr_1 (shr_record_of_loc (Zpos q) l)))))
           (e + 1)
    else S754_finite false 8388608 (e + 2).
Proof.
  intros Hq He.
  assert (Hhalf : 2 ^ 23 <= Zpos q / 2 < 2 ^ 24).
  { split.
    - apply Z.div_le_lower_bound; lia.
    - apply Z.div_lt_upper_bound; lia. }
  unfold binary_round_aux, shr_fexp, fexp, emin.
  cbn [Zdigits2].
  rewrite (digits2_pos_eq q 25) by lia.
  replace (Z.max (25 + e - 24) (3 - 128 - 24) - e) with 1 by lia.
  cbn [shr SpecFloat.iter_pos]. rewrite shr_1_mantissa by lia.
  set (l' := loc_of_shr_record (shr_1 (shr_record_of_loc (Zpos q) l))).
  pose proof (rne_cases (Zpos q / 2) l') as Hm.
  destruct (round_nearest_even (Zpos q / 2) l') as [|m|m] eqn:Em; try lia.
  destruct (Z.ltb_spec (Zpos m) (2 ^ 24)) as [Hlt|Hge].
  - cbn [Zdigits2 shr_record_of_loc].
    rewrite (digits2_pos_eq m 24) by lia.
    replace (Z.max (24 + (e + 1) - 24) (3 - 128 - 24) - (e + 1)) with 0 by lia.
    cbn [shr shr_m Z.to_pos].
    destruct (Z.leb_spec (e + 1) (128 - 24)); [reflexivity | lia].
  - assert (Hm24 : m = 16777216%positive) by lia.
    subst m.
    change (Zdigits2 (Zpos 16777216)) with 25.
    replace (Z.max (25 + (e + 1) - 24) (3 - 128 - 24) - (e + 1)) with 1 by lia.
    cbn [shr SpecFloat.iter_pos shr_record_of_loc shr_1 shr_m].
    replace (e + 1 + 1) with (e + 2) by lia.
    destruct (Z.leb_spec (e + 2) (128 - 24)); [reflexivity | lia].
Qed.

(** Incrementing a number changes its quotient by [T] only when a
    multiple of [T] is reached. *)
Lemma div_succ_same (q T : Z) :
  0 < T -> (q + 1) mod T <> 0 -> (q + 1) / T = q / T.
Proof.
  intros HT Hne.
  pose proof (Z.div_mod (q + 1) T ltac:(lia)) as Hdm.
  pose proof (Z.mod_pos_bound (q + 1) T HT) as Hb.
  apply (Z.div_unique _ _ _ ((q + 1) mod T - 1)); lia.
Qed.

Lemma pow2_pos (k : Z) : 0 <= k -> 0 < 2 ^ k.
Proof. intros Hk. apply Z.pow_pos_nonneg; lia. Qed.

Lemma pow2_succ (k : Z) : 0 <= k -> 2 ^ (k + 1) = 2 * 2 ^ k.
Proof. intros Hk. rewrite Z.pow_add_r by lia. change (2 ^ 1) with 2. ring. Qed.

(** The integral part of the rounded quotient, 24-bit case. *)
Lemma trunc_round_24 (q : positive) (e : Z) (l : location) :
  2 ^ 23 <= Zpos q < 2 ^ 24 -> -149 <= e <= -1 ->
  (Zpos q + 1) mod 2 ^ (- e) <> 0 ->
  float_trunc (binary_round_aux 24 128 false (Zpos q) e l) = Zpos q / 2 ^ (- e).
Proof.
  intros Hq He Hne.
  assert (HT : 0 < 2 ^ (- e)) by (apply pow2_pos; lia).
  rewrite binary_round_aux_24 by lia.
  destruct (rne_cases (Zpos q) l) as [Hm|[Hm _]]; rewrite Hm.
  - destruct (Z.ltb_spec (Zpos q) (2 ^ 24)); try lia.
    rewrite float_trunc_finite by lia. reflexivity.
  - rewrite <- (div_succ_same (Zpos q) (2 ^ (- e))) by assumption.
    destruct (Z.ltb_spec (Zpos q + 1) (2 ^ 24)) as [Hlt|Hge].
    + rewrite float_trunc_finite by lia. rewrite Z2Pos.id by lia. reflexivity.
    + rewrite float_trunc_finite by lia.
      replace (Zpos q + 1) with (2 * 2 ^ 23) by lia.
      replace (- e) with (- (e + 1) + 1) by lia.
      rewrite pow2_succ by lia.
      rewrite Z.div_mul_cancel_l by (pose proof (pow2_pos (- (e + 1))); lia).
      reflexivity.
Qed.

(** The integral part of the rounded quotient, 25-bit case. *)
Lemma trunc_round_25 (q : positive) (e : Z) (l : location) :
  2 ^ 24 <= Zpos q < 2 ^ 25 -> -149 <= e <= -1 ->
  (Zpos q = 2 * (Zpos q / 2) + 1 -> (Zpos q / 2 + 1) mod 2 ^ (- e - 1) <> 0) ->
  float_trunc (binary_round_aux 24 128 false (Zpos q) e l) = Zpos q / 2 ^ (- e).
Proof.
  intros Hq He Hne.
  assert (HT : 0 < 2 ^ (- e - 1)) by (apply pow2_pos; lia).
  assert (Hhalf : 2 ^ 23 <= Zpos q / 2 < 2 ^ 24).
  { split.
    - apply Z.div_le_lower_bound; lia.
    - apply Z.div_lt_upper_bound; lia. }
  assert (Hdd : Zpos q / 2 ^ (- e) = Zpos q / 2 / 2 ^ (- e - 1)).
  { replace (- e) with (- e - 1 + 1) at 1 by lia.
    rewrite pow2_succ by lia. rewrite Z.div_div by lia. reflexivity. }
  rewrite Hdd.
  rewrite binary_round_aux_25 by lia.
  set (l' := loc_of_shr_record (shr_1 (shr_record_of_loc (Zpos q) l))).
  destruct (rne_cases (Zpos q / 2) l') as [Hm|[Hm Hl']]; rewrite Hm.
  - destruct (Z.ltb_spec (Zpos q / 2) (2 ^ 24)); try lia.
    rewrite float_trunc_finite by lia. rewrite Z2Pos.id by lia.
    f_equal. f_equal. lia.
  - apply shr_1_location in Hl'; [|lia].
    specialize (Hne Hl').
    rewrite <- (div_succ_same (Zpos q / 2) (2 ^ (- e - 1))) by assumption.
    destruct (Z.ltb_spec (Zpos q / 2 + 1) (2 ^ 24)) as [Hlt|Hge].
    + rewrite float_trunc_finite by lia. rewrite Z2Pos.id by lia.
      f_equal. f_equal. lia.
    + destruct (Z.eq_dec e (-1)) as [->|He1].
      { exfalso. apply Hne. change (2 ^ (- -1 - 1)) with 1. apply Z.mod_1_r. }
      rewrite float_trunc_finite by lia.
      replace (Zpos q / 2 + 1) with (2 * 2 ^ 23) by lia.
      replace (- e - 1) with (- (e + 2) + 1) by lia.
      rewrite pow2_succ by lia.
      rewrite Z.div_mul_cancel_l by (pose proof (pow2_pos (- (e + 2))); lia).
      reflexivity.
Qed.

(** The quotient of [s * T * B] by [p * B] is never one below a multiple
    of [T] when [p * B < T * B]: rounding it up cannot reach the next
    integer. *)
Lemma quotient_succ_not_multiple (s p T B : Z) :
  0 < p -> 0 < T -> 0 < B -> p * B < T * B ->
  (s * (T * B) / (p * B) + 1) mod T <> 0.
Proof.
  intros Hp HT HB Hlt Hmod.
  set (N := s * (T * B)) in *. set (m2 := p * B) in *.
  assert (Hm2 : 0 < m2) by (unfold m2; apply Z.mul_pos_pos; lia).
  pose proof (Z.div_mod N m2 ltac:(lia)) as Hdm.
  pose proof (Z.mod_pos_bound N m2 Hm2) as Hr.
  apply Z.div_exact in Hmod; [|lia].
  set (q := N / m2) in *. set (r := N mod m2) in *.
  set (i := (q + 1) / T) in *.
  assert (Heq : m2 - r = T * B * (p * i - s)).
  { replace r with (N - m2 * q) by lia.
    replace q with (T * i - 1) by lia.
    unfold N, m2. ring. }
  destruct (Z_le_gt_dec (p * i - s) 0) as [Hle|Hgt].
  - assert (T * B * (p * i - s) <= 0); [|lia].
    apply Z.mul_nonneg_nonpos; [apply Z.mul_nonneg_nonneg|]; lia.
  - assert (T * B * 1 <= T * B * (p * i - s)); [|lia].
    apply Z.mul_le_mono_nonneg_l; [apply Z.mul_nonneg_nonneg|]; lia.
Qed.

Lemma quotient_of_scaled (s p T B : Z) :
  0 < p -> 0 < T -> 0 < B ->
  s * (T * B) / (p * B) / T = s / p.
Proof.
  intros Hp HT HB.
  rewrite Z.div_div by (try apply Z.mul_pos_pos; lia).
  replace (s * (T * B)) with (s * (B * T)) by ring.
  replace (p * B * T) with (p * (B * T)) by ring.
  apply Z.div_mul_cancel_r; [lia|].
  assert (0 < B * T) by (apply Z.mul_pos_pos; lia). lia.
Qed.

(** Below 2^24 the division through [float] is the integer division:
    both conversions are exact and the rounding of the quotient never
    reaches the next integer. *)
Lemma float_quotient_exact (s p : Z) :
  0 <= s < 2 ^ 24 -> 0 < p < 2 ^ 24 ->
  float_trunc (float_div (float_of_int s) (float_of_int p)) = s / p.
Proof.
  intros Hs Hp.
  destruct (float_of_int_small p Hp) as (m2 & k2 & Hk2 & Hm2 & Hr2 & ->).
  destruct (Z.eq_dec s 0) as [->|Hs0].
  { rewrite Z.div_0_l by lia. reflexivity. }
  destruct (float_of_int_small s ltac:(lia)) as (m1 & k1 & Hk1 & Hm1 & Hr1 & ->).
  rewrite float_div_finite by lia.
  set (K := 24 + k1 - k2).
  assert (HK : 1 <= K <= 47) by (unfold K; lia).
  replace (- k1 - - k2 - 24) with (- K) by (unfold K; lia).
  assert (HB : 0 < 2 ^ k2) by (apply pow2_pos; lia).
  assert (HT : 0 < 2 ^ K) by (apply pow2_pos; lia).
  assert (HTB : 2 ^ K * 2 ^ k2 = 2 ^ k1 * 2 ^ 24).
  { rewrite <- !Z.pow_add_r by lia. f_equal. unfold K. lia. }
  assert (HA : 1 <= 2 ^ k1) by (pose proof (pow2_pos k1); lia).
  assert (HN : Zpos m1 * 2 ^ 24 = s * (2 ^ K * 2 ^ k2)).
  { rewrite Hm1, HTB. ring. }
  assert (Hlt : p * 2 ^ k2 < 2 ^ K * 2 ^ k2).
  { rewrite HTB, <- Hm2.
    assert (1 * 2 ^ 24 <= 2 ^ k1 * 2 ^ 24) by (apply Z.mul_le_mono_nonneg_r; lia).
    lia. }
  pose proof (quotient_succ_not_multiple s p (2 ^ K) (2 ^ k2)
                ltac:(lia) HT HB Hlt) as Hcross.
  pose proof (quotient_of_scaled s p (2 ^ K) (2 ^ k2) ltac:(lia) HT HB) as Hquot.
  rewrite <- HN, <- Hm2 in Hcross, Hquot.
  set (q := Zpos m1 * 2 ^ 24 / Zpos m2) in *.
  assert (Hq : 2 ^ 23 <= q < 2 ^ 25).
  { unfold q. split.
    - apply Z.div_le_lower_bound; lia.
    - apply Z.div_lt_upper_bound; lia. }
  destruct q as [|qp|qp] eqn:Eqq; try lia.
  rewrite <- Hquot.
  destruct (Z_lt_ge_dec (Zpos qp) (2 ^ 24)) as [H24|H25].
  - rewrite trunc_round_24; rewrite ?Z.opp_involutive; lia.
  - rewrite trunc_round_25; rewrite ?Z.opp_involutive; try lia.
    intros Hodd Hmod.
    apply Hcross.
    assert (HT' : 0 < 2 ^ (K - 1)) by (apply pow2_pos; lia).
    apply Z.div_exact in Hmod; [|lia].
    apply Z.div_exact; [lia|].
    set (i := (Zpos qp / 2 + 1) / 2 ^ (K - 1)) in *.
    assert (HI : Zpos qp + 1 = 2 ^ K * i).
    { replace K with (K - 1 + 1) at 1 by lia.
      rewrite pow2_succ by lia. lia. }
    rewrite HI. f_equal. symmetry.
    rewrite Z.mul_comm. apply Z.div_mul. lia.
Qed.

(** A right shift halves any non-negative mantissa. *)
Lemma shr_1_mantissa_any (mrs : shr_record) :
  0 <= shr_m mrs -> shr_m (shr_1 mrs) = shr_m mrs / 2.
Proof.
  destruct mrs as [m r s]. cbn [shr_m]. intros Hm.
  destruct m as [|[p|p|]|]; try lia; cbn [shr_1 shr_m];
    rewrite ?half_xO, ?half_xI; reflexivity.
Qed.

(** [n] steps of right shift divide the mantissa by [2^n]. *)
Lemma iter_shr_1_mantissa (n : positive) (mrs : shr_record) :
  0 <= shr_m mrs ->
  shr_m (SpecFloat.iter_pos shr_1 n mrs) = shr_m mrs / 2 ^ Zpos n.
Proof.
  revert mrs. induction n as [n IH|n IH|]; intros mrs Hm; cbn [SpecFloat.iter_pos].
  - assert (HP : 0 < 2 ^ Zpos n) by (apply pow2_pos; lia).
    assert (H1 : 0 <= shr_m (shr_1 mrs))
      by (rewrite shr_1_mantissa_any by lia; apply Z.div_pos; lia).
    assert (H2 : 0 <= shr_m (SpecFloat.iter_pos shr_1 n (shr_1 mrs)))
      by (rewrite IH by lia; apply Z.div_pos; lia).
    rewrite IH, IH, shr_1_mantissa_any by lia.
    rewrite !Z.div_div by lia.
    f_equal. replace (Zpos n~1) with (1 + (Zpos n + Zpos n)) by lia.
    rewrite !Z.pow_add_r by lia. reflexivity.
  - assert (HP : 0 < 2 ^ Zpos n) by (apply pow2_pos; lia).
    assert (H2 : 0 <= shr_m (SpecFloat.iter_pos shr_1 n mrs))
      by (rewrite IH by lia; apply Z.div_pos; lia).
    rewrite IH, IH by lia.
    rewrite !Z.div_div by lia.
    f_equal. replace (Zpos n~0) with (Zpos n + Zpos n) by lia.
    rewrite !Z.pow_add_r by lia. reflexivity.
  - apply shr_1_mantissa_any. exact Hm.
Qed.

(** An [int] of 25 to 31 bits is rounded to a 24-bit mantissa: the float
    exceeds it by a factor of at most [1 + 2^-23]. *)
Lemma float_of_int_large (s : Z) :
  2 ^ 24 <= s < 2 ^ 31 ->
  exists (m : positive) (e : Z),
    1 <= e <= 8 /\ 2 ^ 23 <= Zpos m < 2 ^ 24
    /\ Zpos m * 2 ^ e * 2 ^ 23 <= s * (2 ^ 23 + 1)
    /\ float_of_int s = S754_finite false m e.
Proof.
  intros Hs. destruct s as [|z|z]; try lia.
  pose proof (digits2_pos_bounds z) as Hd.
  set (d := Zpos (digits2_pos z)) in *.
  assert (Hd25 : 25 <= d).
  { assert (24 < d); [|lia]. apply (Z.pow_lt_mono_r_iff 2); lia. }
  assert (Hd31 : d <= 31).
  { assert (d - 1 < 31); [|lia]. apply (Z.pow_lt_mono_r_iff 2); lia. }
  assert (Hn : exists n : positive, d - 24 = Zpos n).
  { destruct (d - 24) as [|n|n] eqn:En; try lia. now exists n. }
  destruct Hn as (n & Hn).
  assert (HP : 0 < 2 ^ Zpos n) by (apply pow2_pos; lia).
  assert (Hlow : 2 ^ (d - 1) = 2 ^ 23 * 2 ^ Zpos n).
  { rewrite <- Z.pow_add_r by lia. f_equal. lia. }
  assert (Hhigh : 2 ^ d = 2 ^ 24 * 2 ^ Zpos n).
  { rewrite <- Z.pow_add_r by lia. f_equal. lia. }
  set (h := Zpos z / 2 ^ Zpos n).
  assert (Hh : 2 ^ 23 <= h < 2 ^ 24).
  { unfold h. split.
    - apply Z.div_le_lower_bound; lia.
    - apply Z.div_lt_upper_bound; lia. }
  assert (Hhz : h * 2 ^ Zpos n <= Zpos z).
  { unfold h. rewrite Z.mul_comm. apply Z.mul_div_le. lia. }
  unfold float_of_int, binary_normalize, binary_round, shl_align, fexp, emin.
  fold d.
  replace (Z.max (d + 0 - 24) (3 - 128 - 24) - 0) with (Zpos n) by lia.
  cbv beta iota.
  unfold binary_round_aux, shr_fexp, fexp, emin.
  cbn [Zdigits2]. fold d.
  replace (Z.max (d + 0 - 24) (3 - 128 - 24) - 0) with (Zpos n) by lia.
  cbn [shr].
  rewrite iter_shr_1_mantissa by (cbn [shr_record_of_loc shr_m]; lia).
  cbn [shr_record_of_loc shr_m]. fold h.
  set (l := loc_of_shr_record _).
  pose proof (rne_cases h l) as Hm.
  destruct (round_nearest_even h l) as [|m|m] eqn:Em; try lia.
  assert (Hmle : Zpos m <= h + 1) by lia.
  assert (Hval : Zpos m * 2 ^ Zpos n * 2 ^ 23 <= Zpos z * (2 ^ 23 + 1)).
  { assert (Zpos m * 2 ^ Zpos n <= (h + 1) * 2 ^ Zpos n)
      by (apply Z.mul_le_mono_nonneg_r; lia).
    lia. }
  destruct (Z_lt_ge_dec (Zpos m) (2 ^ 24)) as [Hlt|Hge].
  - exists m, (Zpos n).
    cbn [Zdigits2 shr_record_of_loc].
    rewrite (digits2_pos_eq m 24) by lia.
    replace (Z.max (24 + (0 + Zpos n) - 24) (3 - 128 - 24) - (0 + Zpos n))
      with 0 by lia.
    cbn [shr shr_m].
    destruct (Z.leb_spec (0 + Zpos n) (128 - 24)); [|lia].
    repeat split; try lia.
  - assert (Hm24 : m = 16777216%positive) by lia.
    subst m. exists 8388608%positive, (Zpos n + 1).
    change (Zdigits2 (Zpos 16777216)) with 25.
    replace (Z.max (25 + (0 + Zpos n) - 24) (3 - 128 - 24) - (0 + Zpos n))
      with 1 by lia.
    cbn [shr SpecFloat.iter_pos shr_record_of_loc shr_1 shr_m].
    destruct (Z.leb_spec (0 + Zpos n + 1) (128 - 24)); [|lia].
    repeat split; try lia.
    rewrite pow2_succ by lia. lia.
Qed.

(** Halving commutes with adding 2. *)
Lemma half_succ (q : Z) : (q + 2) / 2 = q / 2 + 1.
Proof.
  replace (q + 2) with (q + 1 * 2) by lia. apply Z.div_add. lia.
Qed.

(** The integral part of the rounded quotient is at most that of the
    quotient plus two units of its last place. *)
Lemma trunc_round_le (q : positive) (e : Z) (l : location) :
  2 ^ 23 <= Zpos q < 2 ^ 25 -> -149 <= e <= -1 ->
  0 <= float_trunc (binary_round_aux 24 128 false (Zpos q) e l)
    <= (Zpos q + 2) / 2 ^ (- e).
Proof.
  intros Hq He.
  assert (HT : 0 < 2 ^ (- e)) by (apply pow2_pos; lia).
  assert (HT1 : 0 < 2 ^ (- (e + 1))) by (apply pow2_pos; lia).
  assert (HTT : 2 ^ (- e) = 2 * 2 ^ (- (e + 1))).
  { replace (- e) with (- (e + 1) + 1) by lia. apply pow2_succ. lia. }
  destruct (Z_lt_ge_dec (Zpos q) (2 ^ 24)) as [H24|H25].
  - rewrite binary_round_aux_24 by lia.
    assert (Hm : Zpos q <= round_nearest_even (Zpos q) l <= Zpos q + 1)
      by (destruct (rne_cases (Zpos q) l) as [->|[-> _]]; lia).
    destruct (Z.ltb_spec (round_nearest_even (Zpos q) l) (2 ^ 24)) as [Hlt|Hge].
    + rewrite float_trunc_finite by lia. rewrite Z2Pos.id by lia. split.
      * apply Z.div_pos; lia.
      * apply Z.div_le_mono; lia.
    + rewrite float_trunc_finite by lia. split.
      * apply Z.div_pos; lia.
      * rewrite HTT.
        rewrite <- (Z.div_mul_cancel_l (Zpos 8388608) (2 ^ (- (e + 1))) 2) by lia.
        apply Z.div_le_mono; lia.
  - assert (Hhalf : 2 ^ 23 <= Zpos q / 2 < 2 ^ 24).
    { split.
      - apply Z.div_le_lower_bound; lia.
      - apply Z.div_lt_upper_bound; lia. }
    rewrite binary_round_aux_25 by lia.
    set (l' := loc_of_shr_record (shr_1 (shr_record_of_loc (Zpos q) l))).
    assert (Hm : Zpos q / 2 <= round_nearest_even (Zpos q / 2) l' <= Zpos q / 2 + 1)
      by (destruct (rne_cases (Zpos q / 2) l') as [->|[-> _]]; lia).
    rewrite HTT, <- Z.div_div, half_succ by lia.
    destruct (Z.ltb_spec (round_nearest_even (Zpos q / 2) l') (2 ^ 24)) as [Hlt|Hge].
    + rewrite float_trunc_finite by lia. rewrite Z2Pos.id by lia. split.
      * apply Z.div_pos; lia.
      * apply Z.div_le_mono; lia.
    + destruct (Z.eq_dec e (-1)) as [->|He1].
      * change (2 ^ (- (-1 + 1))) with 1. rewrite Z.div_1_r.
        change (float_trunc (S754_finite false 8388608 (-1 + 2))) with (2 ^ 24).
        lia.
      * assert (HT2 : 0 < 2 ^ (- (e + 2))) by (apply pow2_pos; lia).
        assert (HTT2 : 2 ^ (- (e + 1)) = 2 * 2 ^ (- (e + 2))).
        { replace (- (e + 1)) with (- (e + 2) + 1) by lia. apply pow2_succ. lia. }
        rewrite float_trunc_finite by lia. split.
        -- apply Z.div_pos; lia.
        -- rewrite HTT2.
           rewrite <- (Z.div_mul_cancel_l (Zpos 8388608) (2 ^ (- (e + 2))) 2) by lia.
           apply Z.div_le_mono; lia.
Qed.

(** The arithmetic behind the range of the output: when the dividend
    exceeds [s <= 255 * p] by a factor of at most [1 + 2^-23], its quotient
    by [p], scaled by [T >= 2^8], stays two units below [256 * T]. *)
Lemma quotient_below_256 (s p m1 q T E B : Z) :
  0 < p -> 0 <= s <= 255 * p ->
  0 < T -> 0 < E -> 0 < B -> E * B <= 2 ^ 16 -> T * (E * B) = 2 ^ 24 ->
  0 <= m1 -> m1 * E * 2 ^ 23 <= s * (2 ^ 23 + 1) ->
  q * (p * B) <= m1 * 2 ^ 24 ->
  q + 2 < T * 256.
Proof.
  intros Hp Hs HT HE HB HEB HTEB Hm1 Hval Hq.
  destruct (Z_lt_ge_dec (q + 2) (T * 256)) as [Hlt|Hge]; [exact Hlt | exfalso].
  assert (HpB : 0 < p * B) by (apply Z.mul_pos_pos; lia).
  assert (H1 : (256 * T - 2) * (p * B) <= m1 * 2 ^ 24).
  { assert ((256 * T - 2) * (p * B) <= q * (p * B))
      by (apply Z.mul_le_mono_nonneg_r; lia).
    lia. }
  assert (H2 : (256 * T - 2) * (p * B) * (E * 2 ^ 23) <= m1 * 2 ^ 24 * (E * 2 ^ 23)).
  { apply Z.mul_le_mono_nonneg_r; [|exact H1].
    apply Z.mul_nonneg_nonneg; lia. }
  assert (H3 : m1 * 2 ^ 24 * (E * 2 ^ 23) = m1 * E * 2 ^ 23 * 2 ^ 24) by ring.
  assert (H4 : m1 * E * 2 ^ 23 * 2 ^ 24 <= s * (2 ^ 23 + 1) * 2 ^ 24)
    by (apply Z.mul_le_mono_nonneg_r; lia).
  assert (H5 : (256 * T - 2) * (p * B) * (E * 2 ^ 23)
               = 256 * (T * (E * B)) * p * 2 ^ 23 - 2 * (E * B * p) * 2 ^ 23) by ring.
  assert (H6 : E * B * p <= 2 ^ 16 * p)
    by (apply Z.mul_le_mono_nonneg_r; lia).
  rewrite HTEB in H5.
  lia.
Qed.

(** The range of the output. For a count below [2^24] and a sum of at
    most [255 * count] that is an [int], the integral part of the [float]
    quotient is in 0..255: the conversion to [unsigned char] is defined. *)
Lemma float_quotient_in_range (s p : Z) :
  0 < p < 2 ^ 24 -> 0 <= s <= 255 * p -> s < 2 ^ 31 ->
  0 <= float_trunc (float_div (float_of_int s) (float_of_int p)) <= 255.
Proof.
  intros Hp Hs Hint.
  destruct (Z_lt_ge_dec s (2 ^ 24)) as [Hsmall|Hlarge].
  { rewrite float_quotient_exact by lia. split.
    - apply Z.div_pos; lia.
    - assert (s / p < 256); [|lia]. apply Z.div_lt_upper_bound; lia. }
  destruct (float_of_int_large s ltac:(lia)) as (m1 & e1 & He1 & Hr1 & Hval & ->).
  destruct (float_of_int_small p Hp) as (m2 & k2 & Hk2 & Hm2 & Hr2 & ->).
  assert (HB : 0 < 2 ^ k2) by (apply pow2_pos; lia).
  assert (HE : 0 < 2 ^ e1) by (apply pow2_pos; lia).
  assert (HB8 : 2 ^ k2 < 2 ^ 8).
  { destruct (Z_lt_ge_dec (2 ^ k2) (2 ^ 8)) as [Hlt|Hge]; [exact Hlt | exfalso].
    assert (p * 2 ^ 8 <= p * 2 ^ k2) by (apply Z.mul_le_mono_nonneg_l; lia).
    lia. }
  assert (Hk7 : k2 < 8) by (apply (Z.pow_lt_mono_r_iff 2); lia).
  assert (HE8 : 2 ^ e1 <= 2 ^ 8) by (apply Z.pow_le_mono_r; lia).
  rewrite float_div_finite by lia.
  set (K := 24 - e1 - k2).
  assert (HK : 9 <= K <= 23) by (unfold K; lia).
  replace (e1 - - k2 - 24) with (- K) by (unfold K; lia).
  assert (HT : 0 < 2 ^ K) by (apply pow2_pos; lia).
  assert (HTEB : 2 ^ K * (2 ^ e1 * 2 ^ k2) = 2 ^ 24).
  { rewrite <- !Z.pow_add_r by lia. f_equal. unfold K. lia. }
  assert (HEB : 2 ^ e1 * 2 ^ k2 <= 2 ^ 16).
  { change (2 ^ 16) with (2 ^ 8 * 2 ^ 8). apply Z.mul_le_mono_nonneg; lia. }
  set (q := Zpos m1 * 2 ^ 24 / Zpos m2).
  assert (Hq : 2 ^ 23 <= q < 2 ^ 25).
  { unfold q. split.
    - apply Z.div_le_lower_bound; lia.
    - apply Z.div_lt_upper_bound; lia. }
  assert (Hqm : q * (p * 2 ^ k2) <= Zpos m1 * 2 ^ 24).
  { rewrite <- Hm2. unfold q. rewrite Z.mul_comm. apply Z.mul_div_le. lia. }
  pose proof (quotient_below_256 s p (Zpos m1) q (2 ^ K) (2 ^ e1) (2 ^ k2)
                ltac:(lia) Hs HT HE HB HEB HTEB ltac:(lia) Hval Hqm) as Hbelow.
  destruct q as [|qp|qp] eqn:Eqq; try lia.
  pose proof (trunc_round_le qp (- K)
                (new_location (Zpos m2) ((Zpos m1 * 2 ^ 24) mod Zpos m2))
                ltac:(lia) ltac:(lia)) as Hle.
  rewrite Z.opp_involutive in Hle.
  assert ((Zpos qp + 2) / 2 ^ K < 256) by (apply Z.div_lt_upper_bound; lia).
  lia.
Qed.

(** The average of a sum of at most [255 * count], for a count below
    [2^24 / 255], is the integer quotient: the conversion to
    [unsigned char] reduces nothing. *)
Lemma average_exact (sum count : Z) :
  0 < count -> 0 <= sum <= 255 * count -> 255 * count < 2 ^ 24 ->
  average sum count = sum / count.
Proof.
  intros Hc Hs Hsmall. unfold average, uchar_of_float.
  rewrite float_quotient_exact by lia.
  apply Z.mod_small. split.
  - apply Z.div_pos; lia.
  - apply Z.div_lt_upper_bound; lia.
Qed.

(** For a count below [2^24] and a sum of at most [255 * count] that is an
    [int], the value written is the integral part of the [float]
    quotient. *)
Lemma average_defined (sum count : Z) :
  0 < count < 2 ^ 24 -> 0 <= sum <= 255 * count -> sum < 2 ^ 31 ->
  average sum count
  = float_trunc (float_div (float_of_int sum) (float_of_int count)).
Proof.
  intros Hc Hs Hint. unfold average, uchar_of_float.
  pose proof (float_quotient_in_range sum count Hc Hs Hint).
  apply Z.mod_small. lia.
Qed.

(** Rounding does not look at the sign: the sign is attached to the result. *)
Lemma binary_round_aux_sign sx mx ex lx :
  binary_round_aux 24 128 (negb sx) mx ex lx
  = SFopp (binary_round_aux 24 128 sx mx ex lx).
Proof.
  unfold binary_round_aux.
  destruct (shr_fexp 24 128 mx ex lx) as [mrs' e'].
  destruct (shr_fexp 24 128 (round_nearest_even (shr_m mrs') (loc_of_shr_record mrs'))
              e' loc_Exact) as [mrs'' e''].
  destruct (shr_m mrs'') as [|q|q]; [reflexivity| |reflexivity].
  destruct (e'' <=? 128 - 24); reflexivity.
Qed.

(** [(float)(-z)] is [-(float) z]. *)
Lemma float_of_int_opp (z : Z) :
  0 < z -> float_of_int (- z) = SFopp (float_of_int z).
Proof.
  intros Hz. destruct z as [|p|p]; try lia.
  change (- Zpos p) with (Zneg p).
  unfold float_of_int, binary_normalize, binary_round.
  destruct (shl_align p 0 (fexp 24 128 (Zpos (digits2_pos p) + 0))) as [mz ez].
  apply (binary_round_aux_sign false).
Qed.

(** The quotient of [-x] by a positive float is minus the quotient of [x]. *)
Lemma float_div_opp_l s1 m1 e1 m2 e2 :
  float_div (SFopp (S754_finite s1 m1 e1)) (S754_finite false m2 e2)
  = SFopp (float_div (S754_finite s1 m1 e1) (S754_finite false m2 e2)).
Proof.
  unfold float_div, SFdiv. cbn [SFopp].
  destruct (SFdiv_core_binary 24 128 (Zpos m1) e1 (Zpos m2) e2) as [[mz ez] lz].
  rewrite !xorb_false_r. apply binary_round_aux_sign.
Qed.

Lemma float_trunc_opp x : float_trunc (SFopp x) = - float_trunc x.
Proof.
  destruct x as [s|s| |s m e]; try reflexivity.
  cbn [SFopp float_trunc]. destruct s; cbn [negb]; lia.
Qed.

(** Below 2^24 in absolute value the division through [float] is the
    integer division that truncates toward zero. *)
Lemma float_quotient_toward_zero (s p : Z) :
  - 2 ^ 24 < s < 2 ^ 24 -> 0 < p < 2 ^ 24 ->
  float_trunc (float_div (float_of_int s) (float_of_int p)) = Z.quot s p.
Proof.
  intros Hs Hp.
  destruct (Z_lt_ge_dec s 0) as [Hneg|Hpos].
  - replace s with (- (- s)) by lia.
    rewrite float_of_int_opp by lia.
    destruct (float_of_int_small (- s) ltac:(lia)) as (m1 & k1 & _ & _ & _ & E1).
    destruct (float_of_int_small p Hp) as (m2 & k2 & _ & _ & _ & E2).
    pose proof (float_quotient_exact (- s) p ltac:(lia) Hp) as Hq.
    rewrite E1, E2 in *.
    rewrite float_div_opp_l, float_trunc_opp, Hq.
    rewrite Z.quot_opp_l by lia. f_equal.
    symmetry. apply Z.quot_div_nonneg; lia.
  - rewrite float_quotient_exact by lia.
    symmetry. apply Z.quot_div_nonneg; lia.
Qed.

(* ===================================================================== *)
(** ** The averaging pass *)
(* ===================================================================== *)

Lemma in_image_true H W row col color :
  in_image H W (row, col, color) = true
  <-> 0 <= row < H /\ 0 <= col < W /\ 0 <= color < 3.
Proof.
  unfold in_image. rewrite !andb_true_iff, !Z.leb_le, !Z.ltb_lt. lia.
Qed.

Lemma sums_color_eq s t color :
  sums_r s = sums_r t -> sums_g s = sums_g t -> sums_b s = sums_b t ->
  sums_color s color = sums_color t color.
Proof.
  intros Hr Hg Hb. unfold sums_color.
  destruct (color =? 0); [exact Hr|]. destruct (color =? 1); [exact Hg | exact Hb].
Qed.

Section AveragingPass.
Variables (R : Z) (img_out : nat) (H W : Z) (s0 : state).

Let value (k : Z * Z * Z) : Z :=
  let '(row, col, color) := k in blurred s0 R H W row col color.

Let own_channel (row col : Z) (color : Z) (k : Z * Z * Z) : Prop :=
  k = (row, col, color).
Let own_pixel (row : Z) (col : Z) (k : Z * Z * Z) : Prop :=
  touched (own_channel row col) 0 3 k.
Let own_row (row : Z) (k : Z * Z * Z) : Prop :=
  touched (own_pixel row) 0 W k.

Lemma blur_channel_cells row col color s :
  0 <= row < H -> 0 <= col < W -> 0 <= color < 3 ->
  averaging_inv img_out H W s0 s ->
  averaging_inv img_out H W s0
    (blur_channel img_out W row col (bounding_box R H W row col) color s)
  /\ (forall k, own_channel row col color k ->
        sample img_out H W
          (blur_channel img_out W row col (bounding_box R H W row col) color s) k
        = value k)
  /\ (forall k,
        sample img_out H W
          (blur_channel img_out W row col (bounding_box R H W row col) color s) k
        = sample img_out H W s k
        \/ own_channel row col color k).
Proof.
  intros Hrow Hcol Hcolor (Hr & Hg & Hb & Hov & (img & Himg & Hw & Hh & Hlen) & Hothers).
  assert (Hoff : forall c, 0 <= c < 3 ->
            0 <= pixel_offset img col row c < Z.of_nat (length (data img))).
  { intros c Hc. unfold pixel_offset. rewrite Hlen, Hw. nia. }
  split; [|split].
  - unfold averaging_inv, blur_channel. simpl.
    repeat (split; [assumption|]). split.
    + eexists. split; [apply lookup_ImageSetPixel_eq; exact Himg|].
      simpl. rewrite length_store. auto.
    + intros q Hq. rewrite lookup_ImageSetPixel_ne by exact Hq. now apply Hothers.
  - intros k ->. unfold sample, value, blurred.
    replace (in_image H W (row, col, color)) with true
      by (symmetry; apply in_image_true; lia).
    unfold blur_channel. simpl.
    rewrite (ImageGetPixel_set_eq _ _ img) by (auto using Hoff).
    rewrite (sums_color_eq s s0) by assumption.
    apply Z.mod_small.
    pose proof (average_range
      (window_sum (sums_color s0 color) W (bounding_box R H W row col))
      (pixels (bounding_box R H W row col))). lia.
  - intros [[row' col'] color'].
    destruct (in_image H W (row', col', color')) eqn:Hin.
    + apply in_image_true in Hin.
      destruct (decide ((row', col', color') = (row, col, color))) as [Heq|Hne];
        [right; exact Heq|].
      left. unfold sample. 
      replace (in_image H W (row', col', color')) with true
        by (symmetry; apply in_image_true; lia).
      unfold blur_channel. simpl.
      apply (ImageGetPixel_set_ne _ _ img); [exact Himg|].
      intros Heq. apply pixel_offset_inj in Heq; [| lia ..].
      apply Hne. destruct Heq as (-> & -> & ->). reflexivity.
    + left. unfold sample. rewrite Hin. reflexivity.
Qed.

Lemma blur_pixel_cells row col s :
  0 <= row < H -> 0 <= col < W ->
  averaging_inv img_out H W s0 s ->
  averaging_inv img_out H W s0 (blur_pixel R img_out H W row col s)
  /\ (forall k, own_pixel row col k ->
        sample img_out H W (blur_pixel R img_out H W row col s) k = value k)
  /\ (forall k,
        sample img_out H W (blur_pixel R img_out H W row col s) k
        = sample img_out H W s k
        \/ own_pixel row col k).
Proof.
  intros Hrow Hcol Hinv. unfold blur_pixel, own_pixel.
  apply (for_loop_pointwise (sample img_out H W) (averaging_inv img_out H W s0)
           value (own_channel row col)); [exact Hinv|].
  intros color t Hcolor Ht _ _.
  now apply blur_channel_cells.
Qed.

Lemma blur_row_cells row s :
  0 <= row < H ->
  averaging_inv img_out H W s0 s ->
  averaging_inv img_out H W s0
    (for_loop 0 W (fun col => blur_pixel R img_out H W row col) s)
  /\ (forall k, own_row row k ->
        sample img_out H W
          (for_loop 0 W (fun col => blur_pixel R img_out H W row col) s) k
        = value k)
  /\ (forall k,
        sample img_out H W
          (for_loop 0 W (fun col => blur_pixel R img_out H W row col) s) k
        = sample img_out H W s k
        \/ own_row row k).
Proof.
  intros Hrow Hinv. unfold own_row.
  apply (for_loop_pointwise (sample img_out H W) (averaging_inv img_out H W s0)
           value (own_pixel row)); [exact Hinv|].
  intros col t Hcol Ht _ _.
  now apply blur_pixel_cells.
Qed.

Lemma phase3_cells :
  averaging_inv img_out H W s0 s0 ->
  averaging_inv img_out H W s0 (phase3 R img_out H W s0)
  /\ (forall row col color,
        0 <= row < H -> 0 <= col < W -> 0 <= color < 3 ->
        ImageGetPixel (images (phase3 R img_out H W s0)) img_out col row color
        = blurred s0 R H W row col color).
Proof.
  intros Hinv. unfold phase3.
  destruct (for_loop_pointwise (sample img_out H W) (averaging_inv img_out H W s0)
              value own_row 0 H
              (fun row => for_loop 0 W (fun col => blur_pixel R img_out H W row col))
              s0 Hinv) as (Hfin & Hval & _).
  { intros row t Hrow Ht _ _. now apply blur_row_cells. }
  split; [exact Hfin|].
  intros row col color Hrow Hcol Hcolor.
  specialize (Hval (row, col, color)).
  unfold sample in Hval.
  replace (in_image H W (row, col, color)) with true in Hval
    by (symmetry; apply in_image_true; lia).
  apply Hval.
  exists row. split; [lia|]. exists col. split; [lia|].
  exists color. split; [lia|]. reflexivity.
Qed.

End AveragingPass.

(* ===================================================================== *)
(** ** The passes and the image heap *)
(* ===================================================================== *)

Lemma images_phase1 img_in H W s : images (phase1 img_in H W s) = images s.
Proof.
  unfold phase1.
  apply (for_loop_preserves (fun t => images t = images s)); [reflexivity|].
  intros row t _ Ht.
  apply (for_loop_preserves (fun u => images u = images s)); [exact Ht|].
  intros col u _ Hu. exact Hu.
Qed.

Lemma images_phase2 H W s : images (phase2 H W s) = images s.
Proof.
  unfold phase2.
  apply (for_loop_preserves (fun t => images t = images s)); [reflexivity|].
  intros col t _ Ht.
  apply (for_loop_preserves (fun u => images u = images s)); [exact Ht|].
  intros row u _ Hu. exact Hu.
Qed.

Lemma heap_frame_blur_channel img_out H W m W' row col bb color s :
  heap_frame img_out H W m s ->
  heap_frame img_out H W m (blur_channel img_out W' row col bb color s).
Proof.
  intros ((img & Himg & Hw & Hh) & Hothers). split.
  - eexists. unfold blur_channel. simpl.
    split; [apply lookup_ImageSetPixel_eq; exact Himg|]. simpl. auto.
  - intros q Hq. unfold blur_channel. simpl.
    rewrite lookup_ImageSetPixel_ne by exact Hq. now apply Hothers.
Qed.

Lemma heap_frame_phase3 R img_out H W m H' W' s :
  heap_frame img_out H W m s ->
  heap_frame img_out H W m (phase3 R img_out H' W' s).
Proof.
  intros Hs. unfold phase3.
  apply for_loop_preserves; [exact Hs|]. intros row t _ Ht.
  apply for_loop_preserves; [exact Ht|]. intros col u _ Hu.
  unfold blur_pixel.
  apply for_loop_preserves; [exact Hu|]. intros color v _ Hv.
  now apply heap_frame_blur_channel.
Qed.

Lemma setup_images img_in junk_r junk_g junk_b (m : gmap nat Image) :
  let H := image_height m img_in in
  let W := image_width m img_in in
  let p := fst (setup img_in junk_r junk_g junk_b m) in
  let s := snd (setup img_in junk_r junk_g junk_b m) in
  m !! p = None
  /\ images s = <[p := mkImage W H (repeat 0 (Z.to_nat (W * H * 3)))]> m
  /\ sums_r s = malloc (H * W) junk_r
  /\ sums_g s = malloc (H * W) junk_g
  /\ sums_b s = malloc (H * W) junk_b
  /\ overflowed s = false.
Proof.
  unfold setup, ImageCreate. simpl.
  split; [apply not_elem_of_dom, is_fresh|]. repeat split.
Qed.

Lemma main_unfold R img_in junk_r junk_g junk_b (m : gmap nat Image) :
  main R img_in junk_r junk_g junk_b m
  = (fst (setup img_in junk_r junk_g junk_b m),
     phase3 R (fst (setup img_in junk_r junk_g junk_b m))
       (image_height m img_in) (image_width m img_in)
       (after_phase2 img_in junk_r junk_g junk_b m)).
Proof.
  unfold main, after_phase2, after_phase1.
  destruct (setup img_in junk_r junk_g junk_b m) as [p s]. reflexivity.
Qed.

Lemma images_after_phase2 img_in junk_r junk_g junk_b (m : gmap nat Image) :
  images (after_phase2 img_in junk_r junk_g junk_b m)
  = images (snd (setup img_in junk_r junk_g junk_b m)).
Proof.
  unfold after_phase2, after_phase1. now rewrite images_phase2, images_phase1.
Qed.

Lemma averaging_inv_start img_in junk_r junk_g junk_b (m : gmap nat Image) :
  0 <= image_height m img_in -> 0 <= image_width m img_in ->
  averaging_inv (fst (setup img_in junk_r junk_g junk_b m))
    (image_height m img_in) (image_width m img_in)
    (after_phase2 img_in junk_r junk_g junk_b m)
    (after_phase2 img_in junk_r junk_g junk_b m).
Proof.
  intros HH HW.
  destruct (setup_images img_in junk_r junk_g junk_b m) as (_ & Him & _).
  unfold averaging_inv. repeat (split; [reflexivity|]). split; [|reflexivity].
  eexists. rewrite images_after_phase2, Him.
  split; [apply lookup_insert_eq|]. simpl.
  split; [reflexivity|]. split; [reflexivity|].
  rewrite repeat_length. nia.
Qed.

(** The tables are those of the second part when the averaging pass ends. *)
Lemma sums_color_main R img_in junk_r junk_g junk_b (m : gmap nat Image) color :
  sums_color (snd (main R img_in junk_r junk_g junk_b m)) color
  = sums_color (after_phase2 img_in junk_r junk_g junk_b m) color.
Proof.
  rewrite main_unfold. simpl.
  set (p := fst (setup img_in junk_r junk_g junk_b m)).
  set (s2 := after_phase2 img_in junk_r junk_g junk_b m).
  assert (Hkeep : sums_r (phase3 R p (image_height m img_in) (image_width m img_in) s2) = sums_r s2
                  /\ sums_g (phase3 R p (image_height m img_in) (image_width m img_in) s2) = sums_g s2
                  /\ sums_b (phase3 R p (image_height m img_in) (image_width m img_in) s2) = sums_b s2).
  { unfold phase3.
    apply (for_loop_preserves
             (fun t => sums_r t = sums_r s2 /\ sums_g t = sums_g s2 /\ sums_b t = sums_b s2));
      [auto|].
    intros row t _ Ht. apply for_loop_preserves; [exact Ht|].
    intros col u _ Hu. unfold blur_pixel. apply for_loop_preserves; [exact Hu|].
    intros c v _ Hv. exact Hv. }
  destruct Hkeep as (Hr & Hg & Hb). now apply sums_color_eq.
Qed.

(* ===================================================================== *)
(** ** The window average written for a pixel *)
(* ===================================================================== *)

Lemma bounding_box_min_range R H W row col :
  0 <= x_min (bounding_box R H W row col) <= INT_MAX
  /\ 0 <= y_min (bounding_box R H W row col) <= INT_MAX.
Proof.
  unfold bounding_box. simpl. rewrite !max_spec.
  pose proof (wrap_in_int (col - R)) as Hc.
  pose proof (wrap_in_int (row - R)) as Hr.
  unfold int_sub, in_int, INT_MIN, INT_MAX in *. lia.
Qed.

Lemma lt1_eq0 z : 0 <= z -> (z <? 1) = (z =? 0).
Proof. intros Hz. destruct (Z.ltb_spec z 1), (Z.eqb_spec z 0); lia. Qed.

Lemma int_pred_exact z : 0 <= z <= INT_MAX -> int_sub z 1 = z - 1.
Proof.
  intros Hz. apply wrap_id. unfold in_int, INT_MIN, INT_MAX in *. lia.
Qed.

Lemma corner_a_eq t W bb :
  0 <= x_min bb <= INT_MAX -> 0 <= y_min bb <= INT_MAX ->
  corner_a t W bb
  = if (y_min bb =? 0) || (x_min bb =? 0) then 0
    else load t (idx (y_min bb - 1) (x_min bb - 1) W 1).
Proof.
  intros Hx Hy. unfold corner_a.
  rewrite !lt1_eq0, !int_pred_exact by lia. reflexivity.
Qed.

Lemma corner_b_eq t W bb :
  0 <= y_min bb <= INT_MAX ->
  corner_b t W bb
  = if y_min bb =? 0 then 0 else load t (idx (y_min bb - 1) (x_max bb) W 1).
Proof.
  intros Hy. unfold corner_b.
  rewrite !lt1_eq0, !int_pred_exact by lia. reflexivity.
Qed.

Lemma corner_c_eq t W bb :
  0 <= x_min bb <= INT_MAX ->
  corner_c t W bb
  = if x_min bb =? 0 then 0 else load t (idx (y_max bb) (x_min bb - 1) W 1).
Proof.
  intros Hx. unfold corner_c.
  rewrite !lt1_eq0, !int_pred_exact by lia. reflexivity.
Qed.

Lemma window_sum_eq a b c d :
  int_sub d (int_sub (int_add b c) a) = wrap (d - b - c + a).
Proof.
  unfold int_sub, int_add.
  rewrite wrap_sub_r.
  replace (d - (wrap (b + c) - a)) with ((d + a) - wrap (b + c)) by lia.
  rewrite wrap_sub_r. f_equal. lia.
Qed.

(** The value written for a pixel, with the corner values spelled out as
    table reads. *)
Lemma blurred_corners s R H W row col color :
  let bb := bounding_box R H W row col in
  let t := table s W color in
  let a := if (y_min bb =? 0) || (x_min bb =? 0) then 0
           else t (y_min bb - 1) (x_min bb - 1) in
  let b := if y_min bb =? 0 then 0 else t (y_min bb - 1) (x_max bb) in
  let c := if x_min bb =? 0 then 0 else t (y_max bb) (x_min bb - 1) in
  let d := t (y_max bb) (x_max bb) in
  blurred s R H W row col color
  = uchar_of_float (float_div (float_of_int (wrap (d - b - c + a)))
                              (float_of_int (pixels bb))).
Proof.
  cbv zeta. unfold blurred, average, table.
  destruct (bounding_box_min_range R H W row col) as (Hx & Hy).
  f_equal. f_equal. f_equal.
  unfold window_sum.
  rewrite corner_a_eq, corner_b_eq, corner_c_eq by assumption.
  unfold corner_d. apply window_sum_eq.
Qed.

(* ===================================================================== *)
(** ** The input image is only read *)
(* ===================================================================== *)

Lemma heap_frame_main R img_in junk_r junk_g junk_b (m : gmap nat Image) :
  heap_frame (fst (main R img_in junk_r junk_g junk_b m))
    (image_height m img_in) (image_width m img_in) m
    (snd (main R img_in junk_r junk_g junk_b m)).
Proof.
  rewrite main_unfold. simpl.
  apply heap_frame_phase3.
  destruct (setup_images img_in junk_r junk_g junk_b m) as (Hfresh & Him & _).
  unfold heap_frame. rewrite images_after_phase2, Him. split.
  - eexists. split; [apply lookup_insert_eq|]. simpl. auto.
  - intros q Hq. apply lookup_insert_ne.
    intros Heq. apply Hq. rewrite <- Heq. reflexivity.
Qed.

(** C10. [main] leaves the input image as it found it: the output image
    is created at an address that held no image before, every image of the
    heap other than the output image (the input image among them) is the
    same after the run, so all writes went to the output image, and the
    output image has the width and the height of the input image. *)
Theorem input_image_only_read R img_in junk_r junk_g junk_b
    (m : gmap nat Image) (img : Image) :
  let img_out := fst (main R img_in junk_r junk_g junk_b m) in
  let s := snd (main R img_in junk_r junk_g junk_b m) in
  m !! img_in = Some img ->
  m !! img_out = None
  /\ img_out <> img_in
  /\ (forall q, q <> img_out -> images s !! q = m !! q)
  /\ images s !! img_in = Some img
  /\ (forall x y chan,
        ImageGetPixel (images s) img_in x y chan = ImageGetPixel m img_in x y chan)
  /\ exists out, images s !! img_out = Some out
       /\ width out = width img /\ height out = height img.
Proof.
  intros img_out s Hin.
  pose proof (heap_frame_main R img_in junk_r junk_g junk_b m) as (Hout & Hothers).
  fold img_out s in Hout, Hothers.
  assert (Hfresh : m !! img_out = None).
  { unfold img_out. rewrite main_unfold. simpl.
    apply (setup_images img_in junk_r junk_g junk_b m). }
  assert (Hne : img_out <> img_in) by congruence.
  assert (Hsame : images s !! img_in = Some img).
  { rewrite Hothers by congruence. exact Hin. }
  split; [exact Hfresh|]. split; [exact Hne|]. split; [exact Hothers|].
  split; [exact Hsame|]. split.
  - intros x y chan. unfold ImageGetPixel. now rewrite Hsame, Hin.
  - destruct Hout as (out & Ho & Hw & Hh). exists out.
    split; [exact Ho|].
    unfold image_width, image_height in Hw, Hh. rewrite Hin in Hw, Hh. auto.
Qed.

Lemma input_image_only_read_witness :
  images (snd (main 1 0%nat zero_junk zero_junk zero_junk heap_2x2)) !! 0%nat
  = Some image_2x2.
Proof.
  apply (input_image_only_read 1 0%nat zero_junk zero_junk zero_junk
           heap_2x2 image_2x2).
  reflexivity.
Defined.

(* ===================================================================== *)
(** ** The two table passes, cell by cell *)
(* ===================================================================== *)

Lemma in_table_true H W color r c :
  in_table H W (color, r, c) = true
  <-> 0 <= color < 3 /\ 0 <= r < H /\ 0 <= c < W.
Proof.
  unfold in_table. rewrite !andb_true_iff, !Z.leb_le, !Z.ltb_lt. lia.
Qed.

Lemma cell_in H W s color r c :
  0 <= color < 3 -> 0 <= r < H -> 0 <= c < W ->
  cell H W s (color, r, c) = load (sums_color s color) (r * W + c).
Proof.
  intros Hk Hr Hc. unfold cell.
  replace (in_table H W (color, r, c)) with true
    by (symmetry; apply in_table_true; lia).
  reflexivity.
Qed.

Lemma sum_below_last f n :
  sum_below f (Datatypes.S n) = sum_below f n + f n.
Proof. reflexivity. Qed.

Lemma sum_below_ext f g n :
  (forall i, (i < n)%nat -> f i = g i) -> sum_below f n = sum_below g n.
Proof.
  induction n as [|n IH]; intros Hfg; [reflexivity|].
  simpl. rewrite IH by (intros i Hi; apply Hfg; lia).
  rewrite Hfg by lia. reflexivity.
Qed.

Lemma sum_below_bounds f n lo hi :
  (forall i, (i < n)%nat -> lo <= f i <= hi) ->
  Z.of_nat n * lo <= sum_below f n <= Z.of_nat n * hi.
Proof.
  induction n as [|n IH]; intros Hf; [simpl; lia|].
  rewrite sum_below_last.
  specialize (IH (fun i Hi => Hf i ltac:(lia))).
  specialize (Hf n ltac:(lia)). nia.
Qed.

Lemma row_sums_0 px t0 color r : row_sums px t0 (color, r, 0) = t0 (color, r, 0).
Proof. unfold row_sums. simpl. lia. Qed.

Lemma row_sums_step px t0 color r c :
  1 <= c ->
  row_sums px t0 (color, r, c) = row_sums px t0 (color, r, c - 1) + px color r c.
Proof.
  intros Hc. unfold row_sums.
  replace (Z.to_nat c) with (Datatypes.S (Z.to_nat (c - 1))) by lia.
  rewrite sum_below_last.
  replace (Z.of_nat (Z.to_nat (c - 1)) + 1) with c by lia. lia.
Qed.

Lemma col_sums_0 t1 color c : col_sums t1 (color, 0, c) = t1 (color, 0, c).
Proof. unfold col_sums. simpl. reflexivity. Qed.

Lemma col_sums_step t1 color r c :
  1 <= r ->
  col_sums t1 (color, r, c) = col_sums t1 (color, r - 1, c) + t1 (color, r, c).
Proof.
  intros Hr. unfold col_sums.
  replace (Z.to_nat (r + 1)) with (Datatypes.S (Z.to_nat (r - 1 + 1))) by lia.
  rewrite sum_below_last.
  replace (Z.of_nat (Z.to_nat (r - 1 + 1))) with r by lia. reflexivity.
Qed.

Lemma sums_color_cases (P : Z -> Prop) :
  P 0 -> P 1 -> P 2 -> forall color, 0 <= color < 3 -> P color.
Proof.
  intros H0 H1 H2 color Hc.
  assert (color = 0 \/ color = 1 \/ color = 2) as [->| [->| ->]] by lia; assumption.
Qed.

Lemma sums_color_row_sum_cell img_in W row col s color :
  0 <= color < 3 ->
  sums_color (row_sum_cell img_in W row col s) color
  = store (sums_color s color) (idx row col W 1)
      (int_add (ImageGetPixel (images s) img_in col row color)
               (load (sums_color s color) (idx row (int_sub col 1) W 1))).
Proof.
  revert color. apply sums_color_cases; reflexivity.
Qed.

Lemma overflowed_row_sum_cell img_in W row col s :
  (forall color, 0 <= color < 3 ->
     add_overflows (ImageGetPixel (images s) img_in col row color)
                   (load (sums_color s color) (idx row (int_sub col 1) W 1)) = false) ->
  overflowed (row_sum_cell img_in W row col s) = overflowed s.
Proof.
  intros Hno. unfold row_sum_cell. simpl.
  pose proof (Hno 0 ltac:(lia)) as H0.
  pose proof (Hno 1 ltac:(lia)) as H1.
  pose proof (Hno 2 ltac:(lia)) as H2.
  unfold sums_color in H0, H1, H2. simpl in H0, H1, H2.
  rewrite H0, H1, H2. now rewrite !orb_false_r.
Qed.

Lemma sums_color_col_sum_cell W col row s color :
  0 <= color < 3 ->
  sums_color (col_sum_cell W col row s) color
  = store (sums_color s color) (idx row col W 1)
      (int_add (load (sums_color s color) (idx row col W 1))
               (load (sums_color s color) (idx (int_sub row 1) col W 1))).
Proof.
  revert color. apply sums_color_cases; reflexivity.
Qed.

Lemma overflowed_col_sum_cell W col row s :
  (forall color, 0 <= color < 3 ->
     add_overflows (load (sums_color s color) (idx row col W 1))
                   (load (sums_color s color) (idx (int_sub row 1) col W 1)) = false) ->
  overflowed (col_sum_cell W col row s) = overflowed s.
Proof.
  intros Hno. unfold col_sum_cell. simpl.
  pose proof (Hno 0 ltac:(lia)) as H0.
  pose proof (Hno 1 ltac:(lia)) as H1.
  pose proof (Hno 2 ltac:(lia)) as H2.
  unfold sums_color in H0, H1, H2. simpl in H0, H1, H2.
  rewrite H0, H1, H2. now rewrite !orb_false_r.
Qed.

Lemma length_sums_color H W f s0 s color :
  tables_inv H W f s0 s -> length (sums_color s color) = Z.to_nat (H * W).
Proof.
  intros (_ & Hr & Hg & Hb & _). unfold sums_color.
  destruct (color =? 0); [exact Hr|]. destruct (color =? 1); assumption.
Qed.

Lemma cell_offset_inj W r c r' c' :
  0 <= c < W -> 0 <= c' < W -> r * W + c = r' * W + c' -> r = r' /\ c = c'.
Proof. intros Hc Hc' Heq. assert (r = r') by nia. subst. lia. Qed.

Lemma in_int_0 : in_int 0.
Proof. unfold in_int, INT_MIN, INT_MAX. lia. Qed.

Lemma cell_in_int_after_store H W s s' row col (v : Z -> Z) :
  0 <= row < H -> 0 <= col < W ->
  (forall k, in_int (cell H W s k)) ->
  (forall color, 0 <= color < 3 -> in_int (v color)) ->
  (forall color, 0 <= color < 3 ->
     sums_color s' color = store (sums_color s color) (row * W + col) (v color)) ->
  (forall color, 0 <= color < 3 ->
     Z.of_nat (length (sums_color s color)) = H * W) ->
  (forall color r c, 0 <= color < 3 -> 0 <= r < H -> 0 <= c < W ->
     cell H W s' (color, r, c)
     = if decide ((r, c) = (row, col)) then v color else cell H W s (color, r, c))
  /\ (forall k, in_int (cell H W s' k)).
Proof.
  intros Hrow Hcol Hrange Hv Hstore Hlen.
  assert (Hcells : forall color r c, 0 <= color < 3 -> 0 <= r < H -> 0 <= c < W ->
     cell H W s' (color, r, c)
     = if decide ((r, c) = (row, col)) then v color else cell H W s (color, r, c)).
  { intros color r c Hk Hr Hc.
    rewrite !cell_in, Hstore by assumption.
    destruct (decide ((r, c) = (row, col))) as [Heq|Hne].
    - injection Heq as -> ->. apply load_store_eq. rewrite Hlen by assumption. nia.
    - apply load_store_ne. intros Heq. apply Hne.
      apply cell_offset_inj in Heq; [| lia ..]. destruct Heq as (-> & ->). reflexivity. }
  split; [exact Hcells|].
  intros [[color r] c]. destruct (in_table H W (color, r, c)) eqn:Hin.
  - apply in_table_true in Hin. destruct Hin as (Hk & Hr & Hc).
    rewrite Hcells by assumption.
    destruct (decide ((r, c) = (row, col))); [now apply Hv | apply Hrange].
  - unfold cell. rewrite Hin. apply in_int_0.
Qed.

Section FirstPass.
Variables (img_in : nat) (H W : Z) (s0 : state).
Hypothesis HW : 0 < W.
Hypothesis HH : 0 < H.
Hypothesis Hsz : W * H <= INT_MAX.

Let px : Z -> Z -> Z -> Z := pixel (images s0) img_in.
Let f1 : Z * Z * Z -> Z := row_sums px (cell H W s0).
Let own_cell (row : Z) (col : Z) (k : Z * Z * Z) : Prop :=
  exists color, 0 <= color < 3 /\ k = (color, row, col).
Let own_row (row : Z) (k : Z * Z * Z) : Prop :=
  touched (own_cell row) 1 W k.

Lemma row_sum_cell_cells row col s :
  0 <= row < H -> 1 <= col < W ->
  tables_inv H W f1 s0 s ->
  (forall color, 0 <= color < 3 ->
     cell H W s (color, row, col - 1) = wrap (f1 (color, row, col - 1))) ->
  tables_inv H W f1 s0 (row_sum_cell img_in W row col s)
  /\ (forall k, own_cell row col k ->
        cell H W (row_sum_cell img_in W row col s) k = wrap (f1 k))
  /\ (forall k, cell H W (row_sum_cell img_in W row col s) k = cell H W s k
                \/ own_cell row col k).
Proof.
  intros Hrow Hcol Hinv Hprev.
  pose proof Hinv as (Him & Hlr & Hlg & Hlb & Hrange & Hflag).
  assert (Hidx : idx row col W 1 = row * W + col)
    by (apply (idx_exact H); lia).
  assert (Hidx' : idx row (int_sub col 1) W 1 = row * W + (col - 1)).
  { rewrite int_pred_exact by (unfold INT_MAX in *; nia).
    apply (idx_exact H); lia. }
  assert (Hlen : forall color, 0 <= color < 3 ->
            Z.of_nat (length (sums_color s color)) = H * W).
  { intros color _. rewrite (length_sums_color H W f1 s0 s color Hinv). nia. }
  assert (Hstore : forall color, 0 <= color < 3 ->
    sums_color (row_sum_cell img_in W row col s) color
    = store (sums_color s color) (row * W + col)
        (wrap (f1 (color, row, col)))).
  { intros color Hk. rewrite sums_color_row_sum_cell by exact Hk.
    rewrite Hidx, Hidx'. f_equal.
    rewrite <- (cell_in H W s color row (col - 1)) by lia.
    rewrite Hprev by exact Hk. unfold int_add. rewrite wrap_add_r.
    unfold f1. rewrite (row_sums_step px _ color row col) by lia.
    unfold px at 3, pixel. rewrite Him. f_equal. lia. }
  destruct (cell_in_int_after_store H W s (row_sum_cell img_in W row col s)
              row col (fun color => wrap (f1 (color, row, col))))
    as (Hcells & Hrange'); try assumption; try lia.
  { intros color _. apply wrap_in_int. }
  split; [|split].
  - unfold tables_inv. split; [exact Him|].
    unfold row_sum_cell; simpl. rewrite !length_store.
    split; [exact Hlr|]. split; [exact Hlg|]. split; [exact Hlb|].
    split; [exact Hrange'|].
    intros Hfits. rewrite <- (Hflag Hfits).
    apply overflowed_row_sum_cell. intros color Hk.
    apply add_overflows_false. rewrite Hidx'.
    rewrite <- (cell_in H W s color row (col - 1)) by lia.
    rewrite Hprev by exact Hk.
    rewrite wrap_id by (apply Hfits, in_table_true; lia).
    replace (ImageGetPixel (images s) img_in col row color) with (px color row col)
      by (unfold px, pixel; now rewrite Him).
    replace (px color row col + f1 (color, row, col - 1)) with (f1 (color, row, col))
      by (unfold f1; rewrite (row_sums_step px _ color row col) by lia; lia).
    apply Hfits, in_table_true. lia.
  - intros k (color & Hk & ->).
    rewrite Hcells by lia. now rewrite decide_True by reflexivity.
  - intros [[color r] c]. destruct (in_table H W (color, r, c)) eqn:Hin.
    + apply in_table_true in Hin. destruct Hin as (Hk & Hr & Hc).
      rewrite Hcells by assumption.
      destruct (decide ((r, c) = (row, col))) as [Heq|Hne]; [|now left].
      right. injection Heq as -> ->. exists color. split; [exact Hk | reflexivity].
    + left. unfold cell. now rewrite Hin.
Qed.

(** The inner loop of the first part on row [row], up to column [hi]. *)
Lemma row_sum_loop_cells row hi s :
  0 <= row < H -> hi <= W ->
  tables_inv H W f1 s0 s ->
  (forall color, 0 <= color < 3 ->
     cell H W s (color, row, 0) = cell H W s0 (color, row, 0)) ->
  tables_inv H W f1 s0 (for_loop 1 hi (row_sum_cell img_in W row) s)
  /\ (forall k, touched (own_cell row) 1 hi k ->
        cell H W (for_loop 1 hi (row_sum_cell img_in W row) s) k = wrap (f1 k))
  /\ (forall k, cell H W (for_loop 1 hi (row_sum_cell img_in W row) s) k = cell H W s k
                \/ touched (own_cell row) 1 hi k).
Proof.
  intros Hrow Hhi Hinv Hcol0.
  apply (for_loop_pointwise (cell H W) (tables_inv H W f1 s0)
           (fun k => wrap (f1 k)) (own_cell row)); [exact Hinv|].
  intros col t Hcol Ht HA HB.
  apply row_sum_cell_cells; [exact Hrow | lia | exact Ht |].
  intros color Hk.
  destruct (Z.eq_dec col 1) as [->|Hne].
  - change (1 - 1) with 0.
    destruct (HB (color, row, 0)) as [Heq|(i & Hi & (color' & _ & Hown))];
      [| injection Hown as _ Hi0; lia].
    rewrite Heq, Hcol0 by exact Hk.
    unfold f1. rewrite row_sums_0. symmetry. apply wrap_id.
    destruct Hinv as (_ & _ & _ & _ & Hrange & _).
    rewrite <- Hcol0 by exact Hk. apply Hrange.
  - apply HA. exists (col - 1). split; [lia|].
    exists color. split; [exact Hk | reflexivity].
Qed.

Lemma phase1_cells :
  tables_inv H W f1 s0 s0 ->
  tables_inv H W f1 s0 (phase1 img_in H W s0)
  /\ (forall color r c, 0 <= color < 3 -> 0 <= r < H -> 0 <= c < W ->
        cell H W (phase1 img_in H W s0) (color, r, c) = wrap (f1 (color, r, c))).
Proof.
  intros Hinv.
  change (phase1 img_in H W s0)
    with (for_loop 0 H (fun row => for_loop 1 W (row_sum_cell img_in W row)) s0).
  destruct (for_loop_pointwise (cell H W) (tables_inv H W f1 s0)
              (fun k => wrap (f1 k)) own_row 0 H
              (fun row => for_loop 1 W (row_sum_cell img_in W row)) s0 Hinv)
    as (Hfin & Hval & Hframe).
  { intros row t Hrow Ht _ HB.
    apply row_sum_loop_cells; [exact Hrow | lia | exact Ht |].
    intros color Hk.
    destruct (HB (color, row, 0))
      as [Heq|(i & Hi & (j & Hj & (color' & _ & Hown)))]; [exact Heq|].
    injection Hown as _ _ Hj0. lia. }
  split; [exact Hfin|].
  intros color r c Hk Hr Hc.
  destruct (Z.eq_dec c 0) as [->|Hne].
  - destruct (Hframe (color, r, 0))
      as [Heq|(i & Hi & (j & Hj & (color' & _ & Hown)))];
      [| injection Hown as _ _ Hj0; lia].
    rewrite Heq. unfold f1. rewrite row_sums_0. symmetry. apply wrap_id.
    destruct Hinv as (_ & _ & _ & _ & Hrange & _). apply Hrange.
  - apply Hval. exists r. split; [lia|]. exists c. split; [lia|].
    exists color. split; [exact Hk | reflexivity].
Qed.

End FirstPass.

Section SecondPass.
Variables (H W : Z) (s1 : state).
Hypothesis HW : 0 < W.
Hypothesis HH : 0 < H.
Hypothesis Hsz : W * H <= INT_MAX.

Let f2 : Z * Z * Z -> Z := col_sums (cell H W s1).
Let own_cell (col : Z) (row : Z) (k : Z * Z * Z) : Prop :=
  exists color, 0 <= color < 3 /\ k = (color, row, col).
Let own_col (col : Z) (k : Z * Z * Z) : Prop :=
  touched (own_cell col) 1 H k.

Lemma col_sum_cell_cells col row s :
  0 <= col < W -> 1 <= row < H ->
  tables_inv H W f2 s1 s ->
  (forall color, 0 <= color < 3 ->
     cell H W s (color, row, col) = cell H W s1 (color, row, col)) ->
  (forall color, 0 <= color < 3 ->
     cell H W s (color, row - 1, col) = wrap (f2 (color, row - 1, col))) ->
  tables_inv H W f2 s1 (col_sum_cell W col row s)
  /\ (forall k, own_cell col row k ->
        cell H W (col_sum_cell W col row s) k = wrap (f2 k))
  /\ (forall k, cell H W (col_sum_cell W col row s) k = cell H W s k
                \/ own_cell col row k).
Proof.
  intros Hcol Hrow Hinv Hcur Hprev.
  pose proof Hinv as (Him & Hlr & Hlg & Hlb & Hrange & Hflag).
  assert (Hidx : idx row col W 1 = row * W + col)
    by (apply (idx_exact H); lia).
  assert (Hidx' : idx (int_sub row 1) col W 1 = (row - 1) * W + col).
  { rewrite int_pred_exact by (unfold INT_MAX in *; nia).
    apply (idx_exact H); lia. }
  assert (Hlen : forall color, 0 <= color < 3 ->
            Z.of_nat (length (sums_color s color)) = H * W).
  { intros color _. rewrite (length_sums_color H W f2 s1 s color Hinv). nia. }
  assert (Hstep : forall color,
            f2 (color, row, col)
            = f2 (color, row - 1, col) + cell H W s1 (color, row, col)).
  { intros color. unfold f2. apply col_sums_step. lia. }
  assert (Hstore : forall color, 0 <= color < 3 ->
    sums_color (col_sum_cell W col row s) color
    = store (sums_color s color) (row * W + col)
        (wrap (f2 (color, row, col)))).
  { intros color Hk. rewrite sums_color_col_sum_cell by exact Hk.
    rewrite Hidx, Hidx'. f_equal.
    rewrite <- (cell_in H W s color row col) by lia.
    rewrite <- (cell_in H W s color (row - 1) col) by lia.
    rewrite Hprev, Hcur by exact Hk. unfold int_add. rewrite wrap_add_r.
    rewrite Hstep. f_equal. lia. }
  destruct (cell_in_int_after_store H W s (col_sum_cell W col row s)
              row col (fun color => wrap (f2 (color, row, col))))
    as (Hcells & Hrange'); try assumption; try lia.
  { intros color _. apply wrap_in_int. }
  split; [|split].
  - unfold tables_inv. split; [exact Him|].
    unfold col_sum_cell; simpl. rewrite !length_store.
    split; [exact Hlr|]. split; [exact Hlg|]. split; [exact Hlb|].
    split; [exact Hrange'|].
    intros Hfits. rewrite <- (Hflag Hfits).
    apply overflowed_col_sum_cell. intros color Hk.
    apply add_overflows_false. rewrite Hidx, Hidx'.
    rewrite <- (cell_in H W s color row col) by lia.
    rewrite <- (cell_in H W s color (row - 1) col) by lia.
    rewrite Hprev, Hcur by exact Hk.
    rewrite wrap_id by (apply Hfits, in_table_true; lia).
    replace (cell H W s1 (color, row, col) + f2 (color, row - 1, col))
      with (f2 (color, row, col)) by (rewrite Hstep; lia).
    apply Hfits, in_table_true. lia.
  - intros k (color & Hk & ->).
    rewrite Hcells by lia. now rewrite decide_True by reflexivity.
  - intros [[color r] c]. destruct (in_table H W (color, r, c)) eqn:Hin.
    + apply in_table_true in Hin. destruct Hin as (Hk & Hr & Hc).
      rewrite Hcells by assumption.
      destruct (decide ((r, c) = (row, col))) as [Heq|Hne]; [|now left].
      right. injection Heq as -> ->. exists color. split; [exact Hk | reflexivity].
    + left. unfold cell. now rewrite Hin.
Qed.

(** The inner loop of the second part on column [col], up to row [hi]. *)
Lemma col_sum_loop_cells col hi s :
  0 <= col < W -> hi <= H ->
  tables_inv H W f2 s1 s ->
  (forall color r, 0 <= color < 3 -> 0 <= r < H ->
     cell H W s (color, r, col) = cell H W s1 (color, r, col)) ->
  tables_inv H W f2 s1 (for_loop 1 hi (col_sum_cell W col) s)
  /\ (forall k, touched (own_cell col) 1 hi k ->
        cell H W (for_loop 1 hi (col_sum_cell W col) s) k = wrap (f2 k))
  /\ (forall k, cell H W (for_loop 1 hi (col_sum_cell W col) s) k = cell H W s k
                \/ touched (own_cell col) 1 hi k).
Proof.
  intros Hcol Hhi Hinv Hcolumn.
  apply (for_loop_pointwise (cell H W) (tables_inv H W f2 s1)
           (fun k => wrap (f2 k)) (own_cell col)); [exact Hinv|].
  intros row t Hrow Ht HA HB.
  assert (Huntouched : forall color r, 0 <= color < 3 -> row - 1 <= r < H ->
            r = 0 \/ row <= r ->
            cell H W t (color, r, col) = cell H W s1 (color, r, col)).
  { intros color r Hk Hr Hr'.
    destruct (HB (color, r, col)) as [Heq|(i & Hi & (color' & _ & Hown))].
    - rewrite Heq. apply Hcolumn; [exact Hk | lia].
    - injection Hown as _ Hi0. lia. }
  apply col_sum_cell_cells; [exact Hcol | lia | exact Ht | |].
  - intros color Hk. apply Huntouched; [exact Hk | lia | lia].
  - intros color Hk.
    destruct (Z.eq_dec row 1) as [->|Hne].
    + change (1 - 1) with 0.
      rewrite Huntouched by (try exact Hk; lia).
      unfold f2. rewrite col_sums_0. symmetry. apply wrap_id.
      destruct Hinv as (_ & _ & _ & _ & Hrange & _).
      rewrite <- Hcolumn by (try exact Hk; lia). apply Hrange.
    + apply HA. exists (row - 1). split; [lia|].
      exists color. split; [exact Hk | reflexivity].
Qed.

Lemma phase2_cells :
  tables_inv H W f2 s1 s1 ->
  tables_inv H W f2 s1 (phase2 H W s1)
  /\ (forall color r c, 0 <= color < 3 -> 0 <= r < H -> 0 <= c < W ->
        cell H W (phase2 H W s1) (color, r, c) = wrap (f2 (color, r, c))).
Proof.
  intros Hinv.
  change (phase2 H W s1)
    with (for_loop 0 W (fun col => for_loop 1 H (col_sum_cell W col)) s1).
  destruct (for_loop_pointwise (cell H W) (tables_inv H W f2 s1)
              (fun k => wrap (f2 k)) own_col 0 W
              (fun col => for_loop 1 H (col_sum_cell W col)) s1 Hinv)
    as (Hfin & Hval & Hframe).
  { intros col t Hcol Ht _ HB.
    apply col_sum_loop_cells; [exact Hcol | lia | exact Ht |].
    intros color r Hk Hr.
    destruct (HB (color, r, col))
      as [Heq|(i & Hi & (j & Hj & (color' & _ & Hown)))]; [exact Heq|].
    injection Hown as _ _ Hi0. lia. }
  split; [exact Hfin|].
  intros color r c Hk Hr Hc.
  destruct (Z.eq_dec r 0) as [->|Hne].
  - destruct (Hframe (color, 0, c))
      as [Heq|(i & Hi & (j & Hj & (color' & _ & Hown)))];
      [| injection Hown as _ Hj0 _; lia].
    rewrite Heq. unfold f2. rewrite col_sums_0. symmetry. apply wrap_id.
    destruct Hinv as (_ & _ & _ & _ & Hrange & _). apply Hrange.
  - apply Hval. exists c. split; [lia|]. exists r. split; [lia|].
    exists color. split; [exact Hk | reflexivity].
Qed.

End SecondPass.

(* ===================================================================== *)
(** ** The tables that [main] builds *)
(* ===================================================================== *)

Lemma wrap_sum_below f n :
  wrap (sum_below (fun i => wrap (f i)) n) = wrap (sum_below f n).
Proof.
  induction n as [|n IH]; [reflexivity|].
  rewrite !sum_below_last.
  rewrite wrap_add_r, <- wrap_add_l, IH, wrap_add_l. reflexivity.
Qed.

Lemma tables_inv_restart H W f g s0 s :
  tables_inv H W f s0 s -> tables_inv H W g s s.
Proof.
  intros (_ & Hr & Hg & Hb & Hrange & _).
  unfold tables_inv. repeat (split; [first [reflexivity | assumption]|]).
  reflexivity.
Qed.

Lemma row_sums_ext px px' t0 t0' color r c :
  t0 (color, r, 0) = t0' (color, r, 0) ->
  (forall x, 1 <= x <= c -> px color r x = px' color r x) ->
  row_sums px t0 (color, r, c) = row_sums px' t0' (color, r, c).
Proof.
  intros Ht Hpx. unfold row_sums. rewrite Ht. f_equal.
  apply sum_below_ext. intros i Hi. apply Hpx. lia.
Qed.

Lemma col_sums_ext t1 t1' color r c :
  (forall y, 0 <= y <= r -> t1 (color, y, c) = t1' (color, y, c)) ->
  col_sums t1 (color, r, c) = col_sums t1' (color, r, c).
Proof.
  intros Ht. unfold col_sums. apply sum_below_ext. intros i Hi. apply Ht. lia.
Qed.

Lemma junk_of_sums_color junk_r junk_g junk_b n color (ims : gmap nat Image) :
  sums_color (mkState ims (malloc n junk_r) (malloc n junk_g) (malloc n junk_b) false)
             color
  = malloc n (junk_of junk_r junk_g junk_b color).
Proof.
  unfold sums_color, junk_of. simpl.
  destruct (color =? 0); [reflexivity|]. destruct (color =? 1); reflexivity.
Qed.

Section BothPasses.
Variables (img_in : nat) (junk_r junk_g junk_b : nat -> Z).
Variables (m : gmap nat Image) (img : Image).
Hypothesis Hin : m !! img_in = Some img.
Hypothesis HW : 0 < width img.
Hypothesis HH : 0 < height img.
Hypothesis Hsz : width img * height img <= INT_MAX.

Let H : Z := height img.
Let W : Z := width img.
Let s0 : state := snd (setup img_in junk_r junk_g junk_b m).
Let s1 : state := after_phase1 img_in junk_r junk_g junk_b m.
Let s2 : state := after_phase2 img_in junk_r junk_g junk_b m.

Lemma image_dims : image_height m img_in = H /\ image_width m img_in = W.
Proof. unfold image_height, image_width. now rewrite Hin. Qed.

Lemma setup_pixel color r c :
  pixel (images s0) img_in color r c = pixel m img_in color r c.
Proof.
  destruct (setup_images img_in junk_r junk_g junk_b m) as (Hfresh & Him & _).
  unfold pixel, ImageGetPixel, s0. rewrite Him.
  rewrite lookup_insert_ne by congruence. reflexivity.
Qed.

Lemma setup_state :
  exists ims, s0 = mkState ims (malloc (H * W) junk_r) (malloc (H * W) junk_g)
                           (malloc (H * W) junk_b) false.
Proof.
  destruct image_dims as (HeqH & HeqW).
  unfold s0, setup, ImageCreate. simpl. rewrite HeqH, HeqW.
  eexists. reflexivity.
Qed.

Lemma setup_cell color r c :
  0 <= color < 3 -> 0 <= r < H -> 0 <= c < W ->
  cell H W s0 (color, r, c)
  = wrap (junk_of junk_r junk_g junk_b color (Z.to_nat (r * W + c))).
Proof.
  intros Hk Hr Hc. rewrite cell_in by assumption.
  destruct setup_state as (ims & ->).
  rewrite junk_of_sums_color. apply load_malloc. nia.
Qed.

Lemma tables_inv_setup f : tables_inv H W f s0 s0.
Proof.
  unfold tables_inv. split; [reflexivity|].
  destruct setup_state as (ims & Hs0).
  split; [rewrite Hs0; apply length_malloc|].
  split; [rewrite Hs0; apply length_malloc|].
  split; [rewrite Hs0; apply length_malloc|].
  split; [|reflexivity].
  intros [[color r] c]. destruct (in_table H W (color, r, c)) eqn:Hink.
  - apply in_table_true in Hink. destruct Hink as (Hk & Hr & Hc).
    rewrite setup_cell by assumption. apply wrap_in_int.
  - unfold cell. rewrite Hink. apply in_int_0.
Qed.

Let f1 : Z * Z * Z -> Z :=
  row_sums (pixel m img_in) (column0 junk_r junk_g junk_b W).

Lemma f1_eq color r c :
  0 <= color < 3 -> 0 <= r < H -> 0 <= c < W ->
  row_sums (pixel (images s0) img_in) (cell H W s0) (color, r, c)
  = f1 (color, r, c).
Proof.
  intros Hk Hr Hc. unfold f1. apply row_sums_ext.
  - rewrite setup_cell by lia. unfold column0. do 2 f_equal. lia.
  - intros x _. apply setup_pixel.
Qed.

Lemma fits_f1 :
  fits H W f1 ->
  fits H W (row_sums (pixel (images s0) img_in) (cell H W s0)).
Proof.
  intros Hfits [[color r] c] Hk. pose proof Hk as Hk'.
  apply in_table_true in Hk'. rewrite f1_eq by tauto. now apply Hfits.
Qed.

Lemma after_phase1_cells :
  tables_inv H W (row_sums (pixel (images s0) img_in) (cell H W s0)) s0 s1
  /\ (forall color r c, 0 <= color < 3 -> 0 <= r < H -> 0 <= c < W ->
        cell H W s1 (color, r, c) = wrap (f1 (color, r, c))).
Proof.
  destruct image_dims as (HeqH & HeqW).
  destruct (phase1_cells img_in H W s0 HW HH Hsz (tables_inv_setup _))
    as (Hinv & Hcells).
  unfold s1, after_phase1. rewrite HeqH, HeqW. fold s0.
  split; [exact Hinv|].
  intros color r c Hk Hr Hc. rewrite Hcells by assumption.
  now rewrite f1_eq.
Qed.

Lemma f2_eq color r c :
  0 <= color < 3 -> 0 <= r < H -> 0 <= c < W ->
  wrap (col_sums (cell H W s1) (color, r, c))
  = wrap (accumulated m img_in junk_r junk_g junk_b (color, r, c)).
Proof.
  intros Hk Hr Hc. destruct image_dims as (HeqH & HeqW).
  destruct after_phase1_cells as (_ & Hcells).
  unfold accumulated. rewrite HeqW. fold f1.
  rewrite (col_sums_ext (cell H W s1) (fun k => wrap (f1 k)) color r c)
    by (intros y Hy; apply Hcells; lia).
  unfold col_sums. apply (wrap_sum_below (fun y => f1 (color, Z.of_nat y, c))).
Qed.

Lemma fits_f2 :
  fits H W f1 ->
  fits H W (accumulated m img_in junk_r junk_g junk_b) ->
  fits H W (col_sums (cell H W s1)).
Proof.
  intros Hf1 Hf2 [[color r] c] Hk. pose proof Hk as Hk'.
  apply in_table_true in Hk'. destruct Hk' as (Hcolor & Hr & Hc).
  destruct image_dims as (HeqH & HeqW).
  destruct after_phase1_cells as (_ & Hcells).
  rewrite (col_sums_ext (cell H W s1) f1 color r c).
  - specialize (Hf2 (color, r, c) Hk). unfold accumulated in Hf2.
    rewrite HeqW in Hf2. exact Hf2.
  - intros y Hy. rewrite Hcells by lia.
    apply wrap_id, Hf1, in_table_true. lia.
Qed.

(** After the two parts, a table cell holds, up to the wrap-around of
    [int], what column 0 of its rows held at allocation plus the pixels of
    columns [1..c] of the rows [0..r]. *)
Lemma after_phase2_cells color r c :
  0 <= color < 3 -> 0 <= r < H -> 0 <= c < W ->
  cell H W s2 (color, r, c)
  = wrap (accumulated m img_in junk_r junk_g junk_b (color, r, c)).
Proof.
  intros Hk Hr Hc. destruct image_dims as (HeqH & HeqW).
  destruct after_phase1_cells as (Hinv1 & _).
  destruct (phase2_cells H W s1 HW HH Hsz (tables_inv_restart _ _ _ _ _ _ Hinv1))
    as (_ & Hcells).
  unfold s2, after_phase2. rewrite HeqH, HeqW. fold s1.
  rewrite Hcells by assumption. now apply f2_eq.
Qed.

(** When the row sums and the rectangle sums fit in [int], no addition of
    the two parts overflows. *)
Lemma no_overflow_when_sums_fit :
  fits H W f1 ->
  fits H W (accumulated m img_in junk_r junk_g junk_b) ->
  overflowed s2 = false.
Proof.
  intros Hf1 Hf2. destruct image_dims as (HeqH & HeqW).
  destruct after_phase1_cells as (Hinv1 & _).
  destruct (phase2_cells H W s1 HW HH Hsz (tables_inv_restart _ _ _ _ _ _ Hinv1))
    as (Hinv2 & _).
  unfold s2, after_phase2. rewrite HeqH, HeqW. fold s1.
  destruct Hinv2 as (_ & _ & _ & _ & _ & Hflag2).
  rewrite (Hflag2 (fits_f2 Hf1 Hf2)).
  destruct Hinv1 as (_ & _ & _ & _ & _ & Hflag1).
  rewrite (Hflag1 (fits_f1 Hf1)).
  unfold s0, setup, ImageCreate. reflexivity.
Qed.

End BothPasses.

(* ===================================================================== *)
(** ** Overflow of the table cells *)
(* ===================================================================== *)

Lemma sum_below_const f n v :
  (forall i, (i < n)%nat -> f i = v) -> sum_below f n = Z.of_nat n * v.
Proof.
  intros Hf.
  pose proof (sum_below_bounds f n v v) as Hb.
  assert (forall i, (i < n)%nat -> v <= f i <= v) as Hf'
    by (intros i Hi; rewrite Hf by exact Hi; lia).
  specialize (Hb Hf'). lia.
Qed.

Lemma row_sums_const px t0 color r c v :
  0 <= c ->
  (forall x, 1 <= x <= c -> px color r x = v) ->
  row_sums px t0 (color, r, c) = t0 (color, r, 0) + c * v.
Proof.
  intros Hc Hpx. unfold row_sums.
  rewrite (sum_below_const (fun j => px color r (Z.of_nat j + 1)) (Z.to_nat c) v)
    by (intros i Hi; apply Hpx; lia).
  rewrite Z2Nat.id by exact Hc. reflexivity.
Qed.

Lemma load_repeat v n i :
  0 <= i < Z.of_nat n -> load (repeat v n) i = v.
Proof.
  intros Hi. unfold load. destruct (Z.ltb_spec i 0); [lia|].
  apply nth_repeat_lt. lia.
Qed.

Lemma overflowed_phase2_mono H W s :
  overflowed s = true -> overflowed (phase2 H W s) = true.
Proof.
  intros Hs. unfold phase2.
  apply (for_loop_preserves (fun t => overflowed t = true)); [exact Hs|].
  intros col t _ Ht.
  apply (for_loop_preserves (fun u => overflowed u = true)); [exact Ht|].
  intros row u _ Hu. unfold col_sum_cell. simpl. now rewrite Hu.
Qed.

Lemma pixel_range m p color r c : 0 <= pixel m p color r c <= 255.
Proof. apply ImageGetPixel_range. Qed.

Lemma row_sums_bounds px t0 color r c :
  0 <= c ->
  (forall x, 0 <= px color r x <= 255) ->
  0 <= t0 (color, r, 0) <= 255 ->
  0 <= row_sums px t0 (color, r, c) <= 255 * (c + 1).
Proof.
  intros Hc Hpx Ht. unfold row_sums.
  pose proof (sum_below_bounds (fun j => px color r (Z.of_nat j + 1)) (Z.to_nat c)
                0 255 (fun i _ => Hpx _)).
  nia.
Qed.

Lemma col_sums_bounds t1 color r c hi :
  0 <= r -> 0 <= hi ->
  (forall y, 0 <= y <= r -> 0 <= t1 (color, y, c) <= hi) ->
  0 <= col_sums t1 (color, r, c) <= (r + 1) * hi.
Proof.
  intros Hr Hhi Ht. unfold col_sums.
  assert (Hall : forall i, (i < Z.to_nat (r + 1))%nat ->
            0 <= t1 (color, Z.of_nat i, c) <= hi)
    by (intros i Hi; apply Ht; lia).
  pose proof (sum_below_bounds (fun y => t1 (color, Z.of_nat y, c)) (Z.to_nat (r + 1))
                0 hi Hall).
  nia.
Qed.

(** C8, as amended. The tables are arrays of 32-bit [int]. For an image
    with [W > 0], [H > 0] and [255 * W * H <= INT_MAX], whose tables hold a
    value in 0..255 in every cell of column 0 when they are allocated, no
    addition computing a table cell overflows, in either part. *)
Theorem tables_do_not_overflow img_in junk_r junk_g junk_b
    (m : gmap nat Image) (img : Image) :
  m !! img_in = Some img ->
  0 < width img -> 0 < height img ->
  255 * width img * height img <= INT_MAX ->
  (forall color r, 0 <= color < 3 -> 0 <= r < height img ->
     0 <= column0 junk_r junk_g junk_b (width img) (color, r, 0) <= 255) ->
  overflowed (after_phase2 img_in junk_r junk_g junk_b m) = false.
Proof.
  intros Hin HW HH Hsz Hcol0.
  assert (Hsz' : width img * height img <= INT_MAX) by nia.
  assert (Hrow : forall color r c,
            0 <= color < 3 -> 0 <= r < height img -> 0 <= c < width img ->
            0 <= row_sums (pixel m img_in) (column0 junk_r junk_g junk_b (width img))
                   (color, r, c) <= 255 * (c + 1)).
  { intros color r c Hk Hr Hc. apply row_sums_bounds; [lia | | now apply Hcol0].
    intros x. apply pixel_range. }
  apply (no_overflow_when_sums_fit img_in junk_r junk_g junk_b m img Hin HW HH Hsz').
  - intros [[color r] c] Hk. apply in_table_true in Hk. destruct Hk as (Hk & Hr & Hc).
    specialize (Hrow color r c Hk Hr Hc).
    assert (width img <= width img * height img) by nia.
    unfold in_int, INT_MIN, INT_MAX in *. lia.
  - intros [[color r] c] Hk. apply in_table_true in Hk. destruct Hk as (Hk & Hr & Hc).
    unfold accumulated, image_width. rewrite Hin.
    pose proof (col_sums_bounds
                  (row_sums (pixel m img_in) (column0 junk_r junk_g junk_b (width img)))
                  color r c (255 * (c + 1)) ltac:(lia) ltac:(lia)) as Hb.
    assert (Hb' : 0 <= col_sums
                       (row_sums (pixel m img_in)
                          (column0 junk_r junk_g junk_b (width img)))
                       (color, r, c) <= (r + 1) * (255 * (c + 1))).
    { apply Hb. intros y Hy. apply Hrow; [exact Hk | lia | exact Hc]. }
    assert ((r + 1) * (255 * (c + 1)) <= 255 * width img * height img) by nia.
    unfold in_int, INT_MIN, INT_MAX in *. lia.
Qed.

Lemma tables_do_not_overflow_witness :
  overflowed (after_phase2 0%nat zero_junk zero_junk zero_junk heap_2x2) = false.
Proof.
  apply (tables_do_not_overflow 0%nat zero_junk zero_junk zero_junk heap_2x2 image_2x2).
  - vm_compute. reflexivity.
  - simpl. lia.
  - simpl. lia.
  - unfold INT_MAX. simpl. lia.
  - intros color r _ _. unfold column0, junk_of, zero_junk.
    destruct (color =? 0), (color =? 1); vm_compute; split; congruence.
Defined.

Lemma overflowed_row_sum_cell_any img_in W row col s color :
  0 <= color < 3 ->
  add_overflows (ImageGetPixel (images s) img_in col row color)
                (load (sums_color s color) (idx row (int_sub col 1) W 1)) = true ->
  overflowed (row_sum_cell img_in W row col s) = true.
Proof.
  intros Hk Hov.
  assert (Hcases : color = 0 \/ color = 1 \/ color = 2) by lia.
  unfold row_sum_cell. cbn [overflowed].
  destruct Hcases as [-> | [-> | ->]].
  - change (sums_color s 0) with (sums_r s) in Hov.
    rewrite Hov, ?orb_true_r. reflexivity.
  - change (sums_color s 1) with (sums_g s) in Hov.
    rewrite Hov, ?orb_true_r. reflexivity.
  - change (sums_color s 2) with (sums_b s) in Hov.
    rewrite Hov, ?orb_true_r. reflexivity.
Qed.

Lemma overflowed_row_loop_mono img_in W row lo hi s :
  overflowed s = true ->
  overflowed (for_loop lo hi (row_sum_cell img_in W row) s) = true.
Proof.
  intros Hs.
  apply (for_loop_preserves (fun u => overflowed u = true)); [exact Hs|].
  intros col u _ Hu. unfold row_sum_cell. cbn [overflowed]. now rewrite Hu.
Qed.

Lemma overflowed_rows_mono img_in W lo hi s :
  overflowed s = true ->
  overflowed
    (for_loop lo hi (fun row => for_loop 1 W (row_sum_cell img_in W row)) s) = true.
Proof.
  intros Hs.
  apply (for_loop_preserves (fun u => overflowed u = true)); [exact Hs|].
  intros row u _ Hu. now apply overflowed_row_loop_mono.
Qed.

Section FirstPassOverflow.
Variables (img_in : nat) (H W : Z) (s0 : state).
Hypothesis HW : 0 < W.
Hypothesis HH : 0 < H.
Hypothesis Hsz : W * H <= INT_MAX.

Let px : Z -> Z -> Z -> Z := pixel (images s0) img_in.
Let f1 : Z * Z * Z -> Z := row_sums px (cell H W s0).
Let own_cell (row : Z) (col : Z) (k : Z * Z * Z) : Prop :=
  exists color, 0 <= color < 3 /\ k = (color, row, col).
Let own_row (row : Z) (k : Z * Z * Z) : Prop :=
  touched (own_cell row) 1 W k.

(** The rows from [hi] on are as they were when the first [hi] rows have
    been processed. *)
Lemma rows_prefix_cells hi :
  hi <= H ->
  tables_inv H W f1 s0 s0 ->
  tables_inv H W f1 s0
    (for_loop 0 hi (fun row => for_loop 1 W (row_sum_cell img_in W row)) s0)
  /\ (forall color r c, hi <= r ->
        cell H W
          (for_loop 0 hi (fun row => for_loop 1 W (row_sum_cell img_in W row)) s0)
          (color, r, c)
        = cell H W s0 (color, r, c)).
Proof.
  intros Hhi Hinv.
  destruct (for_loop_pointwise (cell H W) (tables_inv H W f1 s0)
              (fun k => wrap (f1 k)) own_row 0 hi
              (fun row => for_loop 1 W (row_sum_cell img_in W row)) s0 Hinv)
    as (Hfin & _ & Hframe).
  { intros row t Hrow Ht _ HB.
    apply (row_sum_loop_cells img_in H W s0 HW HH Hsz);
      [lia | lia | exact Ht |].
    intros color Hk.
    destruct (HB (color, row, 0))
      as [Heq|(i & Hi & (j & Hj & (color' & _ & Hown)))]; [exact Heq|].
    injection Hown as _ _ Hj0. lia. }
  split; [exact Hfin|].
  intros color r c Hr.
  destruct (Hframe (color, r, c))
    as [Heq|(i & Hi & (j & Hj & (color' & _ & Hown)))]; [exact Heq|].
  injection Hown as _ Hi0 _. lia.
Qed.

(** An addition of the first part whose exact result is not an [int]
    raises the flag. *)
Lemma phase1_overflow_detected color r c :
  tables_inv H W f1 s0 s0 ->
  0 <= color < 3 -> 0 <= r < H -> 1 <= c < W ->
  in_int (f1 (color, r, c - 1)) ->
  ~ in_int (px color r c + f1 (color, r, c - 1)) ->
  overflowed (phase1 img_in H W s0) = true.
Proof.
  intros Hinv Hk Hr Hc Hprev Hbad.
  change (phase1 img_in H W s0)
    with (for_loop 0 H (fun row => for_loop 1 W (row_sum_cell img_in W row)) s0).
  rewrite (for_loop_split 0 r H) by lia.
  destruct (rows_prefix_cells r ltac:(lia) Hinv) as (Hinv_u & Hrows).
  set (u := for_loop 0 r (fun row => for_loop 1 W (row_sum_cell img_in W row)) s0)
    in *.
  rewrite (for_loop_first r H) by lia.
  apply overflowed_rows_mono.
  rewrite (for_loop_split 1 c W) by lia.
  destruct (row_sum_loop_cells img_in H W s0 HW HH Hsz r c u)
    as (Hinv_t & HA & HB); [lia | lia | exact Hinv_u | |].
  { intros k _. apply Hrows. lia. }
  set (t := for_loop 1 c (row_sum_cell img_in W r) u) in *.
  rewrite (for_loop_first c W) by lia.
  apply overflowed_row_loop_mono.
  apply (overflowed_row_sum_cell_any img_in W r c t color Hk).
  apply add_overflows_true.
  assert (Hcell : cell H W t (color, r, c - 1) = f1 (color, r, c - 1)).
  { rewrite <- (wrap_id _ Hprev).
    destruct (Z.eq_dec c 1) as [->|Hne].
    - change (1 - 1) with 0.
      destruct (HB (color, r, 0)) as [Heq|(i & Hi & _)]; [|lia].
      rewrite Heq, Hrows by lia.
      unfold f1. rewrite row_sums_0. symmetry. apply wrap_id.
      destruct Hinv as (_ & _ & _ & _ & Hrange & _). apply Hrange.
    - apply HA. exists (c - 1). split; [lia|].
      exists color. split; [exact Hk | reflexivity]. }
  rewrite int_pred_exact by (unfold INT_MAX in *; nia).
  rewrite (idx_exact H) by lia.
  rewrite <- (cell_in H W t color r (c - 1)) by lia.
  rewrite Hcell.
  destruct Hinv_t as (Him & _). rewrite Him.
  exact Hbad.
Qed.

End FirstPassOverflow.

(** An addition of the first part whose exact result is not an [int]
    raises the flag that [main] carries. *)
Lemma overflow_detected img_in junk_r junk_g junk_b (m : gmap nat Image)
    (img : Image) color r c :
  m !! img_in = Some img ->
  0 < width img -> 0 < height img ->
  width img * height img <= INT_MAX ->
  0 <= color < 3 -> 0 <= r < height img -> 1 <= c < width img ->
  in_int (row_sums (pixel m img_in) (column0 junk_r junk_g junk_b (width img))
            (color, r, c - 1)) ->
  ~ in_int (pixel m img_in color r c
            + row_sums (pixel m img_in) (column0 junk_r junk_g junk_b (width img))
                (color, r, c - 1)) ->
  overflowed (after_phase2 img_in junk_r junk_g junk_b m) = true.
Proof.
  intros Hin HW HH Hsz Hk Hr Hc Hprev Hbad.
  unfold after_phase2. apply overflowed_phase2_mono.
  unfold after_phase1, image_height, image_width. rewrite Hin.
  apply (phase1_overflow_detected img_in (height img) (width img) _ HW HH Hsz
           color r c);
    try assumption.
  - apply (tables_inv_setup img_in junk_r junk_g junk_b m img Hin HW HH).
  - rewrite (f1_eq img_in junk_r junk_g junk_b m img Hin HW HH) by lia.
    exact Hprev.
  - rewrite (f1_eq img_in junk_r junk_g junk_b m img Hin HW HH) by lia.
    rewrite (setup_pixel img_in junk_r junk_g junk_b m img Hin).
    exact Hbad.
Qed.

Lemma white_row_lookup : heap_white_row !! 0%nat = Some white_row.
Proof. apply lookup_singleton_eq. Qed.

Lemma white_row_pixel color x :
  0 <= color < 3 -> 0 <= x < 8421506 ->
  pixel heap_white_row 0%nat color 0 x = 255.
Proof.
  intros Hk Hx. unfold pixel, ImageGetPixel. rewrite white_row_lookup.
  unfold pixel_offset.
  change (width white_row) with 8421506.
  change (data white_row) with (repeat 255 (Z.to_nat (8421506 * 1 * 3))).
  rewrite load_repeat by lia. reflexivity.
Qed.

Lemma white_row_sums c :
  0 <= c < 8421506 ->
  row_sums (pixel heap_white_row 0%nat) (column0 zero_junk zero_junk zero_junk 8421506)
           (0, 0, c)
  = c * 255.
Proof.
  intros Hc.
  rewrite (row_sums_const (pixel heap_white_row 0%nat)
             (column0 zero_junk zero_junk zero_junk 8421506) 0 0 c 255).
  - reflexivity.
  - lia.
  - intros x Hx. apply white_row_pixel; lia.
Qed.

(** C8 fails as stated: on a white image of one row and 8421506 columns,
    with tables allocated in zero-filled memory, the addition that computes
    the last cell of the red row, 255 + 2147483520, leaves the range of
    [int]. *)
Lemma white_row_overflows :
  0 < width white_row /\ 0 < height white_row
  /\ overflowed (after_phase2 0%nat zero_junk zero_junk zero_junk heap_white_row)
     = true.
Proof.
  split; [reflexivity|]. split; [reflexivity|].
  apply (overflow_detected 0%nat zero_junk zero_junk zero_junk heap_white_row
           white_row 0 0 8421505 white_row_lookup).
  - reflexivity.
  - reflexivity.
  - change (width white_row) with 8421506. change (height white_row) with 1.
    unfold INT_MAX. lia.
  - lia.
  - change (height white_row) with 1. lia.
  - change (width white_row) with 8421506. lia.
  - change (width white_row) with 8421506.
    rewrite white_row_sums by lia. unfold in_int, INT_MIN, INT_MAX. lia.
  - change (width white_row) with 8421506.
    rewrite white_row_sums by lia. rewrite white_row_pixel by lia.
    unfold in_int, INT_MIN, INT_MAX. lia.
Qed.

(* ===================================================================== *)
(** ** The bounding box *)
(* ===================================================================== *)

(** C5 fails as stated. With [R = INT_MAX], on an image of one row and two
    columns, [col + R] wraps for the pixel in column 1 and the box the
    program derives has [x_max = INT_MIN]; on an image of 65536 x 65536
    pixels with [R = 65535], the product of the sides of the box of the
    first pixel, 2^32, wraps to 0. *)
Lemma bounding_box_wraps :
  (0 <= 2147483647 /\ 0 <= 0 < 1 /\ 0 <= 1 < 2
   /\ x_max (bounding_box 2147483647 1 2 0 1) = -2147483648
   /\ x_max (clamped_box 2147483647 1 2 0 1) = 1
   /\ bounding_box 2147483647 1 2 0 1 <> clamped_box 2147483647 1 2 0 1)
  /\ (0 <= 65535 /\ 0 <= 0 < 65536
      /\ bounding_box 65535 65536 65536 0 0 = clamped_box 65535 65536 65536 0 0
      /\ pixels (bounding_box 65535 65536 65536 0 0) = 0
      /\ window_count (bounding_box 65535 65536 65536 0 0) = 4294967296).
Proof.
  split.
  - repeat (split; [lia || reflexivity|]).
    intros Heq. apply (f_equal x_max) in Heq. vm_compute in Heq. discriminate.
  - repeat (split; [lia || reflexivity|]). reflexivity.
Qed.

(** Without wrap-around the box derived by the program is the clamped
    square of the specification. *)
Lemma bounding_box_exact R H W row col :
  0 <= R -> 0 <= row < H -> 0 <= col < W ->
  col + R <= INT_MAX -> row + R <= INT_MAX -> W <= INT_MAX -> H <= INT_MAX ->
  bounding_box R H W row col = clamped_box R H W row col.
Proof.
  intros HR Hrow Hcol HcR HrR HW HH.
  unfold bounding_box, clamped_box, int_sub, int_add.
  rewrite !min_spec, !max_spec.
  rewrite !wrap_id by (unfold in_int, INT_MIN, INT_MAX in *; lia).
  reflexivity.
Qed.

(** The pixel count of a box that lies in an image of at most [INT_MAX]
    pixels is the product of its sides. *)
Lemma pixels_exact H W bb :
  0 <= x_min bb <= x_max bb -> x_max bb < W ->
  0 <= y_min bb <= y_max bb -> y_max bb < H ->
  W * H <= INT_MAX ->
  pixels bb = window_count bb.
Proof.
  intros Hx Hx' Hy Hy' Hsz.
  assert (HWH : W <= W * H /\ H <= W * H) by nia.
  unfold pixels, window_count, int_sub, int_mul.
  destruct bb as [x0 x1 y0 y1]. cbn [x_min x_max y_min y_max] in *.
  rewrite (wrap_id (x0 - 1)) by (unfold in_int, INT_MIN, INT_MAX in *; lia).
  rewrite (wrap_id (y0 - 1)) by (unfold in_int, INT_MIN, INT_MAX in *; lia).
  rewrite (wrap_id (x1 - (x0 - 1))) by (unfold in_int, INT_MIN, INT_MAX in *; lia).
  rewrite (wrap_id (y1 - (y0 - 1))) by (unfold in_int, INT_MIN, INT_MAX in *; lia).
  assert (Hp : 0 <= (x1 - (x0 - 1)) * (y1 - (y0 - 1)) <= W * H).
  { split; [apply Z.mul_nonneg_nonneg; lia | apply Z.mul_le_mono_nonneg; lia]. }
  rewrite wrap_id by (unfold in_int, INT_MIN, INT_MAX in *; lia).
  f_equal; lia.
Qed.

(** The bounding box of a pixel and its pixel count, when no [int]
    operation wraps. *)
Lemma bounding_box_facts R H W row col :
  0 <= R -> 0 <= row < H -> 0 <= col < W ->
  col + R <= INT_MAX -> row + R <= INT_MAX -> W * H <= INT_MAX ->
  let bb := bounding_box R H W row col in
  bb = clamped_box R H W row col
  /\ pixels bb = window_count bb
  /\ 0 <= x_min bb <= x_max bb /\ x_max bb < W
  /\ 0 <= y_min bb <= y_max bb /\ y_max bb < H.
Proof.
  intros HR Hrow Hcol HcR HrR Hsz bb.
  assert (HWH : W <= W * H /\ H <= W * H) by nia.
  assert (Hbox : bb = clamped_box R H W row col)
    by (apply bounding_box_exact; lia).
  assert (Hrange : (0 <= x_min bb <= x_max bb /\ x_max bb < W)
                   /\ (0 <= y_min bb <= y_max bb /\ y_max bb < H)).
  { rewrite Hbox. unfold clamped_box. cbn [x_min x_max y_min y_max]. lia. }
  split; [exact Hbox|].
  split; [apply (pixels_exact H W); tauto|]. tauto.
Qed.

(** C5, as amended. For every pixel [(row, col)] of an image of at most
    [INT_MAX] pixels and every radius [R >= 0] with [col + R <= INT_MAX]
    and [row + R <= INT_MAX], the bounding box the program derives is the
    square of side [2R + 1] centred on the pixel and clamped to the image,
    and the pixel count is [(x_max - x_min + 1) * (y_max - y_min + 1)]. *)
Theorem bounding_box_clamped R H W row col :
  0 <= R -> 0 <= row < H -> 0 <= col < W ->
  col + R <= INT_MAX -> row + R <= INT_MAX -> W * H <= INT_MAX ->
  bounding_box R H W row col = clamped_box R H W row col
  /\ pixels (bounding_box R H W row col)
     = window_count (bounding_box R H W row col).
Proof.
  intros HR Hrow Hcol HcR HrR Hsz.
  destruct (bounding_box_facts R H W row col HR Hrow Hcol HcR HrR Hsz)
    as (Hbox & Hcount & _).
  split; assumption.
Qed.

Lemma bounding_box_clamped_witness :
  bounding_box 1 4 4 0 0 = clamped_box 1 4 4 0 0
  /\ pixels (bounding_box 1 4 4 0 0) = window_count (bounding_box 1 4 4 0 0).
Proof.
  apply (bounding_box_clamped 1 4 4 0 0); unfold INT_MAX; lia.
Defined.

(* ===================================================================== *)
(** ** Column 0 of the tables is never written *)
(* ===================================================================== *)

Lemma table_cell H W s color r c :
  0 <= color < 3 -> 0 <= r < H -> 0 <= c < W -> W * H <= INT_MAX ->
  table s W color r c = cell H W s (color, r, c).
Proof.
  intros Hk Hr Hc Hsz. unfold table.
  rewrite (idx_exact H) by assumption. symmetry. now apply cell_in.
Qed.

(** After the first part, column 0 of every table still holds what
    [malloc] left there, whatever the image. *)
Lemma column0_after_phase1 img_in junk_r junk_g junk_b (m : gmap nat Image)
    (img : Image) color r :
  m !! img_in = Some img ->
  0 < width img -> 0 < height img -> width img * height img <= INT_MAX ->
  0 <= color < 3 -> 0 <= r < height img ->
  table (after_phase1 img_in junk_r junk_g junk_b m) (width img) color r 0
  = column0 junk_r junk_g junk_b (width img) (color, r, 0).
Proof.
  intros Hin HW HH Hsz Hk Hr.
  rewrite (table_cell (height img)) by (assumption || lia).
  destruct (after_phase1_cells img_in junk_r junk_g junk_b m img Hin HW HH Hsz)
    as (_ & Hcells).
  rewrite Hcells by (assumption || lia).
  rewrite row_sums_0. unfold column0. apply wrap_wrap.
Qed.

(** After the first part, every cell from column 1 on is the pixel plus
    the cell to its left, as [int]s; no other row enters. *)
Lemma phase1_recurrence img_in junk_r junk_g junk_b (m : gmap nat Image)
    (img : Image) color r c :
  m !! img_in = Some img ->
  width img * height img <= INT_MAX ->
  0 <= color < 3 -> 0 <= r < height img -> 1 <= c < width img ->
  table (after_phase1 img_in junk_r junk_g junk_b m) (width img) color r c
  = int_add (pixel m img_in color r c)
            (table (after_phase1 img_in junk_r junk_g junk_b m) (width img)
                   color r (c - 1)).
Proof.
  intros Hin Hsz Hk Hr Hc.
  rewrite !(table_cell (height img)) by (assumption || lia).
  destruct (after_phase1_cells img_in junk_r junk_g junk_b m img Hin)
    as (_ & Hcells); try lia.
  rewrite !Hcells by (assumption || lia).
  rewrite (row_sums_step _ _ color r c) by lia.
  unfold int_add. rewrite wrap_add_r. f_equal. lia.
Qed.

(** After both parts, a table cell holds the sum, over the rows [0..r], of
    what [malloc] left in column 0 and of the pixels of columns [1..c],
    reduced to an [int]: the pixels of column 0 do not enter the tables. *)
Lemma table_after_both_parts img_in junk_r junk_g junk_b (m : gmap nat Image)
    (img : Image) color r c :
  m !! img_in = Some img ->
  0 < width img -> 0 < height img -> width img * height img <= INT_MAX ->
  0 <= color < 3 -> 0 <= r < height img -> 0 <= c < width img ->
  table (after_phase2 img_in junk_r junk_g junk_b m) (width img) color r c
  = wrap (accumulated m img_in junk_r junk_g junk_b (color, r, c)).
Proof.
  intros Hin HW HH Hsz Hk Hr Hc.
  rewrite (table_cell (height img)) by assumption.
  now apply (after_phase2_cells img_in junk_r junk_g junk_b m img Hin HW HH Hsz).
Qed.

(* ===================================================================== *)
(** ** Rectangle sums and the four-corner formula *)
(* ===================================================================== *)

Lemma sum_below_app f a b :
  sum_below f (a + b) = sum_below f a + sum_below (fun i => f (a + i)%nat) b.
Proof.
  induction b as [|b IH].
  - rewrite Nat.add_0_r. simpl. lia.
  - rewrite Nat.add_succ_r, !sum_below_last, IH. lia.
Qed.

Lemma sum_below_plus f g n :
  sum_below (fun i => f i + g i) n = sum_below f n + sum_below g n.
Proof.
  induction n as [|n IH]; [reflexivity|].
  rewrite !sum_below_last, IH. lia.
Qed.

Lemma sum_below_zero n : sum_below (fun _ => 0) n = 0.
Proof. induction n as [|n IH]; [reflexivity|]. rewrite sum_below_last, IH. lia. Qed.

(** The sum over [0..n] split at [k]: the part below [k] and the part
    from [k] on. *)
Lemma sum_below_split (g : Z -> Z) k n :
  0 <= k <= n + 1 ->
  sum_below (fun i => g (Z.of_nat i)) (Z.to_nat (n + 1))
  = sum_below (fun i => g (Z.of_nat i)) (Z.to_nat k)
    + sum_below (fun i => g (k + Z.of_nat i)) (Z.to_nat (n - k + 1)).
Proof.
  intros Hk.
  replace (Z.to_nat (n + 1)) with (Z.to_nat k + Z.to_nat (n - k + 1))%nat by lia.
  rewrite sum_below_app. f_equal.
  apply sum_below_ext. intros i _. f_equal. lia.
Qed.

Lemma rect_sum_ext f g x0 x1 y0 y1 :
  (forall y x, y0 <= y <= y1 -> x0 <= x <= x1 -> f y x = g y x) ->
  rect_sum f x0 x1 y0 y1 = rect_sum g x0 x1 y0 y1.
Proof.
  intros Hfg. unfold rect_sum.
  apply sum_below_ext. intros dy Hdy.
  apply sum_below_ext. intros dx Hdx.
  apply Hfg; lia.
Qed.

Lemma rect_sum_bounds f x0 x1 y0 y1 lo hi :
  x0 <= x1 + 1 -> y0 <= y1 + 1 ->
  (forall y x, y0 <= y <= y1 -> x0 <= x <= x1 -> lo <= f y x <= hi) ->
  (x1 - x0 + 1) * (y1 - y0 + 1) * lo <= rect_sum f x0 x1 y0 y1
  <= (x1 - x0 + 1) * (y1 - y0 + 1) * hi.
Proof.
  intros Hx Hy Hf. unfold rect_sum.
  assert (Hrow : forall dy, (dy < Z.to_nat (y1 - y0 + 1))%nat ->
            (x1 - x0 + 1) * lo
            <= sum_below (fun dx => f (y0 + Z.of_nat dy) (x0 + Z.of_nat dx))
                         (Z.to_nat (x1 - x0 + 1))
            <= (x1 - x0 + 1) * hi).
  { intros dy Hdy.
    pose proof (sum_below_bounds
                  (fun dx => f (y0 + Z.of_nat dy) (x0 + Z.of_nat dx))
                  (Z.to_nat (x1 - x0 + 1)) lo hi) as Hb.
    rewrite Z2Nat.id in Hb by lia. apply Hb.
    intros dx Hdx. apply Hf; lia. }
  pose proof (sum_below_bounds _ _ _ _ Hrow) as Hb.
  rewrite Z2Nat.id in Hb by lia. lia.
Qed.

Lemma rect_sum_empty_rows f x0 x1 y0 : rect_sum f x0 x1 y0 (y0 - 1) = 0.
Proof.
  unfold rect_sum. replace (Z.to_nat (y0 - 1 - y0 + 1)) with O by lia. reflexivity.
Qed.

Lemma rect_sum_empty_cols f x0 y0 y1 : rect_sum f x0 (x0 - 1) y0 y1 = 0.
Proof.
  unfold rect_sum. replace (Z.to_nat (x0 - 1 - x0 + 1)) with O by lia.
  apply sum_below_zero.
Qed.

(** The rows [0..y1] split into the rows above [y0] and the rows from [y0]
    on. *)
Lemma rect_sum_split_rows f x0 x1 y0 y1 :
  0 <= y0 <= y1 + 1 ->
  rect_sum f x0 x1 0 y1 = rect_sum f x0 x1 0 (y0 - 1) + rect_sum f x0 x1 y0 y1.
Proof.
  intros Hy. unfold rect_sum.
  replace (y1 - 0 + 1) with (y1 + 1) by lia.
  replace (y0 - 1 - 0 + 1) with y0 by lia.
  apply (sum_below_split
           (fun y => sum_below (fun dx => f y (x0 + Z.of_nat dx))
                               (Z.to_nat (x1 - x0 + 1)))
           y0 y1 Hy).
Qed.

(** The columns [0..x1] split into the columns left of [x0] and the
    columns from [x0] on. *)
Lemma rect_sum_split_cols f x0 x1 y0 y1 :
  0 <= x0 <= x1 + 1 ->
  rect_sum f 0 x1 y0 y1 = rect_sum f 0 (x0 - 1) y0 y1 + rect_sum f x0 x1 y0 y1.
Proof.
  intros Hx. unfold rect_sum.
  rewrite <- sum_below_plus. apply sum_below_ext. intros dy _.
  replace (x1 - 0 + 1) with (x1 + 1) by lia.
  replace (x0 - 1 - 0 + 1) with x0 by lia.
  apply (sum_below_split (fun x => f (y0 + Z.of_nat dy) x) x0 x1 Hx).
Qed.

(** Inclusion-exclusion: the sum over a window from the four inclusive
    prefix sums at its corners. *)
Lemma rect_sum_four_corners f x0 x1 y0 y1 :
  0 <= x0 <= x1 + 1 -> 0 <= y0 <= y1 + 1 ->
  rect_sum f x0 x1 y0 y1
  = rect_sum f 0 x1 0 y1 - rect_sum f 0 x1 0 (y0 - 1)
    - rect_sum f 0 (x0 - 1) 0 y1 + rect_sum f 0 (x0 - 1) 0 (y0 - 1).
Proof.
  intros Hx Hy.
  rewrite (rect_sum_split_rows f 0 x1 y0 y1 Hy).
  rewrite (rect_sum_split_rows f 0 (x0 - 1) y0 y1 Hy).
  rewrite (rect_sum_split_cols f x0 x1 y0 y1 Hx).
  lia.
Qed.

(* ===================================================================== *)
(** ** What the averaging pass computes *)
(* ===================================================================== *)

Lemma wrap_four a b c d :
  wrap (wrap d - wrap b - wrap c + wrap a) = wrap (d - b - c + a).
Proof.
  destruct (wrap_decomp a) as [ka ->]. destruct (wrap_decomp b) as [kb ->].
  destruct (wrap_decomp c) as [kc ->]. destruct (wrap_decomp d) as [kd ->].
  replace (d + kd * 4294967296 - (b + kb * 4294967296) - (c + kc * 4294967296)
           + (a + ka * 4294967296))
    with (d - b - c + a + (kd - kb - kc + ka) * 4294967296) by lia.
  apply wrap_shift.
Qed.

Lemma accumulated_rect (m : gmap nat Image) img_in junk_r junk_g junk_b color r c :
  0 <= c ->
  accumulated m img_in junk_r junk_g junk_b (color, r, c)
  = rect_sum (table_entry m img_in junk_r junk_g junk_b color) 0 c 0 r.
Proof.
  intros Hc. unfold accumulated, col_sums, rect_sum.
  replace (r - 0 + 1) with (r + 1) by lia.
  apply sum_below_ext. intros y _. unfold row_sums.
  replace (Z.to_nat (c - 0 + 1)) with (1 + Z.to_nat c)%nat by lia.
  rewrite sum_below_app. f_equal.
  apply sum_below_ext. intros j _. unfold table_entry.
  replace (0 + Z.of_nat (1 + j)) with (Z.of_nat j + 1) by lia.
  destruct (Z.eqb_spec (Z.of_nat j + 1) 0); [lia|]. reflexivity.
Qed.

(** The value [main] writes for a pixel is the one computed from the tables
    of the second part. *)
Lemma main_output_blurred R img_in junk_r junk_g junk_b (m : gmap nat Image)
    row col color :
  0 <= row < image_height m img_in -> 0 <= col < image_width m img_in ->
  0 <= color < 3 ->
  ImageGetPixel (images (snd (main R img_in junk_r junk_g junk_b m)))
    (fst (main R img_in junk_r junk_g junk_b m)) col row color
  = blurred (after_phase2 img_in junk_r junk_g junk_b m) R
      (image_height m img_in) (image_width m img_in) row col color.
Proof.
  intros Hrow Hcol Hcolor. rewrite main_unfold. simpl.
  destruct (phase3_cells R (fst (setup img_in junk_r junk_g junk_b m))
              (image_height m img_in) (image_width m img_in)
              (after_phase2 img_in junk_r junk_g junk_b m)) as (_ & Hcells).
  { apply averaging_inv_start; lia. }
  now apply Hcells.
Qed.

Section WindowSum.
Variables (R : Z) (img_in : nat) (junk_r junk_g junk_b : nat -> Z).
Variables (m : gmap nat Image) (img : Image).
Hypothesis Hin : m !! img_in = Some img.
Hypothesis Hsz : width img * height img <= INT_MAX.
Variables (row col color : Z).
Hypothesis Hrow : 0 <= row < height img.
Hypothesis Hcol : 0 <= col < width img.
Hypothesis Hcolor : 0 <= color < 3.
Hypothesis HR : 0 <= R.
Hypothesis HcR : col + R <= INT_MAX.
Hypothesis HrR : row + R <= INT_MAX.

Let H : Z := height img.
Let W : Z := width img.
Let bb : BoundingBox := bounding_box R H W row col.
Let s2 : state := after_phase2 img_in junk_r junk_g junk_b m.
Let entry : Z -> Z -> Z := table_entry m img_in junk_r junk_g junk_b color.

Lemma window_box :
  bb = clamped_box R H W row col
  /\ pixels bb = window_count bb
  /\ 0 <= x_min bb <= x_max bb /\ x_max bb < W
  /\ 0 <= y_min bb <= y_max bb /\ y_max bb < H.
Proof.
  apply bounding_box_facts; assumption.
Qed.

Lemma table_prefix r c :
  -1 <= r < H -> -1 <= c < W ->
  (if (r =? -1) || (c =? -1) then 0 else table s2 W color r c)
  = wrap (rect_sum entry 0 c 0 r).
Proof.
  intros Hr Hc.
  destruct (Z.eqb_spec r (-1)) as [->|Hr'].
  - cbn [orb]. change (-1) with (0 - 1). now rewrite rect_sum_empty_rows.
  - destruct (Z.eqb_spec c (-1)) as [->|Hc'].
    + cbn [orb]. change (-1) with (0 - 1). now rewrite rect_sum_empty_cols.
    + cbn [orb]. unfold s2, W, entry.
      rewrite (table_after_both_parts img_in junk_r junk_g junk_b m img color r c)
        by (assumption || unfold H, W in *; lia).
      now rewrite accumulated_rect by lia.
Qed.

(** The windowed sum of the program is the sum, over the clamped window,
    of what entered the tables, reduced to an [int]. *)
Lemma window_sum_entries :
  window_sum (sums_color s2 color) W bb
  = wrap (rect_sum entry (x_min bb) (x_max bb) (y_min bb) (y_max bb)).
Proof.
  destruct window_box as (_ & _ & Hx & Hx' & Hy & Hy').
  destruct (bounding_box_min_range R H W row col) as (Hxr & Hyr).
  fold bb in Hxr, Hyr.
  unfold window_sum.
  rewrite corner_a_eq, corner_b_eq, corner_c_eq by assumption.
  unfold corner_d. rewrite window_sum_eq.
  change (load (sums_color s2 color) (idx (y_max bb) (x_max bb) W 1))
    with (table s2 W color (y_max bb) (x_max bb)).
  change (load (sums_color s2 color) (idx (y_min bb - 1) (x_max bb) W 1))
    with (table s2 W color (y_min bb - 1) (x_max bb)).
  change (load (sums_color s2 color) (idx (y_max bb) (x_min bb - 1) W 1))
    with (table s2 W color (y_max bb) (x_min bb - 1)).
  change (load (sums_color s2 color) (idx (y_min bb - 1) (x_min bb - 1) W 1))
    with (table s2 W color (y_min bb - 1) (x_min bb - 1)).
  pose proof (table_prefix (y_max bb) (x_max bb)) as Hd.
  pose proof (table_prefix (y_min bb - 1) (x_max bb)) as Hb.
  pose proof (table_prefix (y_max bb) (x_min bb - 1)) as Hc.
  pose proof (table_prefix (y_min bb - 1) (x_min bb - 1)) as Ha.
  replace (y_max bb =? -1) with false in Hd, Hc by (symmetry; apply Z.eqb_neq; lia).
  replace (x_max bb =? -1) with false in Hd, Hb by (symmetry; apply Z.eqb_neq; lia).
  replace (y_min bb - 1 =? -1) with (y_min bb =? 0) in Hb, Ha
    by (destruct (Z.eqb_spec (y_min bb) 0), (Z.eqb_spec (y_min bb - 1) (-1)); lia).
  replace (x_min bb - 1 =? -1) with (x_min bb =? 0) in Hc, Ha
    by (destruct (Z.eqb_spec (x_min bb) 0), (Z.eqb_spec (x_min bb - 1) (-1)); lia).
  cbn [orb] in Hd, Hb, Hc. rewrite orb_false_r in Hb.
  rewrite Hd, Hb, Hc, Ha by lia.
  rewrite wrap_four. f_equal.
  symmetry. apply rect_sum_four_corners; lia.
Qed.

(** The value written for a pixel: the average, through [float], of the
    sum over the clamped window of what entered the tables. *)
Lemma output_entries :
  ImageGetPixel (images (snd (main R img_in junk_r junk_g junk_b m)))
    (fst (main R img_in junk_r junk_g junk_b m)) col row color
  = average (wrap (rect_sum entry (x_min bb) (x_max bb) (y_min bb) (y_max bb)))
            (window_count bb).
Proof.
  destruct window_box as (_ & Hcount & _).
  assert (Hdims : image_height m img_in = H /\ image_width m img_in = W)
    by (unfold image_height, image_width; now rewrite Hin).
  destruct Hdims as (HeqH & HeqW).
  rewrite main_output_blurred by (rewrite ?HeqH, ?HeqW; assumption).
  rewrite HeqH, HeqW. unfold blurred. fold bb. fold s2.
  now rewrite window_sum_entries, Hcount.
Qed.

End WindowSum.

(* ===================================================================== *)
(** ** The averaging step: four corners and a division *)
(* ===================================================================== *)

Lemma after_phase2_length img_in junk_r junk_g junk_b (m : gmap nat Image)
    (img : Image) color :
  m !! img_in = Some img ->
  0 < width img -> 0 < height img -> width img * height img <= INT_MAX ->
  Z.of_nat (length (sums_color (after_phase2 img_in junk_r junk_g junk_b m) color))
  = height img * width img.
Proof.
  intros Hin HW HH Hsz.
  destruct (image_dims img_in m img Hin) as (HeqH & HeqW).
  destruct (after_phase1_cells img_in junk_r junk_g junk_b m img Hin HW HH Hsz)
    as (Hinv1 & _).
  destruct (phase2_cells (height img) (width img)
              (after_phase1 img_in junk_r junk_g junk_b m) HW HH Hsz
              (tables_inv_restart _ _ _ _ _ _ Hinv1)) as (Hinv2 & _).
  unfold after_phase2. rewrite HeqH, HeqW.
  rewrite (length_sums_color _ _ _ _ _ color Hinv2). nia.
Qed.

Lemma load_app l1 l2 i :
  0 <= i ->
  load (l1 ++ l2) i
  = if i <? Z.of_nat (length l1) then load l1 i
    else load l2 (i - Z.of_nat (length l1)).
Proof.
  intros Hi. unfold load.
  destruct (Z.ltb_spec i 0); [lia|].
  destruct (Z.ltb_spec i (Z.of_nat (length l1))).
  - apply app_nth1. lia.
  - destruct (Z.ltb_spec (i - Z.of_nat (length l1)) 0); [lia|].
    rewrite app_nth2 by lia. f_equal. lia.
Qed.

Lemma grey_lookup : heap_grey !! 0%nat = Some image_grey.
Proof. apply lookup_singleton_eq. Qed.

Lemma grey_pixel_read color y x :
  0 <= color < 3 -> 0 <= y < 260 -> 0 <= x < 261 ->
  pixel heap_grey 0%nat color y x = grey_pixel y x.
Proof.
  intros Hk Hy Hx. unfold pixel, ImageGetPixel. rewrite grey_lookup.
  unfold pixel_offset.
  change (width image_grey) with 261.
  change (data image_grey)
    with (repeat 252 (Z.to_nat 789) ++ repeat 251 (Z.to_nat 3)
          ++ repeat 252 (Z.to_nat 202788)).
  unfold grey_pixel.
  rewrite load_app by lia. rewrite repeat_length.
  destruct (Z.ltb_spec ((y * 261 + x) * 3 + color) (Z.of_nat (Z.to_nat 789))) as [Hlt|Hge].
  - rewrite load_repeat by lia.
    assert (Hyx : y * 261 + x < 263) by lia.
    destruct (Z.eqb_spec y 1) as [->|Hy1]; [|reflexivity].
    destruct (Z.eqb_spec x 2) as [->|Hx2]; [lia|reflexivity].
  - rewrite load_app by lia. rewrite repeat_length.
    destruct (Z.ltb_spec ((y * 261 + x) * 3 + color - Z.of_nat (Z.to_nat 789))
                (Z.of_nat (Z.to_nat 3))) as [Hlt'|Hge'].
    + rewrite load_repeat by lia.
      assert (Hyx : y * 261 + x = 263) by lia.
      assert (y = 1) as -> by lia. assert (x = 2) as -> by lia. reflexivity.
    + rewrite load_repeat by lia.
      assert (Hyx : 264 <= y * 261 + x) by lia.
      destruct (Z.eqb_spec y 1) as [->|Hy1]; [|reflexivity].
      destruct (Z.eqb_spec x 2) as [->|Hx2]; [lia|reflexivity].
Qed.

(** What enters the tables for the grey image when the memory of the
    tables is zero-filled. *)
Lemma grey_entry color y x :
  0 <= color < 3 -> 0 <= y < 260 -> 0 <= x < 261 ->
  table_entry heap_grey 0%nat zero_junk zero_junk zero_junk color y x
  = if x =? 0 then 0 else grey_pixel y x.
Proof.
  intros Hk Hy Hx. unfold table_entry.
  destruct (Z.eqb_spec x 0) as [->|Hx0].
  - unfold column0, junk_of, zero_junk. now destruct (color =? 0), (color =? 1).
  - now apply grey_pixel_read.
Qed.

(** The cells of the red table of the grey image. *)
Lemma grey_table r c :
  0 <= r < 260 -> 0 <= c < 261 ->
  table (after_phase2 0%nat zero_junk zero_junk zero_junk heap_grey) 261 0 r c
  = wrap (rect_sum (fun y x => if x =? 0 then 0 else grey_pixel y x) 0 c 0 r).
Proof.
  intros Hr Hc.
  pose proof (table_prefix 0%nat zero_junk zero_junk zero_junk heap_grey image_grey
                grey_lookup ltac:(vm_compute; discriminate) 0 0
                ltac:(vm_compute; split; [discriminate | reflexivity])
                ltac:(lia) r c) as Ht.
  change (height image_grey) with 260 in Ht.
  change (width image_grey) with 261 in Ht.
  specialize (Ht ltac:(lia) ltac:(lia)).
  replace (r =? -1) with false in Ht by (symmetry; apply Z.eqb_neq; lia).
  replace (c =? -1) with false in Ht by (symmetry; apply Z.eqb_neq; lia).
  cbn [orb] in Ht. rewrite Ht. f_equal.
  apply rect_sum_ext. intros y x Hy Hx. apply grey_entry; lia.
Qed.

(** C4 fails as stated: the quotient is not always truncated. On a grey
    image of 260 rows and 261 columns whose samples are all 252 but for
    one of 251, with [R = 129] and the tables in zero-filled memory, the
    window of the pixel of row 130 and column 131 has 67081 pixels; the
    corners are [a = 252], [b = c = 65520], [d = 17035199] and the sum
    [d - b - c + a] is 16904411. The conversion to [float] rounds the sum
    to 16904412, the quotient is 252.0 and the value written is 252, where
    the sum divided by the count, the fraction discarded, is 251. *)
Lemma window_average_rounds :
  let out := main 129 0%nat zero_junk zero_junk zero_junk heap_grey in
  let H := height image_grey in
  let W := width image_grey in
  let bb := bounding_box 129 H W 130 131 in
  let t := table (snd out) W 0 in
  let a := t (y_min bb - 1) (x_min bb - 1) in
  let b := t (y_min bb - 1) (x_max bb) in
  let c := t (y_max bb) (x_min bb - 1) in
  let d := t (y_max bb) (x_max bb) in
  (W * H <= INT_MAX /\ 0 <= 130 < H /\ 0 <= 131 < W
   /\ 131 + 129 <= INT_MAX /\ 130 + 129 <= INT_MAX)
  /\ bb = mkBox 2 260 1 259
  /\ pixels bb = 67081
  /\ (a = 252 /\ b = 65520 /\ c = 65520 /\ d = 17035199)
  /\ wrap (d - b - c + a) = 16904411
  /\ window_sum (sums_color (snd out) 0) W bb = 16904411
  /\ ImageGetPixel (images (snd out)) (fst out) 131 130 0 = 252
  /\ Z.quot 16904411 67081 = 251
  /\ brute_force heap_grey 0%nat 129 0 130 131 = 251.
Proof.
  intros out H W bb t a b c d.
  pose proof grey_lookup as Hin.
  assert (HH : image_height heap_grey 0%nat = 260)
    by (unfold image_height; rewrite Hin; reflexivity).
  assert (HW : image_width heap_grey 0%nat = 261)
    by (unfold image_width; rewrite Hin; reflexivity).
  assert (Hbb : bb = mkBox 2 260 1 259) by reflexivity.
  assert (Hpix : pixels bb = 67081) by reflexivity.
  assert (Ht : forall r c', 0 <= r < 260 -> 0 <= c' < 261 ->
            t r c'
            = wrap (rect_sum (fun y x => if x =? 0 then 0 else grey_pixel y x)
                      0 c' 0 r)).
  { intros r c' Hr Hc. unfold t, out, table. rewrite sums_color_main.
    now apply grey_table. }
  assert (Ha : a = 252).
  { unfold a. rewrite Hbb. cbn [x_min y_min]. rewrite Ht by lia.
    vm_compute. reflexivity. }
  assert (Hb : b = 65520).
  { unfold b. rewrite Hbb. cbn [x_max y_min]. rewrite Ht by lia.
    vm_compute. reflexivity. }
  assert (Hc : c = 65520).
  { unfold c. rewrite Hbb. cbn [x_min y_max]. rewrite Ht by lia.
    vm_compute. reflexivity. }
  assert (Hd : d = 17035199).
  { unfold d. rewrite Hbb. cbn [x_max y_max]. rewrite Ht by lia.
    vm_compute. reflexivity. }
  assert (Hsum : window_sum (sums_color (snd out) 0) W bb = 16904411).
  { unfold window_sum, corner_a, corner_b, corner_c, corner_d.
    rewrite Hbb. cbn [x_min x_max y_min y_max].
    change (1 <? 1) with false. change (2 <? 1) with false. cbn [orb].
    change (int_sub 1 1) with (1 - 1). change (int_sub 2 1) with (2 - 1).
    unfold a, b, c, d in Ha, Hb, Hc, Hd.
    rewrite Hbb in Ha, Hb, Hc, Hd. cbn [x_min x_max y_min y_max] in Ha, Hb, Hc, Hd.
    unfold t, table in Ha, Hb, Hc, Hd.
    rewrite Ha, Hb, Hc, Hd. reflexivity. }
  split; [vm_compute; repeat split; discriminate || reflexivity|].
  split; [exact Hbb|]. split; [exact Hpix|].
  split; [auto|].
  split; [rewrite Ha, Hb, Hc, Hd; reflexivity|].
  split; [exact Hsum|].
  split; [|split; [reflexivity|]].
  - unfold out.
    rewrite main_output_blurred by (rewrite ?HH, ?HW; lia).
    rewrite HH, HW. unfold blurred.
    change (bounding_box 129 260 261 130 131) with bb.
    unfold out in Hsum. rewrite sums_color_main in Hsum.
    change W with 261 in Hsum.
    rewrite Hsum, Hpix. vm_compute. reflexivity.
  - unfold brute_force, window_pixels_sum. rewrite HH, HW.
    change (clamped_box 129 260 261 130 131) with (mkBox 2 260 1 259).
    cbn [x_min x_max y_min y_max].
    rewrite (rect_sum_ext _ grey_pixel)
      by (intros y x Hy Hx; apply grey_pixel_read; lia).
    vm_compute. reflexivity.
Qed.

(** C4, as amended. For every pixel [(row, col)] of an image of at most
    [INT_MAX] pixels, every channel and every radius [R >= 0] with
    [col + R <= INT_MAX] and [row + R <= INT_MAX], the four table cells
    [a], [b], [c], [d] at the corners of the bounding box are read inside
    the table ([a], [b], [c] being 0, and not read, when [y_min = 0] or
    [x_min = 0]); the value [main] writes is their combination
    [d - b - c + a], as an [int], converted to [float], divided by the
    pixel count and converted to [unsigned char]. When the windowed sum is
    below [2^24] in absolute value and the pixel count is below [2^24],
    the integral part of the [float] quotient is the integer quotient of
    the sum by the count truncated toward zero, not rounded, and it is the
    value written when it lies in 0..255. *)
Theorem window_average_four_corners R img_in junk_r junk_g junk_b
    (m : gmap nat Image) (img : Image) row col color :
  let H := height img in
  let W := width img in
  let img_out := fst (main R img_in junk_r junk_g junk_b m) in
  let s := snd (main R img_in junk_r junk_g junk_b m) in
  let bb := bounding_box R H W row col in
  let t := table s W color in
  let a := if (y_min bb =? 0) || (x_min bb =? 0) then 0
           else t (y_min bb - 1) (x_min bb - 1) in
  let b := if y_min bb =? 0 then 0 else t (y_min bb - 1) (x_max bb) in
  let c := if x_min bb =? 0 then 0 else t (y_max bb) (x_min bb - 1) in
  let d := t (y_max bb) (x_max bb) in
  let windowed_sum := wrap (d - b - c + a) in
  let quotient := float_div (float_of_int windowed_sum) (float_of_int (pixels bb)) in
  let n := Z.of_nat (length (sums_color s color)) in
  m !! img_in = Some img ->
  W * H <= INT_MAX ->
  0 <= row < H -> 0 <= col < W -> 0 <= color < 3 ->
  0 <= R -> col + R <= INT_MAX -> row + R <= INT_MAX ->
  (0 <= idx (y_max bb) (x_max bb) W 1 < n
   /\ (y_min bb <> 0 -> 0 <= idx (y_min bb - 1) (x_max bb) W 1 < n)
   /\ (x_min bb <> 0 -> 0 <= idx (y_max bb) (x_min bb - 1) W 1 < n)
   /\ (y_min bb <> 0 -> x_min bb <> 0 ->
       0 <= idx (y_min bb - 1) (x_min bb - 1) W 1 < n))
  /\ ImageGetPixel (images s) img_out col row color = uchar_of_float quotient
  /\ (- 2 ^ 24 < windowed_sum < 2 ^ 24 -> pixels bb < 2 ^ 24 ->
      float_trunc quotient = Z.quot windowed_sum (pixels bb)
      /\ (0 <= Z.quot windowed_sum (pixels bb) <= 255 ->
          ImageGetPixel (images s) img_out col row color
          = Z.quot windowed_sum (pixels bb))).
Proof.
  intros H W img_out s bb t a b c d windowed_sum quotient n
    Hin Hsz Hrow Hcol Hcolor HR HcR HrR.
  destruct (image_dims img_in m img Hin) as (HeqH & HeqW). fold H in HeqH. fold W in HeqW.
  destruct (bounding_box_facts R H W row col HR Hrow Hcol HcR HrR Hsz)
    as (_ & Hpix & Hx & Hx' & Hy & Hy').
  fold bb in Hpix, Hx, Hx', Hy, Hy'.
  assert (Hn : n = H * W).
  { unfold n, s. rewrite sums_color_main.
    apply after_phase2_length; (assumption || (unfold H, W in *; lia)). }
  assert (Hcell : forall r c', 0 <= r < H -> 0 <= c' < W -> 0 <= idx r c' W 1 < n).
  { intros r c' Hr Hc. rewrite (idx_exact H) by assumption. rewrite Hn. nia. }
  assert (Hout : ImageGetPixel (images s) img_out col row color = uchar_of_float quotient).
  { unfold s, img_out.
    rewrite main_output_blurred by (rewrite ?HeqH, ?HeqW; assumption).
    rewrite HeqH, HeqW.
    pose proof (blurred_corners s R H W row col color) as Hbl. cbv zeta in Hbl.
    unfold quotient, windowed_sum, a, b, c, d, t, bb. rewrite <- Hbl.
    unfold blurred, s. now rewrite sums_color_main. }
  split; [|split].
  - split; [apply Hcell; lia|]. split; [|split].
    + intros Hy1. apply Hcell; lia.
    + intros Hx1. apply Hcell; lia.
    + intros Hy1 Hx1. apply Hcell; lia.
  - exact Hout.
  - intros Hsum Hcount.
    assert (Hcnt : 1 <= pixels bb).
    { rewrite Hpix. unfold window_count.
      assert (1 * 1 <= (x_max bb - x_min bb + 1) * (y_max bb - y_min bb + 1))
        by (apply Z.mul_le_mono_nonneg; lia).
      lia. }
    assert (Hq : float_trunc quotient = Z.quot windowed_sum (pixels bb))
      by (apply float_quotient_toward_zero; lia).
    split; [exact Hq|].
    intros Hrange. rewrite Hout. unfold uchar_of_float. rewrite Hq.
    apply Z.mod_small. lia.
Qed.

Lemma window_average_four_corners_witness :
  let s := snd (main 1 0%nat zero_junk zero_junk zero_junk heap_4x4) in
  let bb := bounding_box 1 4 4 2 3 in
  bb = mkBox 2 3 1 3 /\ pixels bb = 6
  /\ table s 4 0 0 1 = 20 /\ table s 4 0 0 3 = 90
  /\ table s 4 0 3 1 = 320 /\ table s 4 0 3 3 = 1085
  /\ wrap (1085 - 90 - 320 + 20) = 695
  /\ ImageGetPixel (images s)
       (fst (main 1 0%nat zero_junk zero_junk zero_junk heap_4x4)) 3 2 0
     = Z.quot 695 6
  /\ Z.quot 695 6 = 115.
Proof.
  destruct (window_average_four_corners 1 0%nat zero_junk zero_junk zero_junk
              heap_4x4 image_4x4 2 3 0) as (_ & _ & Hq).
  - vm_compute. reflexivity.
  - unfold INT_MAX. simpl. lia.
  - simpl. lia.
  - simpl. lia.
  - lia.
  - lia.
  - unfold INT_MAX. lia.
  - unfold INT_MAX. lia.
  - destruct Hq as (_ & Hv).
    + vm_compute. split; reflexivity.
    + vm_compute. reflexivity.
    + do 7 (split; [vm_compute; reflexivity|]).
      split; [|reflexivity].
      etransitivity; [apply Hv; vm_compute; split; discriminate|].
      vm_compute. reflexivity.
Defined.


(* ===================================================================== *)
(** ** Where the output is right, and where it is not *)
(* ===================================================================== *)

(** Dividing an 8-bit value by 1 in [float] and discarding the fraction
    gives the value back. *)
Lemma average_one v : 0 <= v <= 255 -> average v 1 = v.
Proof.
  intros Hv. rewrite average_exact by lia. apply Z.div_1_r.
Qed.

Lemma rect_sum_single f x y : rect_sum f x x y y = f y x.
Proof.
  unfold rect_sum.
  replace (Z.to_nat (x - x + 1)) with 1%nat by lia.
  replace (Z.to_nat (y - y + 1)) with 1%nat by lia.
  simpl. rewrite !Z.add_0_r. reflexivity.
Qed.

(** With [R = 0] the output equals the input at every pixel outside
    column 0. *)
Lemma radius0_identity_off_column0 img_in junk_r junk_g junk_b
    (m : gmap nat Image) (img : Image) row col color :
  m !! img_in = Some img ->
  width img * height img <= INT_MAX ->
  0 <= row < height img -> 1 <= col < width img -> 0 <= color < 3 ->
  ImageGetPixel (images (snd (main 0 img_in junk_r junk_g junk_b m)))
    (fst (main 0 img_in junk_r junk_g junk_b m)) col row color
  = ImageGetPixel m img_in col row color.
Proof.
  intros Hin Hsz Hrow Hcol Hcolor.
  assert (HWH : width img <= width img * height img
                /\ height img <= width img * height img) by nia.
  rewrite (output_entries 0 img_in junk_r junk_g junk_b m img Hin Hsz row col color)
    by (unfold INT_MAX in *; lia).
  rewrite (bounding_box_exact 0 (height img) (width img) row col)
    by (unfold INT_MAX in *; lia).
  unfold clamped_box, window_count. cbn [x_min x_max y_min y_max].
  replace (Z.max (col - 0) 0) with col by lia.
  replace (Z.min (col + 0) (width img - 1)) with col by lia.
  replace (Z.max (row - 0) 0) with row by lia.
  replace (Z.min (row + 0) (height img - 1)) with row by lia.
  rewrite rect_sum_single. unfold table_entry.
  destruct (Z.eqb_spec col 0); [lia|].
  replace ((col - col + 1) * (row - row + 1)) with 1 by lia.
  pose proof (pixel_range m img_in color row col) as Hpx.
  rewrite wrap_id by (unfold in_int, INT_MIN, INT_MAX; lia).
  rewrite average_one by exact Hpx. reflexivity.
Qed.

(** With [R = 0] the output in column 0 is what [malloc] left in the table
    cell, divided by 1: it does not depend on the input pixel. *)
Lemma radius0_column0_is_junk img_in junk_r junk_g junk_b
    (m : gmap nat Image) (img : Image) row color :
  m !! img_in = Some img ->
  width img * height img <= INT_MAX ->
  0 <= row < height img -> 0 < width img -> 0 <= color < 3 ->
  ImageGetPixel (images (snd (main 0 img_in junk_r junk_g junk_b m)))
    (fst (main 0 img_in junk_r junk_g junk_b m)) 0 row color
  = average (column0 junk_r junk_g junk_b (width img) (color, row, 0)) 1.
Proof.
  intros Hin Hsz Hrow HW Hcolor.
  assert (HWH : width img <= width img * height img
                /\ height img <= width img * height img) by nia.
  rewrite (output_entries 0 img_in junk_r junk_g junk_b m img Hin Hsz row 0 color)
    by (unfold INT_MAX in *; lia).
  rewrite (bounding_box_exact 0 (height img) (width img) row 0)
    by (unfold INT_MAX in *; lia).
  unfold clamped_box, window_count. cbn [x_min x_max y_min y_max].
  replace (Z.max (0 - 0) 0) with 0 by lia.
  replace (Z.min (0 + 0) (width img - 1)) with 0 by lia.
  replace (Z.max (row - 0) 0) with row by lia.
  replace (Z.min (row + 0) (height img - 1)) with row by lia.
  rewrite rect_sum_single. unfold table_entry. cbn [Z.eqb].
  replace ((0 - 0 + 1) * (row - row + 1)) with 1 by lia.
  unfold image_width. rewrite Hin.
  unfold column0. now rewrite wrap_wrap.
Qed.

(** With [R >= max(W, H)] every window is the whole image: every output
    value of a channel is the bottom-right cell of its table divided by
    [W * H]. *)
Lemma large_radius_output R img_in junk_r junk_g junk_b
    (m : gmap nat Image) (img : Image) row col color :
  m !! img_in = Some img ->
  width img * height img <= INT_MAX ->
  0 <= row < height img -> 0 <= col < width img -> 0 <= color < 3 ->
  Z.max (width img) (height img) <= R ->
  col + R <= INT_MAX -> row + R <= INT_MAX ->
  ImageGetPixel (images (snd (main R img_in junk_r junk_g junk_b m)))
    (fst (main R img_in junk_r junk_g junk_b m)) col row color
  = average (table (after_phase2 img_in junk_r junk_g junk_b m) (width img)
                   color (height img - 1) (width img - 1))
            (width img * height img).
Proof.
  intros Hin Hsz Hrow Hcol Hcolor HR HcR HrR.
  assert (HWH : width img <= width img * height img
                /\ height img <= width img * height img) by nia.
  rewrite (output_entries R img_in junk_r junk_g junk_b m img Hin Hsz row col color)
    by (assumption || lia).
  rewrite (bounding_box_exact R (height img) (width img) row col)
    by (unfold INT_MAX in *; lia).
  unfold clamped_box, window_count. cbn [x_min x_max y_min y_max].
  replace (Z.max (col - R) 0) with 0 by lia.
  replace (Z.min (col + R) (width img - 1)) with (width img - 1) by lia.
  replace (Z.max (row - R) 0) with 0 by lia.
  replace (Z.min (row + R) (height img - 1)) with (height img - 1) by lia.
  rewrite <- accumulated_rect by lia.
  rewrite <- (table_after_both_parts img_in junk_r junk_g junk_b m img)
    by (assumption || lia).
  f_equal. lia.
Qed.

(** Where the window does not reach column 0, the windowed sum is the sum
    of the input pixels of the window. *)
Lemma window_sum_off_column0 R img_in junk_r junk_g junk_b
    (m : gmap nat Image) (img : Image) row col color :
  m !! img_in = Some img ->
  255 * width img * height img <= INT_MAX ->
  0 <= row < height img -> 0 <= col < width img -> 0 <= color < 3 ->
  0 <= R -> col + R <= INT_MAX -> row + R <= INT_MAX ->
  1 <= col - R ->
  let bb := bounding_box R (height img) (width img) row col in
  window_sum (sums_color (after_phase2 img_in junk_r junk_g junk_b m) color)
             (width img) bb
  = window_pixels_sum m img_in color (x_min bb) (x_max bb) (y_min bb) (y_max bb).
Proof.
  intros Hin Hsz Hrow Hcol Hcolor HR HcR HrR Hoff bb.
  assert (Hsz' : width img * height img <= INT_MAX) by nia.
  unfold bb.
  rewrite (window_sum_entries R img_in junk_r junk_g junk_b m img Hin Hsz'
             row col color) by assumption.
  destruct (window_box R img Hsz' row col Hrow Hcol HR HcR HrR)
    as (Hbox & _ & Hx & Hx' & Hy & Hy').
  assert (Hxmin : 1 <= x_min (bounding_box R (height img) (width img) row col)).
  { rewrite Hbox. unfold clamped_box. cbn [x_min]. lia. }
  unfold window_pixels_sum.
  rewrite (rect_sum_ext (table_entry m img_in junk_r junk_g junk_b color)
             (pixel m img_in color)).
  - pose proof (rect_sum_bounds (pixel m img_in color)
                  (x_min (bounding_box R (height img) (width img) row col))
                  (x_max (bounding_box R (height img) (width img) row col))
                  (y_min (bounding_box R (height img) (width img) row col))
                  (y_max (bounding_box R (height img) (width img) row col))
                  0 255 ltac:(lia) ltac:(lia)
                  (fun y x _ _ => pixel_range m img_in color y x)) as Hb.
    set (x0 := x_min _) in *. set (x1 := x_max _) in *.
    set (y0 := y_min _) in *. set (y1 := y_max _) in *.
    assert (Hcnt : 0 <= (x1 - x0 + 1) * (y1 - y0 + 1) <= width img * height img).
    { split; [apply Z.mul_nonneg_nonneg; lia | apply Z.mul_le_mono_nonneg; lia]. }
    apply wrap_id. unfold in_int, INT_MIN, INT_MAX in *. lia.
  - intros y x _ Hx0. unfold table_entry.
    destruct (Z.eqb_spec x 0); [lia | reflexivity].
Qed.

(** Where the window does not reach column 0 and has fewer than
    [2^24 / 255] pixels (every window of radius at most 127), the output
    is the brute-force average of the window. *)
Lemma output_brute_force_off_column0 R img_in junk_r junk_g junk_b
    (m : gmap nat Image) (img : Image) row col color :
  m !! img_in = Some img ->
  255 * width img * height img <= INT_MAX ->
  0 <= row < height img -> 0 <= col < width img -> 0 <= color < 3 ->
  0 <= R -> col + R <= INT_MAX -> row + R <= INT_MAX ->
  1 <= col - R ->
  255 * window_count (clamped_box R (height img) (width img) row col) < 2 ^ 24 ->
  ImageGetPixel (images (snd (main R img_in junk_r junk_g junk_b m)))
    (fst (main R img_in junk_r junk_g junk_b m)) col row color
  = brute_force m img_in R color row col.
Proof.
  intros Hin Hsz Hrow Hcol Hcolor HR HcR HrR Hoff Hsmall.
  assert (Hsz' : width img * height img <= INT_MAX) by nia.
  assert (Hdims : image_height m img_in = height img
                  /\ image_width m img_in = width img)
    by (unfold image_height, image_width; now rewrite Hin).
  destruct Hdims as (HeqH & HeqW).
  rewrite main_output_blurred by (rewrite ?HeqH, ?HeqW; assumption).
  unfold brute_force, blurred. rewrite HeqH, HeqW.
  rewrite (window_sum_off_column0 R img_in junk_r junk_g junk_b m img row col color)
    by assumption.
  destruct (window_box R img Hsz' row col Hrow Hcol HR HcR HrR)
    as (Hbox & Hcount & Hx & Hx' & Hy & Hy').
  rewrite Hcount. rewrite Hbox in *. clear Hbox Hcount.
  set (bb := clamped_box R (height img) (width img) row col) in *.
  pose proof (rect_sum_bounds (pixel m img_in color)
                (x_min bb) (x_max bb) (y_min bb) (y_max bb) 0 255
                ltac:(lia) ltac:(lia)
                (fun y x _ _ => pixel_range m img_in color y x)) as Hb.
  fold (window_count bb) in Hb.
  fold (window_pixels_sum m img_in color (x_min bb) (x_max bb) (y_min bb) (y_max bb))
    in Hb.
  assert (Hcnt : 1 <= window_count bb).
  { unfold window_count.
    assert (1 * 1 <= (x_max bb - x_min bb + 1) * (y_max bb - y_min bb + 1))
      by (apply Z.mul_le_mono_nonneg; lia).
    lia. }
  rewrite average_exact by lia.
  symmetry. apply Z.quot_div_nonneg; lia.
Qed.

(* ===================================================================== *)
(** ** Safety of the averaging step *)
(* ===================================================================== *)





(* ===================================================================== *)
(** ** The output does not depend on column 0 of the input *)
(* ===================================================================== *)

Lemma table_entry_same (m m' : gmap nat Image) img_in junk_r junk_g junk_b
    (img img' : Image) color y x :
  m !! img_in = Some img -> m' !! img_in = Some img' ->
  width img' = width img ->
  (x <> 0 -> pixel m' img_in color y x = pixel m img_in color y x) ->
  table_entry m' img_in junk_r junk_g junk_b color y x
  = table_entry m img_in junk_r junk_g junk_b color y x.
Proof.
  intros Hin Hin' Hw Hpx. unfold table_entry.
  destruct (Z.eqb_spec x 0) as [_|Hne]; [|now apply Hpx].
  unfold image_width. now rewrite Hin, Hin', Hw.
Qed.

(** Two images of the same size that differ only in column 0 give the
    same tables, whatever the memory held. *)
Lemma tables_ignore_column0 img_in junk_r junk_g junk_b
    (m m' : gmap nat Image) (img img' : Image) color r c :
  m !! img_in = Some img -> m' !! img_in = Some img' ->
  width img' = width img -> height img' = height img ->
  width img * height img <= INT_MAX ->
  0 <= color < 3 -> 0 <= r < height img -> 0 <= c < width img ->
  (forall y x, 0 <= y < height img -> 1 <= x < width img ->
     pixel m' img_in color y x = pixel m img_in color y x) ->
  table (after_phase2 img_in junk_r junk_g junk_b m') (width img) color r c
  = table (after_phase2 img_in junk_r junk_g junk_b m) (width img) color r c.
Proof.
  intros Hin Hin' Hw Hh Hsz Hk Hr Hc Hpx.
  rewrite (table_after_both_parts img_in junk_r junk_g junk_b m img color r c)
    by (assumption || lia).
  rewrite <- Hw at 1.
  rewrite (table_after_both_parts img_in junk_r junk_g junk_b m' img' color r c)
    by (rewrite ?Hw, ?Hh; assumption || lia).
  rewrite !accumulated_rect by lia. f_equal.
  apply rect_sum_ext. intros y x Hy Hx.
  apply (table_entry_same m m' img_in junk_r junk_g junk_b img img');
    try assumption.
  intros Hx0. apply Hpx; lia.
Qed.

(** Two images of the same size that differ only in column 0 give the
    same output, whatever the memory held. *)
Lemma output_ignores_column0 R img_in junk_r junk_g junk_b
    (m m' : gmap nat Image) (img img' : Image) row col color :
  m !! img_in = Some img -> m' !! img_in = Some img' ->
  width img' = width img -> height img' = height img ->
  width img * height img <= INT_MAX ->
  0 <= row < height img -> 0 <= col < width img -> 0 <= color < 3 ->
  0 <= R -> col + R <= INT_MAX -> row + R <= INT_MAX ->
  (forall y x, 0 <= y < height img -> 1 <= x < width img ->
     pixel m' img_in color y x = pixel m img_in color y x) ->
  ImageGetPixel (images (snd (main R img_in junk_r junk_g junk_b m')))
    (fst (main R img_in junk_r junk_g junk_b m')) col row color
  = ImageGetPixel (images (snd (main R img_in junk_r junk_g junk_b m)))
      (fst (main R img_in junk_r junk_g junk_b m)) col row color.
Proof.
  intros Hin Hin' Hw Hh Hsz Hrow Hcol Hcolor HR HcR HrR Hpx.
  rewrite (output_entries R img_in junk_r junk_g junk_b m img Hin Hsz
             row col color) by assumption.
  rewrite (output_entries R img_in junk_r junk_g junk_b m' img' Hin')
    by (rewrite ?Hw, ?Hh; assumption).
  rewrite Hw, Hh.
  destruct (window_box R img Hsz row col Hrow Hcol HR HcR HrR)
    as (_ & _ & Hx & Hx' & Hy & Hy').
  f_equal. f_equal.
  apply rect_sum_ext. intros y x Hy0 Hx0.
  apply (table_entry_same m m' img_in junk_r junk_g junk_b img img');
    try assumption.
  intros Hxne. apply Hpx; lia.
Qed.

Lemma heap_2x2_lookup : heap_2x2 !! 0%nat = Some image_2x2.
Proof. apply lookup_singleton_eq. Qed.

Lemma heap_2x2_b_lookup : heap_2x2_b !! 0%nat = Some image_2x2_b.
Proof. apply lookup_singleton_eq. Qed.

Lemma images_2x2_agree_off_column0 color y x :
  0 <= color < 3 -> 0 <= y < 2 -> 1 <= x < 2 ->
  pixel heap_2x2_b 0%nat color y x = pixel heap_2x2 0%nat color y x.
Proof.
  intros Hk Hy Hx.
  assert (x = 1) as -> by lia.
  assert (y = 0 \/ y = 1) as [-> | ->] by lia;
    (assert (color = 0 \/ color = 1 \/ color = 2) as [-> | [-> | ->]] by lia);
    vm_compute; reflexivity.
Qed.

(** On the two 2 x 2 images, every table cell and every output value is
    the same, for every radius up to 1000 and every contents of the
    memory. *)
Lemma images_2x2_same_tables junk_r junk_g junk_b color r c :
  0 <= color < 3 -> 0 <= r < 2 -> 0 <= c < 2 ->
  table (after_phase2 0%nat junk_r junk_g junk_b heap_2x2_b) 2 color r c
  = table (after_phase2 0%nat junk_r junk_g junk_b heap_2x2) 2 color r c.
Proof.
  intros Hk Hr Hc.
  apply (tables_ignore_column0 0%nat junk_r junk_g junk_b heap_2x2 heap_2x2_b
           image_2x2 image_2x2_b color r c heap_2x2_lookup heap_2x2_b_lookup);
    try reflexivity; try assumption.
  - unfold INT_MAX. simpl. lia.
  - intros y x Hy Hx. now apply images_2x2_agree_off_column0.
Qed.

Lemma images_2x2_same_output R junk_r junk_g junk_b row col color :
  0 <= R <= 1000 -> 0 <= row < 2 -> 0 <= col < 2 -> 0 <= color < 3 ->
  ImageGetPixel (images (snd (main R 0%nat junk_r junk_g junk_b heap_2x2_b)))
    (fst (main R 0%nat junk_r junk_g junk_b heap_2x2_b)) col row color
  = ImageGetPixel (images (snd (main R 0%nat junk_r junk_g junk_b heap_2x2)))
      (fst (main R 0%nat junk_r junk_g junk_b heap_2x2)) col row color.
Proof.
  intros HR Hrow Hcol Hk.
  apply (output_ignores_column0 R 0%nat junk_r junk_g junk_b heap_2x2 heap_2x2_b
           image_2x2 image_2x2_b row col color heap_2x2_lookup heap_2x2_b_lookup);
    try reflexivity; try assumption; try (unfold INT_MAX; simpl; lia).
  intros y x Hy Hx. now apply images_2x2_agree_off_column0.
Qed.

(* ===================================================================== *)
(** ** The program on concrete images *)
(* ===================================================================== *)

(** C3: the code at the failing input. On the 2 x 2 image, with the tables
    in zero-filled memory, the first part leaves [table[0][0] = 0] and
    [table[1][0] = 0] in the red table, where the pixels are 10 and 30; the
    cells of column 1 are the pixel plus the cell to the left. Whatever the
    memory held, [table[0][0]] is what [malloc] left in it. *)
Theorem phase1_leaves_column0 :
  (let s := after_phase1 0%nat zero_junk zero_junk zero_junk heap_2x2 in
   table s 2 0 0 0 = 0 /\ pixel heap_2x2 0%nat 0 0 0 = 10
   /\ table s 2 0 1 0 = 0 /\ pixel heap_2x2 0%nat 0 1 0 = 30
   /\ table s 2 0 0 1 = pixel heap_2x2 0%nat 0 0 1 + table s 2 0 0 0
   /\ table s 2 0 1 1 = pixel heap_2x2 0%nat 0 1 1 + table s 2 0 1 0)
  /\ (forall junk_r junk_g junk_b,
        table (after_phase1 0%nat junk_r junk_g junk_b heap_2x2) 2 0 0 0
        = wrap (junk_r 0%nat)).
Proof.
  split; [vm_compute; repeat split; reflexivity|].
  intros junk_r junk_g junk_b.
  apply (column0_after_phase1 0%nat junk_r junk_g junk_b heap_2x2 image_2x2 0 0);
    solve [reflexivity | unfold INT_MAX; simpl; lia].
Qed.

(** C1: the code at the failing input. On the 2 x 2 image, with the tables
    in zero-filled memory, the red table after both parts is 0, 20 / 0, 60
    where the prefix sums are 10, 30 / 40, 100: the bottom-right cell holds
    60, not the sum 100 of the channel. Whatever the memory held, the
    bottom-right cell is the same for the second 2 x 2 image, whose channel
    sums to 180. *)
Theorem tables_miss_column0 :
  (let s := after_phase2 0%nat zero_junk zero_junk zero_junk heap_2x2 in
   table s 2 0 0 0 = 0 /\ prefix_sum heap_2x2 0%nat 0 0 0 = 10
   /\ table s 2 0 0 1 = 20 /\ prefix_sum heap_2x2 0%nat 0 0 1 = 30
   /\ table s 2 0 1 0 = 0 /\ prefix_sum heap_2x2 0%nat 0 1 0 = 40
   /\ table s 2 0 1 1 = 60 /\ prefix_sum heap_2x2 0%nat 0 1 1 = 100)
  /\ (forall junk_r junk_g junk_b,
        table (after_phase2 0%nat junk_r junk_g junk_b heap_2x2_b) 2 0 1 1
        = table (after_phase2 0%nat junk_r junk_g junk_b heap_2x2) 2 0 1 1)
  /\ prefix_sum heap_2x2_b 0%nat 0 1 1 = 180.
Proof.
  split; [vm_compute; repeat split; reflexivity|].
  split; [|vm_compute; reflexivity].
  intros junk_r junk_g junk_b. apply images_2x2_same_tables; lia.
Qed.

(** C6: the code at the failing input. With [R = 0], on the 2 x 2 image
    and with the tables in zero-filled memory, the output pixels of column 0
    are 0 where the input pixels are 10 and 30; those of column 1 equal the
    input. Whatever the memory held, the output pixel at (0, 0) is the same
    for the second 2 x 2 image, whose pixel at (0, 0) is 50. *)
Theorem radius0_column0_differs :
  (let out := main 0 0%nat zero_junk zero_junk zero_junk heap_2x2 in
   ImageGetPixel (images (snd out)) (fst out) 0 0 0 = 0
   /\ ImageGetPixel heap_2x2 0%nat 0 0 0 = 10
   /\ ImageGetPixel (images (snd out)) (fst out) 0 1 0 = 0
   /\ ImageGetPixel heap_2x2 0%nat 0 1 0 = 30
   /\ ImageGetPixel (images (snd out)) (fst out) 1 0 0
      = ImageGetPixel heap_2x2 0%nat 1 0 0
   /\ ImageGetPixel (images (snd out)) (fst out) 1 1 0
      = ImageGetPixel heap_2x2 0%nat 1 1 0)
  /\ (forall junk_r junk_g junk_b,
        ImageGetPixel (images (snd (main 0 0%nat junk_r junk_g junk_b heap_2x2_b)))
          (fst (main 0 0%nat junk_r junk_g junk_b heap_2x2_b)) 0 0 0
        = ImageGetPixel (images (snd (main 0 0%nat junk_r junk_g junk_b heap_2x2)))
            (fst (main 0 0%nat junk_r junk_g junk_b heap_2x2)) 0 0 0)
  /\ ImageGetPixel heap_2x2_b 0%nat 0 0 0 = 50.
Proof.
  split; [vm_compute; repeat split; reflexivity|].
  split; [|vm_compute; reflexivity].
  intros junk_r junk_g junk_b. apply images_2x2_same_output; lia.
Qed.

(** C7: the code at the failing input. With [R = 2 >= max(W, H)], on the
    2 x 2 image and with the tables in zero-filled memory, every output
    pixel is 15 where the global average of the channel is 25. Whatever the
    memory held, the output is the same for the second 2 x 2 image, whose
    global average is 45. *)
Theorem large_radius_not_global_average :
  (let out := main 2 0%nat zero_junk zero_junk zero_junk heap_2x2 in
   2 >= Z.max (image_width heap_2x2 0%nat) (image_height heap_2x2 0%nat)
   /\ global_average heap_2x2 0%nat 0 = 25
   /\ ImageGetPixel (images (snd out)) (fst out) 0 0 0 = 15
   /\ ImageGetPixel (images (snd out)) (fst out) 1 0 0 = 15
   /\ ImageGetPixel (images (snd out)) (fst out) 0 1 0 = 15
   /\ ImageGetPixel (images (snd out)) (fst out) 1 1 0 = 15)
  /\ (forall junk_r junk_g junk_b,
        ImageGetPixel (images (snd (main 2 0%nat junk_r junk_g junk_b heap_2x2_b)))
          (fst (main 2 0%nat junk_r junk_g junk_b heap_2x2_b)) 0 0 0
        = ImageGetPixel (images (snd (main 2 0%nat junk_r junk_g junk_b heap_2x2)))
            (fst (main 2 0%nat junk_r junk_g junk_b heap_2x2)) 0 0 0)
  /\ global_average heap_2x2_b 0%nat 0 = 45.
Proof.
  split; [vm_compute; repeat split; (reflexivity || discriminate)|].
  split; [|vm_compute; reflexivity].
  intros junk_r junk_g junk_b. apply images_2x2_same_output; lia.
Qed.

(** C2: the code at the failing input. With [R = 1], on the 2 x 2 image
    and with the tables in zero-filled memory, the output pixel at (0, 0)
    is 15 where the brute-force average over the window is 25; with
    [R = 0] it is 0 where the brute-force average is 10. Whatever the
    memory held, the output with [R = 1] is the same for the second 2 x 2
    image, whose brute-force average is 45. *)
Theorem brute_force_differs :
  (let out := main 1 0%nat zero_junk zero_junk zero_junk heap_2x2 in
   ImageGetPixel (images (snd out)) (fst out) 0 0 0 = 15
   /\ brute_force heap_2x2 0%nat 1 0 0 0 = 25)
  /\ (let out := main 0 0%nat zero_junk zero_junk zero_junk heap_2x2 in
      ImageGetPixel (images (snd out)) (fst out) 0 0 0 = 0
      /\ brute_force heap_2x2 0%nat 0 0 0 0 = 10)
  /\ (forall junk_r junk_g junk_b,
        ImageGetPixel (images (snd (main 1 0%nat junk_r junk_g junk_b heap_2x2_b)))
          (fst (main 1 0%nat junk_r junk_g junk_b heap_2x2_b)) 0 0 0
        = ImageGetPixel (images (snd (main 1 0%nat junk_r junk_g junk_b heap_2x2)))
            (fst (main 1 0%nat junk_r junk_g junk_b heap_2x2)) 0 0 0)
  /\ brute_force heap_2x2_b 0%nat 1 0 0 0 = 45.
Proof.
  split; [vm_compute; repeat split; reflexivity|].
  split; [vm_compute; repeat split; reflexivity|].
  split; [|vm_compute; reflexivity].
  intros junk_r junk_g junk_b. apply images_2x2_same_output; lia.
Qed.

(** When the cell that no pass writes holds a negative value after
    [malloc], the windowed sum is negative: on the 1 x 1 image with
    [R = 0] and -1 in the memory, the window has one pixel, the windowed
    sum is -1, and -1.0 is converted to [unsigned char]. *)
Lemma window_sum_negative :
  let junk := const_junk (-1) in
  let s := after_phase2 0%nat junk junk junk heap_1x1 in
  let bb := bounding_box 0 1 1 0 0 in
  pixels bb = 1
  /\ window_sum (sums_color s 0) 1 bb = -1
  /\ float_trunc (float_div (float_of_int (-1)) (float_of_int 1)) = -1.
Proof. vm_compute. repeat split; reflexivity. Qed.

(* ===================================================================== *)
(** * Further properties of the code *)
(* ===================================================================== *)

(* ===================================================================== *)
(** ** The index function [idx] *)
(* ===================================================================== *)

Lemma idx_exact_g H W g row col :
  0 <= row < H -> 0 <= col < W -> 1 <= g -> g * W * H <= INT_MAX ->
  idx row col W g = (row * W + col) * g.
Proof.
  intros Hr Hc Hg Hsz. unfold idx, int_mul, int_add.
  assert (Hcell : 0 <= row * W + col < W * H) by nia.
  assert (Hrow : 0 <= row * W <= row * W + col) by nia.
  assert (HWH : W * H <= g * (W * H)) by nia.
  assert (Hg' : 0 <= (row * W + col) * g < g * (W * H)) by nia.
  replace (g * W * H) with (g * (W * H)) in Hsz by ring.
  unfold INT_MAX in Hsz.
  rewrite (wrap_id (row * W)) by (unfold in_int, INT_MIN, INT_MAX; lia).
  rewrite (wrap_id (row * W + col)) by (unfold in_int, INT_MIN, INT_MAX; lia).
  apply wrap_id. unfold in_int, INT_MIN, INT_MAX; lia.
Qed.

(** X1. [idx] is the row-major index: inside a grid of [H] rows and [W]
    columns with [g] values per cell, the value [gi] of cell [(row, col)]
    is at [gi + (row * W + col) * g], which lies inside the block of
    [g * H * W] values. *)
Theorem idx_row_major H W g row col gi :
  0 <= row < H -> 0 <= col < W -> 0 <= gi < g -> g * W * H <= INT_MAX ->
  idx row col W g = (row * W + col) * g
  /\ 0 <= gi + idx row col W g < g * H * W.
Proof.
  intros Hr Hc Hgi Hsz.
  rewrite (idx_exact_g H) by (assumption || lia).
  split; [reflexivity|].
  assert (Hcell : 0 <= row * W + col <= W * H - 1) by nia.
  assert (0 <= (row * W + col) * g <= (W * H - 1) * g)
    by (split; [apply Z.mul_nonneg_nonneg | apply Z.mul_le_mono_nonneg_r]; lia).
  lia.
Qed.

Lemma idx_row_major_witness :
  idx 1 2 4 3 = (1 * 4 + 2) * 3 /\ 0 <= 1 + idx 1 2 4 3 < 3 * 2 * 4.
Proof.
  apply (idx_row_major 2 4 3 1 2 1); unfold INT_MAX; lia.
Defined.

(** X2. Two different values of a grid are at different indices: the cells
    of a table do not overlap. *)
Theorem idx_no_overlap H W g row col gi row' col' gi' :
  0 <= row < H -> 0 <= col < W -> 0 <= gi < g ->
  0 <= row' < H -> 0 <= col' < W -> 0 <= gi' < g ->
  g * W * H <= INT_MAX ->
  (row, col, gi) <> (row', col', gi') ->
  gi + idx row col W g <> gi' + idx row' col' W g.
Proof.
  intros Hr Hc Hgi Hr' Hc' Hgi' Hsz Hne Heq. apply Hne.
  rewrite !(idx_exact_g H) in Heq by (assumption || lia).
  assert (Hcells : row * W + col = row' * W + col' /\ gi = gi').
  { apply (cell_offset_inj g); lia. }
  destruct Hcells as (Hcell & ->).
  apply cell_offset_inj in Hcell; [|lia ..].
  destruct Hcell as (-> & ->). reflexivity.
Qed.

Lemma idx_no_overlap_witness : (2 + idx 0 3 4 3 =? 0 + idx 1 0 4 3) = false.
Proof.
  apply Z.eqb_neq.
  apply (idx_no_overlap 2 4 3 0 3 2 1 0 0); unfold INT_MAX; try lia.
  discriminate.
Defined.

(* ===================================================================== *)
(** ** Loops whose iterations are taken in a given order *)
(* ===================================================================== *)

Lemma for_loop_for_each {S : Type} lo hi (body : Z -> S -> S) s :
  for_loop lo hi body s = for_each (range lo hi) body s.
Proof.
  unfold for_loop, for_each, range.
  generalize (seq 0 (Z.to_nat (hi - lo))). intros l. revert s.
  induction l as [|k l IH]; intros s; [reflexivity|]. simpl. apply IH.
Qed.

Lemma elem_of_range lo hi i : i ∈ range lo hi <-> lo <= i < hi.
Proof.
  unfold range. rewrite list_elem_of_fmap. split.
  - intros (k & -> & Hk). apply elem_of_seq in Hk. lia.
  - intros Hi. exists (Z.to_nat (i - lo)). split; [lia|].
    apply elem_of_seq. lia.
Qed.

Lemma NoDup_range lo hi : NoDup (range lo hi).
Proof.
  unfold range. apply NoDup_fmap_2; [|apply NoDup_seq].
  intros a b Hab. lia.
Qed.

Lemma for_each_snoc {S : Type} l i (body : Z -> S -> S) s :
  for_each (l ++ [i]) body s = body i (for_each l body s).
Proof. unfold for_each. now rewrite fold_left_app. Qed.

(** Cell-wise reasoning about the iterations of a loop taken in any order:
    as [for_loop_pointwise], with the iterations already run given as a
    list. *)
Section PointwiseAnyOrder.
Context {S K V : Type}.
Variable obs : S -> K -> V.
Variable Inv : S -> Prop.
Variable val : K -> V.
Variable own : Z -> K -> Prop.

Lemma for_each_pointwise (l : list Z) (body : Z -> S -> S) s0 :
  NoDup l ->
  Inv s0 ->
  (forall done i s, i ∈ l -> i ∉ done -> Inv s ->
     (forall k, touched_in own done k -> obs s k = val k) ->
     (forall k, obs s k = obs s0 k \/ touched_in own done k) ->
     Inv (body i s)
     /\ (forall k, own i k -> obs (body i s) k = val k)
     /\ (forall k, obs (body i s) k = obs s k \/ own i k)) ->
  Inv (for_each l body s0)
  /\ (forall k, touched_in own l k -> obs (for_each l body s0) k = val k)
  /\ (forall k, obs (for_each l body s0) k = obs s0 k \/ touched_in own l k).
Proof.
  intros Hnd Hinit Hstep.
  assert (Hgen : forall l', NoDup l' -> (forall j, j ∈ l' -> j ∈ l) ->
    Inv (for_each l' body s0)
    /\ (forall k, touched_in own l' k -> obs (for_each l' body s0) k = val k)
    /\ (forall k, obs (for_each l' body s0) k = obs s0 k \/ touched_in own l' k)).
  { induction l' as [|i l' IH] using rev_ind; intros Hnd' Hsub.
    - split; [exact Hinit|]. split.
      + intros k (i & Hi & _). now apply elem_of_nil in Hi.
      + intros k. now left.
    - apply NoDup_app in Hnd'. destruct Hnd' as (Hnd' & Hfresh & _).
      destruct IH as (HI & HA & HB);
        [exact Hnd' | intros j Hj; apply Hsub, elem_of_app; now left |].
      assert (Hi : i ∉ l').
      { intros Hi. apply (Hfresh i Hi). now apply list_elem_of_singleton. }
      destruct (Hstep l' i (for_each l' body s0)) as (HI' & Hown & Hframe);
        [apply Hsub, elem_of_app; right; now apply list_elem_of_singleton
        | exact Hi | exact HI | exact HA | exact HB |].
      rewrite for_each_snoc. split; [exact HI'|]. split.
      + intros k (j & Hj & Hjk).
        apply elem_of_app in Hj. destruct Hj as [Hj|Hj].
        * destruct (Hframe k) as [Heq|Ho]; [|now apply Hown].
          rewrite Heq. apply HA. now exists j.
        * apply list_elem_of_singleton in Hj. subst j. now apply Hown.
      + intros k. destruct (Hframe k) as [Heq|Ho].
        * rewrite Heq. destruct (HB k) as [Heq0|(j & Hj & Hjk)]; [now left|].
          right. exists j. split; [apply elem_of_app; now left | exact Hjk].
        * right. exists i.
          split; [apply elem_of_app; right; now apply list_elem_of_singleton | exact Ho]. }
  apply Hgen; [exact Hnd | auto].
Qed.
End PointwiseAnyOrder.

(* ===================================================================== *)
(** ** The parallel loops: any order of the iterations *)
(* ===================================================================== *)

Lemma loads_determine (a b : list Z) (n : Z) :
  Z.of_nat (length a) = n -> Z.of_nat (length b) = n ->
  (forall i, 0 <= i < n -> load a i = load b i) -> a = b.
Proof.
  intros Ha Hb Hload. apply (nth_ext a b 0 0); [lia|].
  intros k Hk. specialize (Hload (Z.of_nat k) ltac:(lia)).
  unfold load in Hload.
  destruct (Z.ltb_spec (Z.of_nat k) 0); [lia|].
  now rewrite Nat2Z.id in Hload.
Qed.

(** Two states whose tables have the same cells have the same tables. *)
Lemma cells_determine_tables H W f g s0 s0' s s' :
  0 < W -> 0 < H ->
  tables_inv H W f s0 s -> tables_inv H W g s0' s' ->
  (forall color r c, 0 <= color < 3 -> 0 <= r < H -> 0 <= c < W ->
     cell H W s (color, r, c) = cell H W s' (color, r, c)) ->
  sums_r s = sums_r s' /\ sums_g s = sums_g s' /\ sums_b s = sums_b s'.
Proof.
  intros HW HH Hinv Hinv' Hcells.
  assert (Hcolor : forall color, 0 <= color < 3 ->
            sums_color s color = sums_color s' color).
  { intros color Hk.
    apply (loads_determine _ _ (H * W)).
    - rewrite (length_sums_color _ _ _ _ _ color Hinv). nia.
    - rewrite (length_sums_color _ _ _ _ _ color Hinv'). nia.
    - intros i Hi.
      assert (Hr : 0 <= i / W < H).
      { split; [apply Z.div_pos; lia | apply Z.div_lt_upper_bound; lia]. }
      pose proof (Z.mod_pos_bound i W HW) as Hc.
      pose proof (Z.div_mod i W ltac:(lia)) as Hdm.
      specialize (Hcells color (i / W) (i mod W) Hk Hr Hc).
      rewrite !cell_in in Hcells by assumption.
      replace (i / W * W + i mod W) with i in Hcells by lia.
      exact Hcells. }
  split; [apply (Hcolor 0); lia|].
  split; [apply (Hcolor 1); lia | apply (Hcolor 2); lia].
Qed.

Section FirstPassAnyOrder.
Variables (img_in : nat) (H W : Z) (s0 : state).
Hypothesis HW : 0 < W.
Hypothesis HH : 0 < H.
Hypothesis Hsz : W * H <= INT_MAX.

Let px : Z -> Z -> Z -> Z := pixel (images s0) img_in.
Let f1 : Z * Z * Z -> Z := row_sums px (cell H W s0).
Let own_cell (row : Z) (col : Z) (k : Z * Z * Z) : Prop :=
  exists color, 0 <= color < 3 /\ k = (color, row, col).
Let own_row (row : Z) (k : Z * Z * Z) : Prop :=
  touched (own_cell row) 1 W k.

Lemma phase1_in_order_cells (rows : list Z) :
  NoDup rows -> (forall r, r ∈ rows <-> 0 <= r < H) ->
  tables_inv H W f1 s0 s0 ->
  tables_inv H W f1 s0 (phase1_in_order img_in W rows s0)
  /\ (forall color r c, 0 <= color < 3 -> 0 <= r < H -> 0 <= c < W ->
        cell H W (phase1_in_order img_in W rows s0) (color, r, c)
        = wrap (f1 (color, r, c))).
Proof.
  intros Hnd Hrows Hinv.
  change (phase1_in_order img_in W rows s0)
    with (for_each rows (fun row => for_loop 1 W (row_sum_cell img_in W row)) s0).
  destruct (for_each_pointwise (cell H W) (tables_inv H W f1 s0)
              (fun k => wrap (f1 k)) own_row rows
              (fun row => for_loop 1 W (row_sum_cell img_in W row)) s0 Hnd Hinv)
    as (Hfin & Hval & Hframe).
  { intros done row t Hrow _ Ht _ HB.
    apply (row_sum_loop_cells img_in H W s0 HW HH Hsz);
      [now apply Hrows | lia | exact Ht |].
    intros color Hk.
    destruct (HB (color, row, 0))
      as [Heq|(i & Hi & (j & Hj & (color' & _ & Hown)))]; [exact Heq|].
    injection Hown as _ _ Hj0. lia. }
  split; [exact Hfin|].
  intros color r c Hk Hr Hc.
  destruct (Z.eq_dec c 0) as [->|Hne].
  - destruct (Hframe (color, r, 0))
      as [Heq|(i & Hi & (j & Hj & (color' & _ & Hown)))];
      [| injection Hown as _ _ Hj0; lia].
    rewrite Heq. unfold f1. rewrite row_sums_0. symmetry. apply wrap_id.
    destruct Hinv as (_ & _ & _ & _ & Hrange & _). apply Hrange.
  - apply Hval. exists r. split; [now apply Hrows|]. exists c. split; [lia|].
    exists color. split; [exact Hk | reflexivity].
Qed.

Lemma phase1_any_order (rows : list Z) :
  Permutation rows (range 0 H) ->
  tables_inv H W f1 s0 s0 ->
  sums_r (phase1_in_order img_in W rows s0) = sums_r (phase1 img_in H W s0)
  /\ sums_g (phase1_in_order img_in W rows s0) = sums_g (phase1 img_in H W s0)
  /\ sums_b (phase1_in_order img_in W rows s0) = sums_b (phase1 img_in H W s0)
  /\ images (phase1_in_order img_in W rows s0) = images (phase1 img_in H W s0).
Proof.
  intros Hperm Hinv.
  assert (Hnd : NoDup rows) by (rewrite Hperm; apply NoDup_range).
  assert (Hrows : forall r, r ∈ rows <-> 0 <= r < H)
    by (intros r; rewrite Hperm; apply elem_of_range).
  destruct (phase1_in_order_cells rows Hnd Hrows Hinv) as (Hinv1 & Hcells1).
  destruct (phase1_cells img_in H W s0 HW HH Hsz Hinv) as (Hinv2 & Hcells2).
  destruct (cells_determine_tables H W _ _ _ _ _ _ HW HH Hinv1 Hinv2)
    as (Hr & Hg & Hb).
  { intros color r c Hk Hr Hc. now rewrite Hcells1, Hcells2. }
  repeat (split; [assumption|]).
  destruct Hinv1 as (-> & _). destruct Hinv2 as (-> & _). reflexivity.
Qed.

End FirstPassAnyOrder.

Section SecondPassAnyOrder.
Variables (H W : Z) (s1 : state).
Hypothesis HW : 0 < W.
Hypothesis HH : 0 < H.
Hypothesis Hsz : W * H <= INT_MAX.

Let f2 : Z * Z * Z -> Z := col_sums (cell H W s1).
Let own_cell (col : Z) (row : Z) (k : Z * Z * Z) : Prop :=
  exists color, 0 <= color < 3 /\ k = (color, row, col).
Let own_col (col : Z) (k : Z * Z * Z) : Prop :=
  touched (own_cell col) 1 H k.

Lemma phase2_in_order_cells (cols : list Z) :
  NoDup cols -> (forall c, c ∈ cols <-> 0 <= c < W) ->
  tables_inv H W f2 s1 s1 ->
  tables_inv H W f2 s1 (phase2_in_order H W cols s1)
  /\ (forall color r c, 0 <= color < 3 -> 0 <= r < H -> 0 <= c < W ->
        cell H W (phase2_in_order H W cols s1) (color, r, c)
        = wrap (f2 (color, r, c))).
Proof.
  intros Hnd Hcols Hinv.
  change (phase2_in_order H W cols s1)
    with (for_each cols (fun col => for_loop 1 H (col_sum_cell W col)) s1).
  destruct (for_each_pointwise (cell H W) (tables_inv H W f2 s1)
              (fun k => wrap (f2 k)) own_col cols
              (fun col => for_loop 1 H (col_sum_cell W col)) s1 Hnd Hinv)
    as (Hfin & Hval & Hframe).
  { intros done col t Hcol Hfresh Ht _ HB.
    apply (col_sum_loop_cells H W s1 HW HH Hsz);
      [now apply Hcols | lia | exact Ht |].
    intros color r Hk Hr.
    destruct (HB (color, r, col))
      as [Heq|(i & Hi & (j & Hj & (color' & _ & Hown)))]; [exact Heq|].
    injection Hown as _ _ Hi0. subst i. contradiction. }
  split; [exact Hfin|].
  intros color r c Hk Hr Hc.
  destruct (Z.eq_dec r 0) as [->|Hne].
  - destruct (Hframe (color, 0, c))
      as [Heq|(i & Hi & (j & Hj & (color' & _ & Hown)))];
      [| injection Hown as _ Hj0 _; lia].
    rewrite Heq. unfold f2. rewrite col_sums_0. symmetry. apply wrap_id.
    destruct Hinv as (_ & _ & _ & _ & Hrange & _). apply Hrange.
  - apply Hval. exists c. split; [now apply Hcols|]. exists r. split; [lia|].
    exists color. split; [exact Hk | reflexivity].
Qed.

Lemma phase2_any_order (cols : list Z) :
  Permutation cols (range 0 W) ->
  tables_inv H W f2 s1 s1 ->
  sums_r (phase2_in_order H W cols s1) = sums_r (phase2 H W s1)
  /\ sums_g (phase2_in_order H W cols s1) = sums_g (phase2 H W s1)
  /\ sums_b (phase2_in_order H W cols s1) = sums_b (phase2 H W s1)
  /\ images (phase2_in_order H W cols s1) = images (phase2 H W s1).
Proof.
  intros Hperm Hinv.
  assert (Hnd : NoDup cols) by (rewrite Hperm; apply NoDup_range).
  assert (Hcols : forall c, c ∈ cols <-> 0 <= c < W)
    by (intros c; rewrite Hperm; apply elem_of_range).
  destruct (phase2_in_order_cells cols Hnd Hcols Hinv) as (Hinv1 & Hcells1).
  destruct (phase2_cells H W s1 HW HH Hsz Hinv) as (Hinv2 & Hcells2).
  destruct (cells_determine_tables H W _ _ _ _ _ _ HW HH Hinv1 Hinv2)
    as (Hr & Hg & Hb).
  { intros color r c Hk Hr Hc. now rewrite Hcells1, Hcells2. }
  repeat (split; [assumption|]).
  destruct Hinv1 as (-> & _). destruct Hinv2 as (-> & _). reflexivity.
Qed.

End SecondPassAnyOrder.

Section AveragingAnyOrder.
Variables (R : Z) (img_out : nat) (H W : Z) (s0 : state).

Let value (k : Z * Z * Z) : Z :=
  let '(row, col, color) := k in blurred s0 R H W row col color.
Let own_channel (row col : Z) (color : Z) (k : Z * Z * Z) : Prop :=
  k = (row, col, color).
Let own_pixel (row : Z) (col : Z) (k : Z * Z * Z) : Prop :=
  touched (own_channel row col) 0 3 k.
Let own_row (row : Z) (k : Z * Z * Z) : Prop :=
  touched (own_pixel row) 0 W k.

Lemma phase3_in_order_cells (rows : list Z) :
  NoDup rows -> (forall r, r ∈ rows <-> 0 <= r < H) ->
  averaging_inv img_out H W s0 s0 ->
  averaging_inv img_out H W s0 (phase3_in_order R img_out H W rows s0)
  /\ (forall row col color,
        0 <= row < H -> 0 <= col < W -> 0 <= color < 3 ->
        ImageGetPixel (images (phase3_in_order R img_out H W rows s0))
          img_out col row color
        = blurred s0 R H W row col color).
Proof.
  intros Hnd Hrows Hinv. unfold phase3_in_order.
  destruct (for_each_pointwise (sample img_out H W) (averaging_inv img_out H W s0)
              value own_row rows
              (fun row => for_loop 0 W (fun col => blur_pixel R img_out H W row col))
              s0 Hnd Hinv) as (Hfin & Hval & _).
  { intros done row t Hrow _ Ht _ _.
    apply (blur_row_cells R img_out H W s0); [now apply Hrows | exact Ht]. }
  split; [exact Hfin|].
  intros row col color Hrow Hcol Hcolor.
  specialize (Hval (row, col, color)).
  unfold sample in Hval.
  replace (in_image H W (row, col, color)) with true in Hval
    by (symmetry; apply in_image_true; lia).
  apply Hval.
  exists row. split; [now apply Hrows|]. exists col. split; [lia|].
  exists color. split; [lia|]. reflexivity.
Qed.

End AveragingAnyOrder.

(* ===================================================================== *)
(** ** The reference routine [transpose] *)
(* ===================================================================== *)

Lemma in_grid_true h w g row col gi :
  in_grid h w g (row, col, gi) = true
  <-> 0 <= row < h /\ 0 <= col < w /\ 0 <= gi < g.
Proof.
  unfold in_grid. rewrite !andb_true_iff, !Z.leb_le, !Z.ltb_lt. lia.
Qed.

Lemma int_add_exact a b : in_int (a + b) -> int_add a b = a + b.
Proof. intros Hab. unfold int_add. now apply wrap_id. Qed.

Lemma length_malloc_uchar n junk : length (malloc_uchar n junk) = Z.to_nat n.
Proof. unfold malloc_uchar. rewrite length_map, length_seq. reflexivity. Qed.

Section Transpose.
Variables (matrix : list Z) (h w g : Z).
Hypothesis Hh : 0 < h.
Hypothesis Hw : 0 < w.
Hypothesis Hg : 0 < g.
Hypothesis Hsz : g * h * w <= INT_MAX.

Let n : Z := g * h * w.
Let value (k : Z * Z * Z) : Z :=
  let '(row, col, gi) := k in load matrix (gi + (row * w + col) * g).
Let own_value (row col : Z) (gi : Z) (k : Z * Z * Z) : Prop :=
  k = (row, col, gi).
Let own_cell (row : Z) (col : Z) (k : Z * Z * Z) : Prop :=
  touched (own_value row col) 0 g k.
Let own_row (row : Z) (k : Z * Z * Z) : Prop :=
  touched (own_cell row) 0 w k.

Lemma grid_index_range row col gi :
  0 <= row < h -> 0 <= col < w -> 0 <= gi < g ->
  0 <= gi + (row * w + col) * g < n /\ 0 <= gi + (col * h + row) * g < n.
Proof.
  intros Hr Hc Hgi. unfold n.
  assert (H1 : 0 <= row * w + col <= h * w - 1) by nia.
  assert (H2 : 0 <= col * h + row <= h * w - 1) by nia.
  assert (H3 : 0 <= (row * w + col) * g <= (h * w - 1) * g)
    by (split; [apply Z.mul_nonneg_nonneg | apply Z.mul_le_mono_nonneg_r]; lia).
  assert (H4 : 0 <= (col * h + row) * g <= (h * w - 1) * g)
    by (split; [apply Z.mul_nonneg_nonneg | apply Z.mul_le_mono_nonneg_r]; lia).
  lia.
Qed.

Lemma transpose_indices row col gi :
  0 <= row < h -> 0 <= col < w -> 0 <= gi < g ->
  int_add gi (idx row col w g) = gi + (row * w + col) * g
  /\ int_add gi (idx col row h g) = gi + (col * h + row) * g.
Proof.
  intros Hr Hc Hgi.
  destruct (grid_index_range row col gi Hr Hc Hgi) as (H1 & H2). unfold n in H1, H2.
  rewrite (idx_exact_g h w g row col) by lia.
  rewrite (idx_exact_g w h g col row) by (try lia; replace (g * h * w) with (g * w * h) in Hsz by ring; exact Hsz).
  split; apply int_add_exact; unfold in_int, INT_MIN, INT_MAX in *; lia.
Qed.

Lemma transposed_index_inj row col gi row' col' gi' :
  0 <= row < h -> 0 <= gi < g -> 0 <= row' < h -> 0 <= gi' < g ->
  gi + (col * h + row) * g = gi' + (col' * h + row') * g ->
  row = row' /\ col = col' /\ gi = gi'.
Proof.
  intros Hr Hgi Hr' Hgi' Heq.
  assert (H1 : col * h + row = col' * h + row' /\ gi = gi')
    by (apply (cell_offset_inj g); lia).
  destruct H1 as (H1 & ->).
  apply cell_offset_inj in H1; [|lia ..]. tauto.
Qed.

Lemma transpose_value_cells row col gi st :
  0 <= row < h -> 0 <= col < w -> 0 <= gi < g ->
  transpose_inv matrix n st ->
  transpose_inv matrix n (transpose_value h w g row col gi st)
  /\ (forall k, own_value row col gi k ->
        transposed_value h w g (transpose_value h w g row col gi st) k = value k)
  /\ (forall k,
        transposed_value h w g (transpose_value h w g row col gi st) k
        = transposed_value h w g st k
        \/ own_value row col gi k).
Proof.
  intros Hr Hc Hgi (Hm & Hlen).
  destruct (transpose_indices row col gi Hr Hc Hgi) as (Hsrc & Hdst).
  destruct (grid_index_range row col gi Hr Hc Hgi) as (_ & Hrange).
  unfold transpose_value. rewrite Hsrc, Hdst, Hm.
  split; [|split].
  - split; [reflexivity|]. cbn [snd]. now rewrite length_store.
  - intros k ->. unfold transposed_value, value. cbn [snd].
    replace (in_grid h w g (row, col, gi)) with true
      by (symmetry; apply in_grid_true; lia).
    apply load_store_eq. lia.
  - intros [[row' col'] gi']. unfold transposed_value. cbn [snd].
    destruct (in_grid h w g (row', col', gi')) eqn:Hin; [|now left].
    apply in_grid_true in Hin.
    destruct (decide ((row', col', gi') = (row, col, gi))) as [Heq|Hne];
      [right; exact Heq|].
    left. apply load_store_ne. intros Heq. apply Hne.
    apply transposed_index_inj in Heq; [|lia ..].
    destruct Heq as (-> & -> & ->). reflexivity.
Qed.

Lemma transpose_fill_cells st :
  transpose_inv matrix n st ->
  transpose_inv matrix n (transpose_fill h w g st)
  /\ (forall row col gi, 0 <= row < h -> 0 <= col < w -> 0 <= gi < g ->
        load (snd (transpose_fill h w g st)) (gi + (col * h + row) * g)
        = load matrix (gi + (row * w + col) * g)).
Proof.
  intros Hinv. unfold transpose_fill.
  destruct (for_loop_pointwise (transposed_value h w g) (transpose_inv matrix n)
              value own_row 0 h
              (fun row => for_loop 0 w (fun col =>
                 for_loop 0 g (fun gi => transpose_value h w g row col gi)))
              st Hinv) as (Hfin & Hval & _).
  { intros row t Hrow Ht _ _.
    apply (for_loop_pointwise (transposed_value h w g) (transpose_inv matrix n)
             value (own_cell row)); [exact Ht|].
    intros col u Hcol Hu _ _.
    apply (for_loop_pointwise (transposed_value h w g) (transpose_inv matrix n)
             value (own_value row col)); [exact Hu|].
    intros gi v Hgi Hv _ _.
    now apply transpose_value_cells. }
  split; [exact Hfin|].
  intros row col gi Hr Hc Hgi.
  specialize (Hval (row, col, gi)). unfold transposed_value, value in Hval.
  replace (in_grid h w g (row, col, gi)) with true in Hval
    by (symmetry; apply in_grid_true; lia).
  apply Hval.
  exists row. split; [lia|]. exists col. split; [lia|].
  exists gi. split; [lia|]. reflexivity.
Qed.

End Transpose.

Lemma copy_back_result n (st : list Z * list Z) :
  0 <= n ->
  Z.of_nat (length (fst st)) = n -> Z.of_nat (length (snd st)) = n ->
  fst (for_loop 0 n transpose_copy_back st) = snd st.
Proof.
  intros Hn Hlm Hlt.
  pose (P := fun (i : Z) (s : list Z * list Z) =>
              snd s = snd st /\ Z.of_nat (length (fst s)) = n
              /\ forall j, 0 <= j < i -> load (fst s) j = load (snd st) j).
  assert (Hloop : P n (for_loop 0 n transpose_copy_back st)).
  { apply (for_loop_inv P); [exact Hn | |].
    - split; [reflexivity|]. split; [exact Hlm|]. intros j Hj. lia.
    - intros i s Hi (Hs & Hl & Hdone). unfold P, transpose_copy_back. cbn [fst snd].
      split; [exact Hs|]. split; [now rewrite length_store|].
      intros j Hj. destruct (Z.eq_dec j i) as [->|Hne].
      + rewrite load_store_eq by lia. now rewrite Hs.
      + rewrite load_store_ne by lia. apply Hdone. lia. }
  destruct Hloop as (_ & Hl & Hall).
  now apply (loads_determine _ _ n).
Qed.

Lemma transpose_size h w g :
  0 < h -> 0 < w -> 0 < g -> g * h * w <= INT_MAX ->
  int_mul (int_mul g h) w = g * h * w.
Proof.
  intros Hh Hw Hg Hsz. unfold int_mul.
  assert (0 < g * h) by (apply Z.mul_pos_pos; lia).
  assert (g * h * 1 <= g * h * w) by (apply Z.mul_le_mono_nonneg_l; lia).
  rewrite (wrap_id (g * h)) by (unfold in_int, INT_MIN, INT_MAX in *; lia).
  apply wrap_id. unfold in_int, INT_MIN, INT_MAX in *. lia.
Qed.

Lemma transpose_result matrix h w g junk :
  0 < h -> 0 < w -> 0 < g -> g * h * w <= INT_MAX ->
  Z.of_nat (length matrix) = g * h * w ->
  Z.of_nat (length (transpose matrix h w g junk)) = g * h * w
  /\ (forall row col gi, 0 <= row < h -> 0 <= col < w -> 0 <= gi < g ->
        load (transpose matrix h w g junk) (gi + (col * h + row) * g)
        = load matrix (gi + (row * w + col) * g)).
Proof.
  intros Hh Hw Hg Hsz Hlen. unfold transpose.
  rewrite transpose_size by assumption.
  assert (Hn : 0 < g * h * w) by (repeat apply Z.mul_pos_pos; lia).
  destruct (transpose_fill_cells matrix h w g Hh Hw Hg Hsz
              (matrix, malloc_uchar (g * h * w) junk)) as ((Hm & Hl) & Hcells).
  { split; [reflexivity|]. cbn [snd]. rewrite length_malloc_uchar. lia. }
  rewrite copy_back_result by (try rewrite Hm; lia).
  split; [exact Hl | exact Hcells].
Qed.



(** X4. Transposing twice gives the block back (lines 96-98: "the data must be
    transposed again to get it back to the original layout"): after
    [transpose(matrix, h, w, g)] and [transpose(matrix, w, h, g)] the block
    is the one the first call received. *)
Theorem transpose_twice matrix h w g junk junk' :
  0 < h -> 0 < w -> 0 < g -> g * h * w <= INT_MAX ->
  Z.of_nat (length matrix) = g * h * w ->
  transpose (transpose matrix h w g junk) w h g junk' = matrix.
Proof.
  intros Hh Hw Hg Hsz Hlen.
  destruct (transpose_result matrix h w g junk Hh Hw Hg Hsz Hlen) as (Hl1 & Hcells1).
  assert (Hsz' : g * w * h <= INT_MAX) by (replace (g * w * h) with (g * h * w) by ring; exact Hsz).
  assert (Hl1' : Z.of_nat (length (transpose matrix h w g junk)) = g * w * h)
    by (rewrite Hl1; ring).
  destruct (transpose_result (transpose matrix h w g junk) w h g junk'
              Hw Hh Hg Hsz' Hl1') as (Hl2 & Hcells2).
  apply (loads_determine _ _ (g * h * w)); [rewrite Hl2; ring | exact Hlen |].
  intros i Hi.
  assert (Hgpos : 0 < h * w) by (apply Z.mul_pos_pos; lia).
  set (gi := i mod g). set (c := i / g).
  pose proof (Z.mod_pos_bound i g Hg) as Hgi. fold gi in Hgi.
  pose proof (Z.div_mod i g ltac:(lia)) as Hdm. fold gi c in Hdm.
  assert (Hc : 0 <= c < h * w).
  { unfold c. split; [apply Z.div_pos; lia|].
    apply Z.div_lt_upper_bound; [lia|]. replace (g * (h * w)) with (g * h * w) by ring. lia. }
  set (row := c / w). set (col := c mod w).
  pose proof (Z.mod_pos_bound c w Hw) as Hcol. fold col in Hcol.
  pose proof (Z.div_mod c w ltac:(lia)) as Hdm'. fold row col in Hdm'.
  assert (Hrow : 0 <= row < h).
  { unfold row. split; [apply Z.div_pos; lia|].
    apply Z.div_lt_upper_bound; [lia|]. lia. }
  assert (Hidx : i = gi + (row * w + col) * g) by lia.
  rewrite Hidx.
  rewrite (Hcells2 col row gi) by assumption.
  now apply Hcells1.
Qed.

Lemma transpose_twice_witness :
  transpose (transpose [1; 2; 3; 4; 5; 6] 2 3 1 zero_junk) 3 2 1 zero_junk
  = [1; 2; 3; 4; 5; 6].
Proof.
  apply transpose_twice; unfold INT_MAX; simpl; lia.
Defined.

(* ===================================================================== *)
(** ** An image without pixels *)
(* ===================================================================== *)

Lemma for_loop_skip {S : Type} lo hi (body : Z -> S -> S) s :
  (forall i t, lo <= i < hi -> body i t = t) ->
  for_loop lo hi body s = s.
Proof.
  intros Hbody.
  apply (for_loop_preserves (fun t => t = s)); [reflexivity|].
  intros i t Hi ->. now apply Hbody.
Qed.

(** X5. On an image without pixels ([W <= 0] or [H <= 0]) no iteration of the
    three passes does anything: [main] ends in the state its set-up left,
    with the output image and the tables as they were created. *)
Theorem empty_image_no_work R img_in junk_r junk_g junk_b (m : gmap nat Image) :
  image_width m img_in <= 0 \/ image_height m img_in <= 0 ->
  main R img_in junk_r junk_g junk_b m = setup img_in junk_r junk_g junk_b m.
Proof.
  intros Hempty. unfold main.
  destruct (setup img_in junk_r junk_g junk_b m) as [img_out s0].
  set (H := image_height m img_in) in *. set (W := image_width m img_in) in *.
  assert (H1 : phase1 img_in H W s0 = s0).
  { unfold phase1. apply for_loop_skip. intros row t Hrow.
    apply for_loop_empty. lia. }
  assert (H2 : phase2 H W s0 = s0).
  { unfold phase2. apply for_loop_skip. intros col t Hcol.
    apply for_loop_empty. lia. }
  assert (H3 : phase3 R img_out H W s0 = s0).
  { unfold phase3. apply for_loop_skip. intros row t Hrow.
    apply for_loop_empty. lia. }
  now rewrite H1, H2, H3.
Qed.

Lemma empty_image_no_work_witness :
  main 2 0%nat zero_junk zero_junk zero_junk heap_no_column
  = setup 0%nat zero_junk zero_junk zero_junk heap_no_column.
Proof.
  apply empty_image_no_work. left. vm_compute. discriminate.
Defined.

(* ===================================================================== *)
(** ** The two parts of the table construction, as the code runs them *)
(* ===================================================================== *)

(** X6. What the first part leaves in the tables: column 0 holds what [malloc]
    left there, and every cell from column 1 on is its pixel plus the cell
    to its left, as [int]s. *)
Theorem first_part_result img_in junk_r junk_g junk_b (m : gmap nat Image)
    (img : Image) color r :
  let t1 := table (after_phase1 img_in junk_r junk_g junk_b m) (width img) color in
  m !! img_in = Some img ->
  width img * height img <= INT_MAX ->
  0 < width img -> 0 <= color < 3 -> 0 <= r < height img ->
  t1 r 0 = column0 junk_r junk_g junk_b (width img) (color, r, 0)
  /\ (forall c, 1 <= c < width img ->
        t1 r c = int_add (pixel m img_in color r c) (t1 r (c - 1))).
Proof.
  intros t1 Hin Hsz HW Hcolor Hr. split.
  - apply column0_after_phase1; (assumption || lia).
  - intros c Hc. now apply phase1_recurrence.
Qed.

Lemma first_part_result_witness :
  let t1 := table (after_phase1 0%nat zero_junk zero_junk zero_junk heap_2x2)
                  (width image_2x2) 0 in
  t1 1 0 = column0 zero_junk zero_junk zero_junk (width image_2x2) (0, 1, 0)
  /\ (forall c, 1 <= c < width image_2x2 ->
        t1 1 c = int_add (pixel heap_2x2 0%nat 0 1 c) (t1 1 (c - 1))).
Proof.
  apply (first_part_result 0%nat zero_junk zero_junk zero_junk heap_2x2 image_2x2 0 1).
  - vm_compute. reflexivity.
  - unfold INT_MAX. simpl. lia.
  - simpl. lia.
  - lia.
  - simpl. lia.
Defined.

(** X7. Line 77, [#pragma omp parallel for] on the first part: whatever the
    order in which the rows are taken, each row run whole, the three tables
    and the image heap are those that the rows in source order leave. *)
Theorem first_part_any_row_order img_in junk_r junk_g junk_b
    (m : gmap nat Image) (img : Image) (rows : list Z) :
  let s := phase1_in_order img_in (width img) rows
             (snd (setup img_in junk_r junk_g junk_b m)) in
  let s1 := after_phase1 img_in junk_r junk_g junk_b m in
  m !! img_in = Some img ->
  0 < width img -> 0 < height img -> width img * height img <= INT_MAX ->
  Permutation rows (range 0 (height img)) ->
  sums_r s = sums_r s1 /\ sums_g s = sums_g s1 /\ sums_b s = sums_b s1
  /\ images s = images s1.
Proof.
  intros s s1 Hin HW HH Hsz Hperm.
  destruct (image_dims img_in m img Hin) as (HeqH & HeqW).
  unfold s, s1, after_phase1. rewrite HeqH, HeqW.
  apply phase1_any_order; try assumption.
  exact (tables_inv_setup img_in junk_r junk_g junk_b m img Hin HW HH _).
Qed.

Lemma first_part_any_row_order_witness :
  let s := phase1_in_order 0%nat (width image_2x2) [1; 0]
             (snd (setup 0%nat zero_junk zero_junk zero_junk heap_2x2)) in
  let s1 := after_phase1 0%nat zero_junk zero_junk zero_junk heap_2x2 in
  sums_r s = sums_r s1 /\ sums_g s = sums_g s1 /\ sums_b s = sums_b s1
  /\ images s = images s1.
Proof.
  apply (first_part_any_row_order 0%nat zero_junk zero_junk zero_junk heap_2x2
           image_2x2 [1; 0]).
  - vm_compute. reflexivity.
  - simpl. lia.
  - simpl. lia.
  - unfold INT_MAX. simpl. lia.
  - apply perm_swap.
Defined.

(** X8. What the second part does to the tables of the first: row 0 is kept,
    and every cell of a row from 1 on becomes its value after the first
    part plus the cell above it, as [int]s. *)
Theorem second_part_result img_in junk_r junk_g junk_b (m : gmap nat Image)
    (img : Image) color c :
  let t1 := table (after_phase1 img_in junk_r junk_g junk_b m) (width img) color in
  let t2 := table (after_phase2 img_in junk_r junk_g junk_b m) (width img) color in
  m !! img_in = Some img ->
  width img * height img <= INT_MAX ->
  0 < height img -> 0 <= color < 3 -> 0 <= c < width img ->
  t2 0 c = t1 0 c
  /\ (forall r, 1 <= r < height img ->
        t2 r c = int_add (t1 r c) (t2 (r - 1) c)).
Proof.
  intros t1 t2 Hin Hsz HH Hcolor Hc.
  assert (HW : 0 < width img) by lia.
  destruct (image_dims img_in m img Hin) as (HeqH & HeqW).
  destruct (after_phase1_cells img_in junk_r junk_g junk_b m img Hin HW HH Hsz)
    as (_ & Hcells1).
  pose proof (after_phase2_cells img_in junk_r junk_g junk_b m img Hin HW HH Hsz)
    as Hcells2.
  assert (Ht1 : forall r, 0 <= r < height img ->
            t1 r c = wrap (row_sums (pixel m img_in)
                             (column0 junk_r junk_g junk_b (width img)) (color, r, c))).
  { intros r Hr. unfold t1. rewrite (table_cell (height img)) by assumption.
    now apply Hcells1. }
  assert (Ht2 : forall r, 0 <= r < height img ->
            t2 r c = wrap (accumulated m img_in junk_r junk_g junk_b (color, r, c))).
  { intros r Hr. unfold t2. rewrite (table_cell (height img)) by assumption.
    now apply Hcells2. }
  split.
  - rewrite Ht1, Ht2 by lia. unfold accumulated. rewrite col_sums_0.
    now rewrite HeqW.
  - intros r Hr. rewrite (Ht1 r), (Ht2 r), (Ht2 (r - 1)) by lia.
    unfold accumulated. rewrite (col_sums_step _ color r c) by lia.
    rewrite HeqW. unfold int_add.
    rewrite wrap_add_l, wrap_add_r. f_equal. lia.
Qed.

Lemma second_part_result_witness :
  let t1 := table (after_phase1 0%nat zero_junk zero_junk zero_junk heap_2x2)
                  (width image_2x2) 0 in
  let t2 := table (after_phase2 0%nat zero_junk zero_junk zero_junk heap_2x2)
                  (width image_2x2) 0 in
  t2 0 1 = t1 0 1
  /\ (forall r, 1 <= r < height image_2x2 ->
        t2 r 1 = int_add (t1 r 1) (t2 (r - 1) 1)).
Proof.
  apply (second_part_result 0%nat zero_junk zero_junk zero_junk heap_2x2 image_2x2 0 1).
  - vm_compute. reflexivity.
  - unfold INT_MAX. simpl. lia.
  - simpl. lia.
  - lia.
  - simpl. lia.
Defined.

(** X9. Line 99, [#pragma omp parallel for] on the second part: whatever the
    order in which the columns are taken, each column run whole (its rows
    from top to bottom), the three tables and the image heap are those
    that the columns in source order leave. *)
Theorem second_part_any_column_order img_in junk_r junk_g junk_b
    (m : gmap nat Image) (img : Image) (cols : list Z) :
  let s := phase2_in_order (height img) (width img) cols
             (after_phase1 img_in junk_r junk_g junk_b m) in
  let s2 := after_phase2 img_in junk_r junk_g junk_b m in
  m !! img_in = Some img ->
  0 < width img -> 0 < height img -> width img * height img <= INT_MAX ->
  Permutation cols (range 0 (width img)) ->
  sums_r s = sums_r s2 /\ sums_g s = sums_g s2 /\ sums_b s = sums_b s2
  /\ images s = images s2.
Proof.
  intros s s2 Hin HW HH Hsz Hperm.
  destruct (image_dims img_in m img Hin) as (HeqH & HeqW).
  destruct (after_phase1_cells img_in junk_r junk_g junk_b m img Hin HW HH Hsz)
    as (Hinv1 & _).
  unfold s, s2, after_phase2. rewrite HeqH, HeqW.
  apply phase2_any_order; try assumption.
  apply (tables_inv_restart _ _ _ _ _ _ Hinv1).
Qed.

Lemma second_part_any_column_order_witness :
  let s := phase2_in_order (height image_2x2) (width image_2x2) [1; 0]
             (after_phase1 0%nat zero_junk zero_junk zero_junk heap_2x2) in
  let s2 := after_phase2 0%nat zero_junk zero_junk zero_junk heap_2x2 in
  sums_r s = sums_r s2 /\ sums_g s = sums_g s2 /\ sums_b s = sums_b s2
  /\ images s = images s2.
Proof.
  apply (second_part_any_column_order 0%nat zero_junk zero_junk zero_junk heap_2x2
           image_2x2 [1; 0]).
  - vm_compute. reflexivity.
  - simpl. lia.
  - simpl. lia.
  - unfold INT_MAX. simpl. lia.
  - apply perm_swap.
Defined.

(** X10. What the two parts leave in the tables, in closed form: cell [(r, c)]
    holds the sum, over the rows [0..r] and the columns [0..c], of the
    pixels of the columns from 1 on and of what [malloc] left in column 0,
    reduced to an [int]. *)
Theorem tables_closed_form img_in junk_r junk_g junk_b (m : gmap nat Image)
    (img : Image) color r c :
  m !! img_in = Some img ->
  width img * height img <= INT_MAX ->
  0 <= color < 3 -> 0 <= r < height img -> 0 <= c < width img ->
  table (after_phase2 img_in junk_r junk_g junk_b m) (width img) color r c
  = wrap (rect_sum (table_entry m img_in junk_r junk_g junk_b color) 0 c 0 r).
Proof.
  intros Hin Hsz Hcolor Hr Hc.
  rewrite (table_after_both_parts img_in junk_r junk_g junk_b m img)
    by (assumption || lia).
  now rewrite accumulated_rect by lia.
Qed.

Lemma tables_closed_form_witness :
  table (after_phase2 0%nat zero_junk zero_junk zero_junk heap_2x2)
        (width image_2x2) 0 1 1
  = wrap (rect_sum (table_entry heap_2x2 0%nat zero_junk zero_junk zero_junk 0) 0 1 0 1).
Proof.
  apply (tables_closed_form 0%nat zero_junk zero_junk zero_junk heap_2x2 image_2x2 0 1 1).
  - vm_compute. reflexivity.
  - unfold INT_MAX. simpl. lia.
  - lia.
  - simpl. lia.
  - simpl. lia.
Defined.

(* ===================================================================== *)
(** ** What each pass leaves alone *)
(* ===================================================================== *)

Lemma sums_phase3 R img_out H W s :
  sums_r (phase3 R img_out H W s) = sums_r s
  /\ sums_g (phase3 R img_out H W s) = sums_g s
  /\ sums_b (phase3 R img_out H W s) = sums_b s.
Proof.
  unfold phase3, blur_pixel.
  apply (for_loop_preserves
           (fun t => sums_r t = sums_r s /\ sums_g t = sums_g s /\ sums_b t = sums_b s));
    [auto|].
  intros row t _ Ht.
  apply (for_loop_preserves
           (fun t => sums_r t = sums_r s /\ sums_g t = sums_g s /\ sums_b t = sums_b s));
    [exact Ht|].
  intros col u _ Hu.
  apply (for_loop_preserves
           (fun t => sums_r t = sums_r s /\ sums_g t = sums_g s /\ sums_b t = sums_b s));
    [exact Hu|].
  intros color v _ Hv. exact Hv.
Qed.

(** X11. Each pass writes only its own data: the two parts that build the
    tables write no image (the heap of images is still the one that
    [ImageCreate] left), and the averaging pass writes no table cell (when
    [main] ends, the three tables are those of the second part). *)
Theorem passes_write_their_own_data R img_in junk_r junk_g junk_b
    (m : gmap nat Image) :
  let s2 := after_phase2 img_in junk_r junk_g junk_b m in
  let s3 := snd (main R img_in junk_r junk_g junk_b m) in
  images s2 = images (snd (setup img_in junk_r junk_g junk_b m))
  /\ sums_r s3 = sums_r s2 /\ sums_g s3 = sums_g s2 /\ sums_b s3 = sums_b s2.
Proof.
  intros s2 s3. split; [apply images_after_phase2|].
  unfold s3. rewrite main_unfold. cbn [snd]. apply sums_phase3.
Qed.

(* ===================================================================== *)
(** ** Table accesses of the averaging pass *)
(* ===================================================================== *)

(** X12. Every table read of the averaging step is inside the table: for a
    pixel of the image and a radius [R >= 0] whose window arithmetic does
    not wrap, the index of corner [d], and the indices of the corners [a],
    [b], [c] whenever the guards [y_min < 1], [x_min < 1] let them be read,
    are in [[0, H * W)], the length of the table. *)
Theorem corner_reads_in_bounds R img_in junk_r junk_g junk_b
    (m : gmap nat Image) (img : Image) row col color :
  let H := height img in
  let W := width img in
  let bb := bounding_box R H W row col in
  let n := Z.of_nat (length (sums_color
                               (after_phase2 img_in junk_r junk_g junk_b m) color)) in
  m !! img_in = Some img ->
  W * H <= INT_MAX ->
  0 <= row < H -> 0 <= col < W ->
  0 <= R -> col + R <= INT_MAX -> row + R <= INT_MAX ->
  n = H * W
  /\ 0 <= idx (y_max bb) (x_max bb) W 1 < n
  /\ (1 <= y_min bb ->
      0 <= idx (int_sub (y_min bb) 1) (x_max bb) W 1 < n)
  /\ (1 <= x_min bb ->
      0 <= idx (y_max bb) (int_sub (x_min bb) 1) W 1 < n)
  /\ (1 <= y_min bb -> 1 <= x_min bb ->
      0 <= idx (int_sub (y_min bb) 1) (int_sub (x_min bb) 1) W 1 < n).
Proof.
  intros H W bb n Hin Hsz Hrow Hcol HR HcR HrR.
  assert (Hn : n = H * W)
    by (apply after_phase2_length; (assumption || lia)).
  destruct (bounding_box_facts R H W row col HR Hrow Hcol HcR HrR Hsz)
    as (_ & _ & Hx & Hx' & Hy & Hy').
  fold bb in Hx, Hx', Hy, Hy'.
  assert (Hcell : forall r c, 0 <= r < H -> 0 <= c < W ->
            0 <= idx r c W 1 < n).
  { intros r c Hr Hc. rewrite (idx_exact H) by assumption. rewrite Hn. nia. }
  assert (HWH : W <= W * H /\ H <= W * H) by nia.
  split; [exact Hn|]. split; [apply Hcell; lia|].
  split; [|split].
  - intros Hy1. rewrite int_pred_exact by lia. apply Hcell; lia.
  - intros Hx1. rewrite int_pred_exact by lia. apply Hcell; lia.
  - intros Hy1 Hx1. rewrite !int_pred_exact by lia. apply Hcell; lia.
Qed.

Lemma corner_reads_in_bounds_witness :
  let bb := bounding_box 1 (height image_2x2) (width image_2x2) 1 1 in
  let n := Z.of_nat (length (sums_color
                               (after_phase2 0%nat zero_junk zero_junk zero_junk
                                  heap_2x2) 0)) in
  n = height image_2x2 * width image_2x2
  /\ 0 <= idx (y_max bb) (x_max bb) (width image_2x2) 1 < n
  /\ (1 <= y_min bb ->
      0 <= idx (int_sub (y_min bb) 1) (x_max bb) (width image_2x2) 1 < n)
  /\ (1 <= x_min bb ->
      0 <= idx (y_max bb) (int_sub (x_min bb) 1) (width image_2x2) 1 < n)
  /\ (1 <= y_min bb -> 1 <= x_min bb ->
      0 <= idx (int_sub (y_min bb) 1) (int_sub (x_min bb) 1) (width image_2x2) 1 < n).
Proof.
  apply (corner_reads_in_bounds 1 0%nat zero_junk zero_junk zero_junk heap_2x2
           image_2x2 1 1 0).
  - vm_compute. reflexivity.
  - unfold INT_MAX. simpl. lia.
  - simpl. lia.
  - simpl. lia.
  - lia.
  - unfold INT_MAX. lia.
  - unfold INT_MAX. lia.
Defined.

(* ===================================================================== *)
(** ** What the averaging pass computes *)
(* ===================================================================== *)

(** X13. The four-corner combination [d - (b + c - a)] that [main] computes for
    a pixel is the sum, over the clamped window of the pixel, of what
    entered the tables (the pixels of the columns from 1 on, and what
    [malloc] left in column 0), reduced to an [int]. *)
Theorem window_sum_is_sum_over_window R img_in junk_r junk_g junk_b
    (m : gmap nat Image) (img : Image) row col color :
  let bb := bounding_box R (height img) (width img) row col in
  m !! img_in = Some img ->
  width img * height img <= INT_MAX ->
  0 <= row < height img -> 0 <= col < width img -> 0 <= color < 3 ->
  0 <= R -> col + R <= INT_MAX -> row + R <= INT_MAX ->
  window_sum (sums_color (after_phase2 img_in junk_r junk_g junk_b m) color)
             (width img) bb
  = wrap (rect_sum (table_entry m img_in junk_r junk_g junk_b color)
            (Z.max (col - R) 0) (Z.min (col + R) (width img - 1))
            (Z.max (row - R) 0) (Z.min (row + R) (height img - 1))).
Proof.
  intros bb Hin Hsz Hrow Hcol Hcolor HR HcR HrR. unfold bb.
  rewrite (window_sum_entries R img_in junk_r junk_g junk_b m img Hin Hsz
             row col color) by assumption.
  destruct (window_box R img Hsz row col Hrow Hcol HR HcR HrR) as (-> & _).
  reflexivity.
Qed.

Lemma window_sum_is_sum_over_window_witness :
  let bb := bounding_box 1 (height image_2x2) (width image_2x2) 0 1 in
  window_sum (sums_color (after_phase2 0%nat zero_junk zero_junk zero_junk heap_2x2) 0)
             (width image_2x2) bb
  = wrap (rect_sum (table_entry heap_2x2 0%nat zero_junk zero_junk zero_junk 0)
            (Z.max (1 - 1) 0) (Z.min (1 + 1) (width image_2x2 - 1))
            (Z.max (0 - 1) 0) (Z.min (0 + 1) (height image_2x2 - 1))).
Proof.
  apply (window_sum_is_sum_over_window 1 0%nat zero_junk zero_junk zero_junk
           heap_2x2 image_2x2 0 1 0).
  - vm_compute. reflexivity.
  - unfold INT_MAX. simpl. lia.
  - simpl. lia.
  - simpl. lia.
  - lia.
  - lia.
  - unfold INT_MAX. lia.
  - unfold INT_MAX. lia.
Defined.

(* ===================================================================== *)
(** ** Line 162: the division through [float] *)
(* ===================================================================== *)

(** X14. For a sum and a count below [2^24], line 162 computes the integer
    quotient of the sum by the count, the fraction discarded (not rounded),
    and keeps its low eight bits: the passage through [float] loses
    nothing. *)
Theorem float_average_is_integer_quotient (sum count : Z) :
  0 <= sum < 2 ^ 24 -> 0 < count < 2 ^ 24 ->
  average sum count = (sum / count) mod 256.
Proof.
  intros Hs Hc. unfold average, uchar_of_float.
  now rewrite float_quotient_exact.
Qed.

Lemma float_average_is_integer_quotient_witness :
  average 1000 7 = (1000 / 7) mod 256.
Proof.
  apply float_average_is_integer_quotient; lia.
Defined.

(** X15. For a count below [2^24] and a sum between 0 and 255 times the count
    that is an [int], the [float] quotient of line 162 has its integral
    part in 0..255, also where the sum is too large to be a [float]
    exactly: the conversion to [unsigned char] is defined and keeps the
    value. *)
Theorem float_average_fits_unsigned_char (sum count : Z) :
  0 < count < 2 ^ 24 -> 0 <= sum <= 255 * count -> sum <= INT_MAX ->
  0 <= float_trunc (float_div (float_of_int sum) (float_of_int count)) <= 255
  /\ average sum count
     = float_trunc (float_div (float_of_int sum) (float_of_int count)).
Proof.
  intros Hc Hs Hint. unfold INT_MAX in Hint. split.
  - apply float_quotient_in_range; lia.
  - apply average_defined; lia.
Qed.

Lemma float_average_fits_unsigned_char_witness :
  0 <= float_trunc (float_div (float_of_int 2147483520) (float_of_int 8421504)) <= 255
  /\ average 2147483520 8421504
     = float_trunc (float_div (float_of_int 2147483520) (float_of_int 8421504)).
Proof.
  apply float_average_fits_unsigned_char; unfold INT_MAX; lia.
Defined.

(* ===================================================================== *)
(** ** What the output image holds *)
(* ===================================================================== *)

(** X16. Line 109, [#pragma omp parallel for] on the averaging pass: whatever
    the order in which the rows are taken, each row run whole, every pixel
    of the output image gets the value that [main] writes there. *)
Theorem averaging_any_row_order R img_in junk_r junk_g junk_b
    (m : gmap nat Image) (img : Image) (rows : list Z) row col color :
  let img_out := fst (setup img_in junk_r junk_g junk_b m) in
  let s := phase3_in_order R img_out (height img) (width img) rows
             (after_phase2 img_in junk_r junk_g junk_b m) in
  m !! img_in = Some img ->
  Permutation rows (range 0 (height img)) ->
  0 <= row < height img -> 0 <= col < width img -> 0 <= color < 3 ->
  ImageGetPixel (images s) img_out col row color
  = ImageGetPixel (images (snd (main R img_in junk_r junk_g junk_b m)))
      (fst (main R img_in junk_r junk_g junk_b m)) col row color.
Proof.
  intros img_out s Hin Hperm Hrow Hcol Hcolor.
  destruct (image_dims img_in m img Hin) as (HeqH & HeqW).
  assert (Hnd : NoDup rows) by (rewrite Hperm; apply NoDup_range).
  assert (Hrows : forall r, r ∈ rows <-> 0 <= r < height img)
    by (intros r; rewrite Hperm; apply elem_of_range).
  rewrite main_output_blurred by (rewrite ?HeqH, ?HeqW; assumption).
  rewrite HeqH, HeqW.
  destruct (phase3_in_order_cells R img_out (height img) (width img)
              (after_phase2 img_in junk_r junk_g junk_b m) rows Hnd Hrows)
    as (_ & Hcells).
  { unfold img_out. rewrite <- HeqH, <- HeqW.
    apply averaging_inv_start; rewrite ?HeqH, ?HeqW; lia. }
  now apply Hcells.
Qed.

Lemma averaging_any_row_order_witness :
  let img_out := fst (setup 0%nat zero_junk zero_junk zero_junk heap_2x2) in
  let s := phase3_in_order 1 img_out (height image_2x2) (width image_2x2) [1; 0]
             (after_phase2 0%nat zero_junk zero_junk zero_junk heap_2x2) in
  ImageGetPixel (images s) img_out 1 0 2
  = ImageGetPixel (images (snd (main 1 0%nat zero_junk zero_junk zero_junk heap_2x2)))
      (fst (main 1 0%nat zero_junk zero_junk zero_junk heap_2x2)) 1 0 2.
Proof.
  apply (averaging_any_row_order 1 0%nat zero_junk zero_junk zero_junk heap_2x2
           image_2x2 [1; 0] 0 1 2).
  - vm_compute. reflexivity.
  - apply perm_swap.
  - simpl. lia.
  - simpl. lia.
  - lia.
Defined.

(** The cells of a window of three rows and three columns. *)
Ltac window_3x3 y x Hy Hx Hwy Hwx :=
  simpl in Hy, Hx;
  assert (Hyc : y = 0 \/ y = 1 \/ y = 2) by lia;
  assert (Hxc : x = 1 \/ x = 2 \/ x = 3) by lia;
  clear Hy Hx Hwy Hwx;
  destruct Hyc as [-> | [-> | ->]]; destruct Hxc as [-> | [-> | ->]].

(** X17. The blur is local, works channel by channel, and never looks at column
    0 of the input: two input images of the same size give the same output
    value at a pixel as soon as they agree, on that channel, at the pixels
    of its window that are not in column 0. *)
Theorem output_is_local R img_in junk_r junk_g junk_b
    (m m' : gmap nat Image) (img img' : Image) row col color :
  m !! img_in = Some img -> m' !! img_in = Some img' ->
  width img' = width img -> height img' = height img ->
  width img * height img <= INT_MAX ->
  0 <= row < height img -> 0 <= col < width img -> 0 <= color < 3 ->
  0 <= R -> col + R <= INT_MAX -> row + R <= INT_MAX ->
  (forall y x, 0 <= y < height img -> 1 <= x < width img ->
     row - R <= y <= row + R -> col - R <= x <= col + R ->
     ImageGetPixel m' img_in x y color = ImageGetPixel m img_in x y color) ->
  ImageGetPixel (images (snd (main R img_in junk_r junk_g junk_b m')))
    (fst (main R img_in junk_r junk_g junk_b m')) col row color
  = ImageGetPixel (images (snd (main R img_in junk_r junk_g junk_b m)))
      (fst (main R img_in junk_r junk_g junk_b m)) col row color.
Proof.
  intros Hin Hin' Hw Hh Hsz Hrow Hcol Hcolor HR HcR HrR Hpx.
  rewrite (output_entries R img_in junk_r junk_g junk_b m img Hin Hsz
             row col color) by assumption.
  rewrite (output_entries R img_in junk_r junk_g junk_b m' img' Hin')
    by (rewrite ?Hw, ?Hh; assumption).
  rewrite Hw, Hh.
  destruct (window_box R img Hsz row col Hrow Hcol HR HcR HrR)
    as (Hbox & _ & Hx & Hx' & Hy & Hy').
  f_equal. f_equal.
  apply rect_sum_ext. intros y x Hy0 Hx0.
  apply (table_entry_same m m' img_in junk_r junk_g junk_b img img');
    try assumption.
  intros Hxne. unfold pixel.
  rewrite Hbox in Hy0, Hx0, Hx, Hx', Hy, Hy'.
  unfold clamped_box in *. cbn [x_min x_max y_min y_max] in *.
  apply Hpx; lia.
Qed.

Lemma output_is_local_witness :
  ImageGetPixel (images (snd (main 1 0%nat zero_junk zero_junk zero_junk heap_2x2_b)))
    (fst (main 1 0%nat zero_junk zero_junk zero_junk heap_2x2_b)) 1 0 0
  = ImageGetPixel (images (snd (main 1 0%nat zero_junk zero_junk zero_junk heap_2x2)))
      (fst (main 1 0%nat zero_junk zero_junk zero_junk heap_2x2)) 1 0 0.
Proof.
  apply (output_is_local 1 0%nat zero_junk zero_junk zero_junk heap_2x2 heap_2x2_b
           image_2x2 image_2x2_b 0 1 0).
  - vm_compute. reflexivity.
  - vm_compute. reflexivity.
  - reflexivity.
  - reflexivity.
  - unfold INT_MAX. simpl. lia.
  - simpl. lia.
  - simpl. lia.
  - lia.
  - lia.
  - unfold INT_MAX. lia.
  - unfold INT_MAX. lia.
  - intros y x Hy Hx Hwy Hwx. simpl in Hy, Hx.
    assert (x = 1) as -> by lia.
    assert (Hyc : y = 0 \/ y = 1) by lia.
    destruct Hyc as [-> | ->]; vm_compute; reflexivity.
Defined.

(** X18. With [R = 0] the output pixel is the input pixel everywhere but in
    column 0, where it is what the division by 1 makes of the content
    [malloc] left in the table cell. *)
Theorem radius_zero_output img_in junk_r junk_g junk_b
    (m : gmap nat Image) (img : Image) row col color :
  m !! img_in = Some img ->
  width img * height img <= INT_MAX ->
  0 <= row < height img -> 0 <= col < width img -> 0 <= color < 3 ->
  ImageGetPixel (images (snd (main 0 img_in junk_r junk_g junk_b m)))
    (fst (main 0 img_in junk_r junk_g junk_b m)) col row color
  = if col =? 0
    then average (column0 junk_r junk_g junk_b (width img) (color, row, 0)) 1
    else ImageGetPixel m img_in col row color.
Proof.
  intros Hin Hsz Hrow Hcol Hcolor.
  destruct (Z.eqb_spec col 0) as [->|Hne].
  - apply radius0_column0_is_junk; (assumption || lia).
  - apply (radius0_identity_off_column0 img_in junk_r junk_g junk_b m img);
      (assumption || lia).
Qed.

Lemma radius_zero_output_witness :
  ImageGetPixel (images (snd (main 0 0%nat zero_junk zero_junk zero_junk heap_2x2)))
    (fst (main 0 0%nat zero_junk zero_junk zero_junk heap_2x2)) 1 1 2
  = if 1 =? 0
    then average (column0 zero_junk zero_junk zero_junk (width image_2x2) (2, 1, 0)) 1
    else ImageGetPixel heap_2x2 0%nat 1 1 2.
Proof.
  apply (radius_zero_output 0%nat zero_junk zero_junk zero_junk heap_2x2 image_2x2 1 1 2).
  - vm_compute. reflexivity.
  - unfold INT_MAX. simpl. lia.
  - simpl. lia.
  - simpl. lia.
  - lia.
Defined.

(** X19. With a radius of at least [max(W, H)] the output image is flat, and it
    is the same for all such radii: in a channel, every pixel has one and
    the same value, whatever the radius. *)
Theorem large_radius_flat_output R R' img_in junk_r junk_g junk_b
    (m : gmap nat Image) (img : Image) row col row' col' color :
  m !! img_in = Some img ->
  width img * height img <= INT_MAX ->
  0 <= row < height img -> 0 <= col < width img ->
  0 <= row' < height img -> 0 <= col' < width img -> 0 <= color < 3 ->
  Z.max (width img) (height img) <= R ->
  width img + R <= INT_MAX -> height img + R <= INT_MAX ->
  Z.max (width img) (height img) <= R' ->
  width img + R' <= INT_MAX -> height img + R' <= INT_MAX ->
  ImageGetPixel (images (snd (main R img_in junk_r junk_g junk_b m)))
    (fst (main R img_in junk_r junk_g junk_b m)) col row color
  = ImageGetPixel (images (snd (main R' img_in junk_r junk_g junk_b m)))
      (fst (main R' img_in junk_r junk_g junk_b m)) col' row' color.
Proof.
  intros Hin Hsz Hrow Hcol Hrow' Hcol' Hcolor HR HWR HHR HR' HWR' HHR'.
  rewrite (large_radius_output R img_in junk_r junk_g junk_b m img row col color)
    by (assumption || lia).
  rewrite (large_radius_output R' img_in junk_r junk_g junk_b m img row' col' color)
    by (assumption || lia).
  reflexivity.
Qed.

Lemma large_radius_flat_output_witness :
  ImageGetPixel (images (snd (main 2 0%nat zero_junk zero_junk zero_junk heap_2x2)))
    (fst (main 2 0%nat zero_junk zero_junk zero_junk heap_2x2)) 0 0 0
  = ImageGetPixel (images (snd (main 5 0%nat zero_junk zero_junk zero_junk heap_2x2)))
      (fst (main 5 0%nat zero_junk zero_junk zero_junk heap_2x2)) 1 1 0.
Proof.
  apply (large_radius_flat_output 2 5 0%nat zero_junk zero_junk zero_junk heap_2x2
           image_2x2 0 0 1 1 0).
  - vm_compute. reflexivity.
  - unfold INT_MAX. simpl. lia.
  - simpl. lia.
  - simpl. lia.
  - simpl. lia.
  - simpl. lia.
  - lia.
  - simpl. lia.
  - unfold INT_MAX. simpl. lia.
  - unfold INT_MAX. simpl. lia.
  - simpl. lia.
  - unfold INT_MAX. simpl. lia.
  - unfold INT_MAX. simpl. lia.
Defined.

(** X20. Where the window of a pixel does not reach column 0 and has fewer
    than [2^24 / 255] pixels (every window of radius at most 127), the
    output value is the sum of the input pixels of the clamped window
    divided by their number, the fraction discarded. *)
Theorem blur_is_window_average R img_in junk_r junk_g junk_b
    (m : gmap nat Image) (img : Image) row col color :
  m !! img_in = Some img ->
  255 * width img * height img <= INT_MAX ->
  0 <= row < height img -> 0 <= col < width img -> 0 <= color < 3 ->
  0 <= R -> col + R <= INT_MAX -> row + R <= INT_MAX ->
  1 <= col - R ->
  255 * window_count (clamped_box R (height img) (width img) row col) < 2 ^ 24 ->
  ImageGetPixel (images (snd (main R img_in junk_r junk_g junk_b m)))
    (fst (main R img_in junk_r junk_g junk_b m)) col row color
  = brute_force m img_in R color row col.
Proof.
  intros. now apply (output_brute_force_off_column0 R img_in junk_r junk_g junk_b m img).
Qed.

Lemma blur_is_window_average_witness :
  ImageGetPixel (images (snd (main 1 0%nat zero_junk zero_junk zero_junk heap_4x4)))
    (fst (main 1 0%nat zero_junk zero_junk zero_junk heap_4x4)) 2 1 0
  = brute_force heap_4x4 0%nat 1 0 1 2.
Proof.
  apply (blur_is_window_average 1 0%nat zero_junk zero_junk zero_junk heap_4x4
           image_4x4 1 2 0).
  - vm_compute. reflexivity.
  - unfold INT_MAX. simpl. lia.
  - simpl. lia.
  - simpl. lia.
  - lia.
  - lia.
  - unfold INT_MAX. lia.
  - unfold INT_MAX. lia.
  - lia.
  - vm_compute. reflexivity.
Defined.

(** X21. The blur stays between the extremes of its window: where the window
    of a pixel does not reach column 0 and has fewer than [2^24 / 255]
    pixels, an output value lies between any two bounds that hold for the
    input pixels of the window; a uniform window is left as it is. *)
Theorem output_between_window_bounds R img_in junk_r junk_g junk_b
    (m : gmap nat Image) (img : Image) row col color lo hi :
  m !! img_in = Some img ->
  255 * width img * height img <= INT_MAX ->
  0 <= row < height img -> 0 <= col < width img -> 0 <= color < 3 ->
  0 <= R -> col + R <= INT_MAX -> row + R <= INT_MAX ->
  1 <= col - R ->
  255 * window_count (clamped_box R (height img) (width img) row col) < 2 ^ 24 ->
  (forall y x, 0 <= y < height img -> 1 <= x < width img ->
     row - R <= y <= row + R -> col - R <= x <= col + R ->
     lo <= ImageGetPixel m img_in x y color <= hi) ->
  lo <= ImageGetPixel (images (snd (main R img_in junk_r junk_g junk_b m)))
          (fst (main R img_in junk_r junk_g junk_b m)) col row color
     <= hi.
Proof.
  intros Hin Hsz Hrow Hcol Hcolor HR HcR HrR Hoff Hsmall Hpx.
  rewrite (output_brute_force_off_column0 R img_in junk_r junk_g junk_b m img)
    by assumption.
  assert (Hsz' : width img * height img <= INT_MAX) by nia.
  destruct (image_dims img_in m img Hin) as (HeqH & HeqW).
  unfold brute_force. rewrite HeqH, HeqW.
  destruct (window_box R img Hsz' row col Hrow Hcol HR HcR HrR)
    as (Hbox & _ & Hx & Hx' & Hy & Hy').
  rewrite Hbox in Hx, Hx', Hy, Hy'. clear Hbox.
  set (bb := clamped_box R (height img) (width img) row col) in *.
  assert (Hcnt : 1 <= window_count bb).
  { unfold window_count.
    assert (1 * 1 <= (x_max bb - x_min bb + 1) * (y_max bb - y_min bb + 1))
      by (apply Z.mul_le_mono_nonneg; lia).
    lia. }
  pose proof (rect_sum_bounds (pixel m img_in color)
                (x_min bb) (x_max bb) (y_min bb) (y_max bb) 0 255
                ltac:(lia) ltac:(lia)
                (fun y x _ _ => pixel_range m img_in color y x)) as Hnonneg.
  assert (Hwin : forall y x, y_min bb <= y <= y_max bb -> x_min bb <= x <= x_max bb ->
            lo <= pixel m img_in color y x <= hi).
  { intros y x Hy0 Hx0. unfold pixel.
    unfold bb, clamped_box in Hy0, Hx0, Hx, Hx', Hy, Hy'.
    cbn [x_min x_max y_min y_max] in Hy0, Hx0, Hx, Hx', Hy, Hy'.
    apply Hpx; lia. }
  pose proof (rect_sum_bounds (pixel m img_in color)
                (x_min bb) (x_max bb) (y_min bb) (y_max bb) lo hi
                ltac:(lia) ltac:(lia) Hwin) as Hb.
  fold (window_count bb) in Hb, Hnonneg.
  unfold window_pixels_sum.
  rewrite Z.quot_div_nonneg by lia. split.
  - apply Z.div_le_lower_bound; lia.
  - apply Z.div_le_upper_bound; lia.
Qed.

Lemma output_between_window_bounds_witness :
  20 <= ImageGetPixel (images (snd (main 1 0%nat zero_junk zero_junk zero_junk heap_4x4)))
          (fst (main 1 0%nat zero_junk zero_junk zero_junk heap_4x4)) 2 1 0
     <= 120.
Proof.
  apply (output_between_window_bounds 1 0%nat zero_junk zero_junk zero_junk heap_4x4
           image_4x4 1 2 0 20 120).
  - vm_compute. reflexivity.
  - unfold INT_MAX. simpl. lia.
  - simpl. lia.
  - simpl. lia.
  - lia.
  - lia.
  - unfold INT_MAX. lia.
  - unfold INT_MAX. lia.
  - lia.
  - vm_compute. reflexivity.
  - intros y x Hy Hx Hwy Hwx.
    window_3x3 y x Hy Hx Hwy Hwx; vm_compute; split; discriminate.
Defined.

(* ===================================================================== *)
(** ** The blur as a filter *)
(* ===================================================================== *)

Lemma sum_below_mono f g n :
  (forall i, (i < n)%nat -> f i <= g i) -> sum_below f n <= sum_below g n.
Proof.
  induction n as [|n IH]; intros Hfg; [simpl; lia|].
  rewrite !sum_below_last.
  specialize (IH (fun i Hi => Hfg i ltac:(lia))).
  specialize (Hfg n ltac:(lia)). lia.
Qed.

Lemma rect_sum_mono f g x0 x1 y0 y1 :
  (forall y x, y0 <= y <= y1 -> x0 <= x <= x1 -> f y x <= g y x) ->
  rect_sum f x0 x1 y0 y1 <= rect_sum g x0 x1 y0 y1.
Proof.
  intros Hfg. unfold rect_sum.
  apply sum_below_mono. intros dy Hdy.
  apply sum_below_mono. intros dx Hdx.
  apply Hfg; lia.
Qed.

Lemma rect_sum_shift f k x0 x1 y0 y1 :
  x0 <= x1 + 1 -> y0 <= y1 + 1 ->
  rect_sum (fun y x => f y x + k) x0 x1 y0 y1
  = rect_sum f x0 x1 y0 y1 + (x1 - x0 + 1) * (y1 - y0 + 1) * k.
Proof.
  intros Hx Hy. unfold rect_sum.
  rewrite (sum_below_ext _
             (fun dy => sum_below (fun dx => f (y0 + Z.of_nat dy) (x0 + Z.of_nat dx))
                                  (Z.to_nat (x1 - x0 + 1))
                        + (x1 - x0 + 1) * k)).
  - rewrite sum_below_plus.
    rewrite (sum_below_const (fun _ => (x1 - x0 + 1) * k) _ ((x1 - x0 + 1) * k))
      by reflexivity.
    rewrite Z2Nat.id by lia. ring.
  - intros dy _. rewrite sum_below_plus.
    rewrite (sum_below_const (fun _ => k) _ k) by reflexivity.
    rewrite Z2Nat.id by lia. reflexivity.
Qed.

Section Filter.
Variables (R : Z) (img_in : nat) (junk_r junk_g junk_b : nat -> Z).
Variables (m m' : gmap nat Image) (img img' : Image).
Variables (row col color : Z).
Hypothesis Hin : m !! img_in = Some img.
Hypothesis Hin' : m' !! img_in = Some img'.
Hypothesis Hw : width img' = width img.
Hypothesis Hh : height img' = height img.
Hypothesis Hsz : 255 * width img * height img <= INT_MAX.
Hypothesis Hrow : 0 <= row < height img.
Hypothesis Hcol : 0 <= col < width img.
Hypothesis Hcolor : 0 <= color < 3.
Hypothesis HR : 0 <= R.
Hypothesis HcR : col + R <= INT_MAX.
Hypothesis HrR : row + R <= INT_MAX.
Hypothesis Hoff : 1 <= col - R.
Hypothesis Hsmall :
  255 * window_count (clamped_box R (height img) (width img) row col) < 2 ^ 24.

Let bb : BoundingBox := clamped_box R (height img) (width img) row col.
Let n : Z := window_count bb.
Let total (h : gmap nat Image) : Z :=
  rect_sum (pixel h img_in color) (x_min bb) (x_max bb) (y_min bb) (y_max bb).

(** Both outputs as quotients of the window sums by the pixel count. *)
Lemma outputs_as_quotients :
  1 <= n
  /\ (0 <= x_min bb <= x_max bb /\ x_max bb < width img)
  /\ (0 <= y_min bb <= y_max bb /\ y_max bb < height img)
  /\ 0 <= total m /\ 0 <= total m'
  /\ ImageGetPixel (images (snd (main R img_in junk_r junk_g junk_b m)))
       (fst (main R img_in junk_r junk_g junk_b m)) col row color = total m / n
  /\ ImageGetPixel (images (snd (main R img_in junk_r junk_g junk_b m')))
       (fst (main R img_in junk_r junk_g junk_b m')) col row color = total m' / n.
Proof.
  assert (Hsz' : width img * height img <= INT_MAX) by nia.
  destruct (window_box R img Hsz' row col Hrow Hcol HR HcR HrR)
    as (Hbox & _ & Hx & Hx' & Hy & Hy').
  rewrite Hbox in Hx, Hx', Hy, Hy'. fold bb in Hx, Hx', Hy, Hy'.
  assert (Hn : 1 <= n).
  { unfold n, window_count.
    assert (1 * 1 <= (x_max bb - x_min bb + 1) * (y_max bb - y_min bb + 1))
      by (apply Z.mul_le_mono_nonneg; lia).
    lia. }
  assert (Hpos : forall h, 0 <= total h).
  { intros h.
    pose proof (rect_sum_bounds (pixel h img_in color)
                  (x_min bb) (x_max bb) (y_min bb) (y_max bb) 0 255
                  ltac:(lia) ltac:(lia)
                  (fun y x _ _ => pixel_range h img_in color y x)) as Hb.
    unfold total. lia. }
  destruct (image_dims img_in m img Hin) as (HeqH & HeqW).
  destruct (image_dims img_in m' img' Hin') as (HeqH' & HeqW').
  split; [exact Hn|]. split; [tauto|]. split; [tauto|].
  split; [apply Hpos|]. split; [apply Hpos|]. split.
  - rewrite (output_brute_force_off_column0 R img_in junk_r junk_g junk_b m img)
      by assumption.
    unfold brute_force. rewrite HeqH, HeqW. fold bb. fold n.
    unfold window_pixels_sum. fold (total m).
    apply Z.quot_div_nonneg; [apply Hpos | lia].
  - rewrite (output_brute_force_off_column0 R img_in junk_r junk_g junk_b m' img')
      by (rewrite ?Hw, ?Hh; assumption).
    unfold brute_force. rewrite HeqH', HeqW', Hw, Hh. fold bb. fold n.
    unfold window_pixels_sum. fold (total m').
    apply Z.quot_div_nonneg; [apply Hpos | lia].
Qed.

Lemma window_pixel_in_image y x :
  y_min bb <= y <= y_max bb -> x_min bb <= x <= x_max bb ->
  (0 <= y < height img /\ 1 <= x < width img)
  /\ (row - R <= y <= row + R /\ col - R <= x <= col + R).
Proof.
  unfold bb, clamped_box. cbn [x_min x_max y_min y_max]. lia.
Qed.

Lemma blur_monotone :
  (forall y x, 0 <= y < height img -> 1 <= x < width img ->
     row - R <= y <= row + R -> col - R <= x <= col + R ->
     ImageGetPixel m img_in x y color <= ImageGetPixel m' img_in x y color) ->
  ImageGetPixel (images (snd (main R img_in junk_r junk_g junk_b m)))
    (fst (main R img_in junk_r junk_g junk_b m)) col row color
  <= ImageGetPixel (images (snd (main R img_in junk_r junk_g junk_b m')))
       (fst (main R img_in junk_r junk_g junk_b m')) col row color.
Proof.
  intros Hle.
  destruct outputs_as_quotients as (Hn & _ & _ & _ & _ & -> & ->).
  apply Z.div_le_mono; [lia|].
  unfold total. apply rect_sum_mono. intros y x Hy Hx.
  destruct (window_pixel_in_image y x Hy Hx) as ((Hy1 & Hx1) & (Hy2 & Hx2)).
  unfold pixel. now apply Hle.
Qed.

Lemma blur_shift k :
  (forall y x, 0 <= y < height img -> 1 <= x < width img ->
     row - R <= y <= row + R -> col - R <= x <= col + R ->
     ImageGetPixel m' img_in x y color = ImageGetPixel m img_in x y color + k) ->
  ImageGetPixel (images (snd (main R img_in junk_r junk_g junk_b m')))
    (fst (main R img_in junk_r junk_g junk_b m')) col row color
  = ImageGetPixel (images (snd (main R img_in junk_r junk_g junk_b m)))
      (fst (main R img_in junk_r junk_g junk_b m)) col row color + k.
Proof.
  intros Hk.
  destruct outputs_as_quotients as (Hn & Hx & Hy & _ & _ & -> & ->).
  assert (HS : total m' = total m + k * n).
  { unfold total, n, window_count.
    rewrite (rect_sum_ext (pixel m' img_in color)
               (fun y x => pixel m img_in color y x + k)).
    - rewrite rect_sum_shift by lia. ring.
    - intros y x Hy0 Hx0.
      destruct (window_pixel_in_image y x Hy0 Hx0) as ((Hy1 & Hx1) & (Hy2 & Hx2)).
      unfold pixel. now apply Hk. }
  rewrite HS. apply Z.div_add. lia.
Qed.

End Filter.

(** X24. The blur is monotone: where the window of a pixel does not reach
    column 0 and has fewer than [2^24 / 255] pixels, an input image that is
    nowhere darker in the window gives an output value that is not
    darker. *)
Theorem blur_is_monotone R img_in junk_r junk_g junk_b
    (m m' : gmap nat Image) (img img' : Image) row col color :
  m !! img_in = Some img -> m' !! img_in = Some img' ->
  width img' = width img -> height img' = height img ->
  255 * width img * height img <= INT_MAX ->
  0 <= row < height img -> 0 <= col < width img -> 0 <= color < 3 ->
  0 <= R -> col + R <= INT_MAX -> row + R <= INT_MAX ->
  1 <= col - R ->
  255 * window_count (clamped_box R (height img) (width img) row col) < 2 ^ 24 ->
  (forall y x, 0 <= y < height img -> 1 <= x < width img ->
     row - R <= y <= row + R -> col - R <= x <= col + R ->
     ImageGetPixel m img_in x y color <= ImageGetPixel m' img_in x y color) ->
  ImageGetPixel (images (snd (main R img_in junk_r junk_g junk_b m)))
    (fst (main R img_in junk_r junk_g junk_b m)) col row color
  <= ImageGetPixel (images (snd (main R img_in junk_r junk_g junk_b m')))
       (fst (main R img_in junk_r junk_g junk_b m')) col row color.
Proof.
  intros. now apply (blur_monotone R img_in junk_r junk_g junk_b m m' img img').
Qed.

Lemma blur_is_monotone_witness :
  (ImageGetPixel (images (snd (main 1 0%nat zero_junk zero_junk zero_junk heap_4x4)))
     (fst (main 1 0%nat zero_junk zero_junk zero_junk heap_4x4)) 2 1 0
   <=? ImageGetPixel
         (images (snd (main 1 0%nat zero_junk zero_junk zero_junk heap_4x4_lighter)))
         (fst (main 1 0%nat zero_junk zero_junk zero_junk heap_4x4_lighter)) 2 1 0)
  = true.
Proof.
  apply Z.leb_le.
  apply (blur_is_monotone 1 0%nat zero_junk zero_junk zero_junk heap_4x4
           heap_4x4_lighter image_4x4 image_4x4_lighter 1 2 0).
  - vm_compute. reflexivity.
  - vm_compute. reflexivity.
  - reflexivity.
  - reflexivity.
  - unfold INT_MAX. simpl. lia.
  - simpl. lia.
  - simpl. lia.
  - lia.
  - lia.
  - unfold INT_MAX. lia.
  - unfold INT_MAX. lia.
  - lia.
  - vm_compute. reflexivity.
  - intros y x Hy Hx Hwy Hwx.
    window_3x3 y x Hy Hx Hwy Hwx; vm_compute; discriminate.
Defined.

(** X25. The blur commutes with a change of brightness: where the window of a
    pixel does not reach column 0 and has fewer than [2^24 / 255] pixels,
    adding a constant [k] to every input pixel of the window adds [k] to
    the output value. *)
Theorem blur_commutes_with_brightness R img_in junk_r junk_g junk_b
    (m m' : gmap nat Image) (img img' : Image) row col color k :
  m !! img_in = Some img -> m' !! img_in = Some img' ->
  width img' = width img -> height img' = height img ->
  255 * width img * height img <= INT_MAX ->
  0 <= row < height img -> 0 <= col < width img -> 0 <= color < 3 ->
  0 <= R -> col + R <= INT_MAX -> row + R <= INT_MAX ->
  1 <= col - R ->
  255 * window_count (clamped_box R (height img) (width img) row col) < 2 ^ 24 ->
  (forall y x, 0 <= y < height img -> 1 <= x < width img ->
     row - R <= y <= row + R -> col - R <= x <= col + R ->
     ImageGetPixel m' img_in x y color = ImageGetPixel m img_in x y color + k) ->
  ImageGetPixel (images (snd (main R img_in junk_r junk_g junk_b m')))
    (fst (main R img_in junk_r junk_g junk_b m')) col row color
  = ImageGetPixel (images (snd (main R img_in junk_r junk_g junk_b m)))
      (fst (main R img_in junk_r junk_g junk_b m)) col row color + k.
Proof.
  intros. now apply (blur_shift R img_in junk_r junk_g junk_b m m' img img').
Qed.

Lemma blur_commutes_with_brightness_witness :
  ImageGetPixel
    (images (snd (main 1 0%nat zero_junk zero_junk zero_junk heap_4x4_bright)))
    (fst (main 1 0%nat zero_junk zero_junk zero_junk heap_4x4_bright)) 2 1 0
  = ImageGetPixel (images (snd (main 1 0%nat zero_junk zero_junk zero_junk heap_4x4)))
      (fst (main 1 0%nat zero_junk zero_junk zero_junk heap_4x4)) 2 1 0 + 5.
Proof.
  apply (blur_commutes_with_brightness 1 0%nat zero_junk zero_junk zero_junk heap_4x4
           heap_4x4_bright image_4x4 image_4x4_bright 1 2 0 5).
  - vm_compute. reflexivity.
  - vm_compute. reflexivity.
  - reflexivity.
  - reflexivity.
  - unfold INT_MAX. simpl. lia.
  - simpl. lia.
  - simpl. lia.
  - lia.
  - lia.
  - unfold INT_MAX. lia.
  - unfold INT_MAX. lia.
  - lia.
  - vm_compute. reflexivity.
  - intros y x Hy Hx Hwy Hwx.
    window_3x3 y x Hy Hx Hwy Hwx; vm_compute; reflexivity.
Defined.

(* ===================================================================== *)
(** ** When column 0 of the tables holds the pixels of column 0 *)
(* ===================================================================== *)

Lemma entries_are_pixels img_in junk_r junk_g junk_b (m : gmap nat Image)
    (img : Image) color y x :
  m !! img_in = Some img ->
  0 <= y < height img ->
  (forall r, 0 <= r < height img ->
     column0 junk_r junk_g junk_b (width img) (color, r, 0)
     = ImageGetPixel m img_in 0 r color) ->
  table_entry m img_in junk_r junk_g junk_b color y x = pixel m img_in color y x.
Proof.
  intros Hin Hy Hcol0. unfold table_entry.
  destruct (Z.eqb_spec x 0) as [->|Hne]; [|reflexivity].
  unfold image_width. rewrite Hin. now apply Hcol0.
Qed.

(** X26. The only thing the tables lack is the initialisation of column 0: when
    the memory that [malloc] returns holds in column 0 of a table the
    pixels of column 0, the table is the summed-area table of the channel,
    every cell being the sum of the pixels of the rectangle from the origin
    to the cell, reduced to an [int]. *)
Theorem tables_right_when_column0_initialised img_in junk_r junk_g junk_b
    (m : gmap nat Image) (img : Image) color r c :
  m !! img_in = Some img ->
  width img * height img <= INT_MAX ->
  0 <= color < 3 -> 0 <= r < height img -> 0 <= c < width img ->
  (forall y, 0 <= y < height img ->
     column0 junk_r junk_g junk_b (width img) (color, y, 0)
     = ImageGetPixel m img_in 0 y color) ->
  table (after_phase2 img_in junk_r junk_g junk_b m) (width img) color r c
  = wrap (prefix_sum m img_in color r c).
Proof.
  intros Hin Hsz Hcolor Hr Hc Hcol0.
  rewrite (table_after_both_parts img_in junk_r junk_g junk_b m img)
    by (assumption || lia).
  rewrite accumulated_rect by lia. unfold prefix_sum. f_equal.
  apply rect_sum_ext. intros y x Hy Hx.
  apply (entries_are_pixels img_in junk_r junk_g junk_b m img); (assumption || lia).
Qed.

Lemma tables_right_when_column0_initialised_witness :
  table (after_phase2 0%nat junk_2x2 junk_2x2 junk_2x2 heap_2x2) (width image_2x2) 0 1 1
  = wrap (prefix_sum heap_2x2 0%nat 0 1 1).
Proof.
  apply (tables_right_when_column0_initialised 0%nat junk_2x2 junk_2x2 junk_2x2
           heap_2x2 image_2x2 0 1 1).
  - vm_compute. reflexivity.
  - unfold INT_MAX. simpl. lia.
  - lia.
  - simpl. lia.
  - simpl. lia.
  - intros y Hy. simpl in Hy.
    assert (y = 0 \/ y = 1) as [-> | ->] by lia; vm_compute; reflexivity.
Defined.

(** X27. With column 0 of the table so initialised, the program is the box
    blur: for every pixel whose window has fewer than [2^24 / 255] pixels,
    the output value is the sum of the input pixels of the clamped window
    divided by their number, the fraction discarded. *)
Theorem blur_right_when_column0_initialised R img_in junk_r junk_g junk_b
    (m : gmap nat Image) (img : Image) row col color :
  m !! img_in = Some img ->
  255 * width img * height img <= INT_MAX ->
  0 <= row < height img -> 0 <= col < width img -> 0 <= color < 3 ->
  0 <= R -> col + R <= INT_MAX -> row + R <= INT_MAX ->
  255 * window_count (clamped_box R (height img) (width img) row col) < 2 ^ 24 ->
  (forall y, 0 <= y < height img ->
     column0 junk_r junk_g junk_b (width img) (color, y, 0)
     = ImageGetPixel m img_in 0 y color) ->
  ImageGetPixel (images (snd (main R img_in junk_r junk_g junk_b m)))
    (fst (main R img_in junk_r junk_g junk_b m)) col row color
  = brute_force m img_in R color row col.
Proof.
  intros Hin Hsz Hrow Hcol Hcolor HR HcR HrR Hsmall Hcol0.
  assert (Hsz' : width img * height img <= INT_MAX) by nia.
  destruct (image_dims img_in m img Hin) as (HeqH & HeqW).
  rewrite (output_entries R img_in junk_r junk_g junk_b m img Hin Hsz'
             row col color) by assumption.
  destruct (window_box R img Hsz' row col Hrow Hcol HR HcR HrR)
    as (Hbox & _ & Hx & Hx' & Hy & Hy').
  unfold brute_force. rewrite HeqH, HeqW.
  rewrite Hbox in *. clear Hbox.
  set (bb := clamped_box R (height img) (width img) row col) in *.
  rewrite (rect_sum_ext (table_entry m img_in junk_r junk_g junk_b color)
             (pixel m img_in color))
    by (intros y x Hy0 Hx0;
        apply (entries_are_pixels img_in junk_r junk_g junk_b m img);
        (assumption || lia)).
  pose proof (rect_sum_bounds (pixel m img_in color)
                (x_min bb) (x_max bb) (y_min bb) (y_max bb) 0 255
                ltac:(lia) ltac:(lia)
                (fun y x _ _ => pixel_range m img_in color y x)) as Hb.
  fold (window_count bb) in Hb.
  assert (Hcnt : 1 <= window_count bb).
  { unfold window_count.
    assert (1 * 1 <= (x_max bb - x_min bb + 1) * (y_max bb - y_min bb + 1))
      by (apply Z.mul_le_mono_nonneg; lia).
    lia. }
  unfold window_pixels_sum.
  rewrite wrap_id by (unfold in_int, INT_MIN, INT_MAX in *; lia).
  rewrite average_exact by lia.
  symmetry. apply Z.quot_div_nonneg; lia.
Qed.

Lemma blur_right_when_column0_initialised_witness :
  ImageGetPixel (images (snd (main 1 0%nat junk_2x2 junk_2x2 junk_2x2 heap_2x2)))
    (fst (main 1 0%nat junk_2x2 junk_2x2 junk_2x2 heap_2x2)) 0 0 0
  = brute_force heap_2x2 0%nat 1 0 0 0.
Proof.
  apply (blur_right_when_column0_initialised 1 0%nat junk_2x2 junk_2x2 junk_2x2
           heap_2x2 image_2x2 0 0 0).
  - vm_compute. reflexivity.
  - unfold INT_MAX. simpl. lia.
  - simpl. lia.
  - simpl. lia.
  - lia.
  - lia.
  - unfold INT_MAX. lia.
  - unfold INT_MAX. lia.
  - vm_compute. reflexivity.
  - intros y Hy. simpl in Hy.
    assert (y = 0 \/ y = 1) as [-> | ->] by lia; vm_compute; reflexivity.
Defined.

(* ===================================================================== *)
(** ** A negative radius *)
(* ===================================================================== *)

(** X22. The radius is not validated. With a negative radius, for every pixel
    less than [-R] rows from the top, the corner [d] is read at a negative
    index, before the first cell of the table. *)
Theorem negative_radius_reads_before_table R H W row col :
  R < 0 -> 0 <= row < H -> 0 <= col < W -> row + R < 0 ->
  INT_MIN <= R * (W + 1) -> H <= INT_MAX -> W <= INT_MAX ->
  idx (y_max (bounding_box R H W row col))
      (x_max (bounding_box R H W row col)) W 1 < 0.
Proof.
  intros HR Hrow Hcol Htop Hlow HH HW.
  assert (HRW : R * (W + 1) <= R) by nia.
  assert (HRW' : R * W + R = R * (W + 1)) by ring.
  unfold bounding_box. cbn [x_max y_max].
  rewrite !min_spec. unfold int_add, int_sub.
  rewrite (wrap_id (row + R)) by (unfold in_int, INT_MIN, INT_MAX in *; lia).
  rewrite (wrap_id (col + R)) by (unfold in_int, INT_MIN, INT_MAX in *; lia).
  rewrite (wrap_id (H - 1)) by (unfold in_int, INT_MIN, INT_MAX in *; lia).
  rewrite (wrap_id (W - 1)) by (unfold in_int, INT_MIN, INT_MAX in *; lia).
  replace (Z.min (row + R) (H - 1)) with (row + R) by lia.
  set (x := Z.min (col + R) (W - 1)).
  assert (Hx : R <= x <= W - 1) by (unfold x; lia).
  assert (Hy : R * W <= (row + R) * W <= - W) by nia.
  unfold idx, int_mul, int_add.
  rewrite (wrap_id ((row + R) * W)) by (unfold in_int, INT_MIN, INT_MAX in *; lia).
  rewrite (wrap_id ((row + R) * W + x)) by (unfold in_int, INT_MIN, INT_MAX in *; lia).
  rewrite Z.mul_1_r.
  rewrite wrap_id by (unfold in_int, INT_MIN, INT_MAX in *; lia).
  lia.
Qed.

Lemma negative_radius_reads_before_table_witness :
  idx (y_max (bounding_box (-1) 2 2 0 0)) (x_max (bounding_box (-1) 2 2 0 0)) 2 1 < 0.
Proof.
  apply negative_radius_reads_before_table; unfold INT_MIN, INT_MAX; lia.
Defined.

Lemma negative_box k H W row col :
  1 <= k -> k <= row -> row + k <= H -> k <= col -> col + k <= W ->
  H <= INT_MAX -> W <= INT_MAX ->
  bounding_box (- k) H W row col = mkBox (col + k) (col - k) (row + k) (row - k).
Proof.
  intros Hk Hr Hr' Hc Hc' HH HW.
  unfold bounding_box. rewrite !min_spec, !max_spec. unfold int_add, int_sub.
  rewrite !wrap_id by (unfold in_int, INT_MIN, INT_MAX in *; lia).
  f_equal; lia.
Qed.

Lemma interior_box k H W row col :
  1 <= k -> k <= row -> row + k <= H -> k <= col -> col + k <= W ->
  H <= INT_MAX -> W <= INT_MAX ->
  bounding_box (k - 1) H W row col
  = mkBox (col - k + 1) (col + k - 1) (row - k + 1) (row + k - 1).
Proof.
  intros Hk Hr Hr' Hc Hc' HH HW.
  unfold bounding_box. rewrite !min_spec, !max_spec. unfold int_add, int_sub.
  rewrite !wrap_id by (unfold in_int, INT_MIN, INT_MAX in *; lia).
  f_equal; lia.
Qed.

(** From the tables of any state, a radius [-k] gives at an interior pixel
    (one at least [k] cells from every border) the value that the radius
    [k - 1] gives. *)
Lemma blurred_negative_radius s k H W row col color :
  1 <= k -> k <= row -> row + k <= H -> k <= col -> col + k <= W ->
  W * H <= INT_MAX ->
  blurred s (- k) H W row col color = blurred s (k - 1) H W row col color.
Proof.
  intros Hk Hr Hr' Hc Hc' Hsz.
  assert (HWH : W <= W * H /\ H <= W * H) by nia.
  unfold blurred.
  rewrite negative_box, interior_box by lia.
  set (t := sums_color s color).
  assert (Hside : 1 <= 2 * k - 1 <= W /\ 2 * k - 1 <= H) by lia.
  assert (Harea : 0 <= (2 * k - 1) * (2 * k - 1) <= W * H).
  { split; [apply Z.mul_nonneg_nonneg; lia | apply Z.mul_le_mono_nonneg; lia]. }
  assert (Hpix : pixels (mkBox (col + k) (col - k) (row + k) (row - k))
                 = pixels (mkBox (col - k + 1) (col + k - 1) (row - k + 1) (row + k - 1))).
  { unfold pixels, int_mul, int_sub. cbn [x_min x_max y_min y_max].
    rewrite (wrap_id (col + k - 1)), (wrap_id (row + k - 1)),
      (wrap_id (col - k + 1 - 1)), (wrap_id (row - k + 1 - 1))
      by (unfold in_int, INT_MIN, INT_MAX in *; lia).
    rewrite (wrap_id (col - k - (col + k - 1))),
      (wrap_id (row - k - (row + k - 1))),
      (wrap_id (col + k - 1 - (col - k + 1 - 1))),
      (wrap_id (row + k - 1 - (row - k + 1 - 1)))
      by (unfold in_int, INT_MIN, INT_MAX in *; lia).
    f_equal. ring. }
  rewrite Hpix. f_equal.
  unfold window_sum, corner_a, corner_b, corner_c, corner_d.
  cbn [x_min x_max y_min y_max].
  destruct (Z.ltb_spec (row + k) 1); [lia|].
  destruct (Z.ltb_spec (col + k) 1); [lia|].
  destruct (Z.ltb_spec (row - k + 1) 1); [lia|].
  destruct (Z.ltb_spec (col - k + 1) 1); [lia|].
  cbn [orb].
  rewrite !int_pred_exact by (unfold INT_MAX in *; lia).
  replace (row - k + 1 - 1) with (row - k) by lia.
  replace (col - k + 1 - 1) with (col - k) by lia.
  rewrite !window_sum_eq. f_equal. ring.
Qed.

(** X23. The radius is not validated: [main] accepts a negative radius [-k].
    At an interior pixel (one at least [k] cells from every border) the
    box comes out inverted, the four corners are all read, inside the
    table, and the value written is the one the radius [k - 1] gives
    there. *)
Theorem negative_radius_blurs_like_smaller R' img_in junk_r junk_g junk_b
    (m : gmap nat Image) (img : Image) row col color :
  let H := height img in
  let W := width img in
  let bb := bounding_box (- (R' + 1)) H W row col in
  m !! img_in = Some img ->
  W * H <= INT_MAX ->
  0 <= R' -> R' < row -> row + R' < H ->
  R' < col -> col + R' < W -> 0 <= color < 3 ->
  (1 <= y_min bb /\ 1 <= x_min bb
   /\ 0 <= idx (y_max bb) (x_max bb) W 1 < H * W
   /\ 0 <= idx (int_sub (y_min bb) 1) (x_max bb) W 1 < H * W
   /\ 0 <= idx (y_max bb) (int_sub (x_min bb) 1) W 1 < H * W
   /\ 0 <= idx (int_sub (y_min bb) 1) (int_sub (x_min bb) 1) W 1 < H * W)
  /\ ImageGetPixel (images (snd (main (- (R' + 1)) img_in junk_r junk_g junk_b m)))
       (fst (main (- (R' + 1)) img_in junk_r junk_g junk_b m)) col row color
     = ImageGetPixel (images (snd (main R' img_in junk_r junk_g junk_b m)))
         (fst (main R' img_in junk_r junk_g junk_b m)) col row color.
Proof.
  intros H W bb Hin Hsz HR Hr Hr' Hc Hc' Hcolor.
  assert (HWH : W <= W * H /\ H <= W * H) by nia.
  split.
  - subst bb. rewrite negative_box by lia. cbn [x_min x_max y_min y_max].
    rewrite !int_pred_exact by (unfold INT_MAX in *; lia).
    rewrite !(idx_exact H W) by lia.
    repeat split; try lia; nia.
  - destruct (image_dims img_in m img Hin) as (HeqH & HeqW).
    rewrite !main_output_blurred by (rewrite ?HeqH, ?HeqW; subst H W; lia).
    rewrite HeqH, HeqW.
    rewrite blurred_negative_radius by (subst H W; lia).
    f_equal. lia.
Qed.

Lemma negative_radius_blurs_like_smaller_witness :
  let H := height image_2x2 in
  let W := width image_2x2 in
  let bb := bounding_box (- (0 + 1)) H W 1 1 in
  (1 <= y_min bb /\ 1 <= x_min bb
   /\ 0 <= idx (y_max bb) (x_max bb) W 1 < H * W
   /\ 0 <= idx (int_sub (y_min bb) 1) (x_max bb) W 1 < H * W
   /\ 0 <= idx (y_max bb) (int_sub (x_min bb) 1) W 1 < H * W
   /\ 0 <= idx (int_sub (y_min bb) 1) (int_sub (x_min bb) 1) W 1 < H * W)
  /\ ImageGetPixel (images (snd (main (- (0 + 1)) 0%nat zero_junk zero_junk zero_junk heap_2x2)))
    (fst (main (- (0 + 1)) 0%nat zero_junk zero_junk zero_junk heap_2x2)) 1 1 0
  = ImageGetPixel (images (snd (main 0 0%nat zero_junk zero_junk zero_junk heap_2x2)))
      (fst (main 0 0%nat zero_junk zero_junk zero_junk heap_2x2)) 1 1 0.
Proof.
  apply (negative_radius_blurs_like_smaller 0 0%nat zero_junk zero_junk zero_junk
           heap_2x2 image_2x2 1 1 0).
  - vm_compute. reflexivity.
  - unfold INT_MAX. simpl. lia.
  - lia.
  - lia.
  - simpl. lia.
  - lia.
  - simpl. lia.
  - lia.
Defined.
